(** * Solar microgrid size calculator

    A shallow embedding of [calculate_microgrid_size] and [EXAMPLE_PROFILES]
    of [app.py], and the properties the specification states about them.

    The body of the Python function uses only [+], [*], [/] and
    [round(., 1)], so it runs on any type of Python's numeric tower.  It is
    embedded once, over an interface [Number] of exactly these operations,
    and read at two instances:

    - [float]: IEEE binary64 (the kernel's primitive floats), what the
      Streamlit shell passes: sliders and number inputs give floats, presets
      give small ints that Python converts exactly.  Multiplication and
      addition overflow silently to infinity, [/] raises on a zero divisor,
      and [round(x, 1)] is correctly rounded: the nearest one-digit decimal
      of the exact value of [x], ties to even, read back as the nearest
      double.
    - [Q]: exact rationals, what the same body computes when every argument
      is a [fractions.Fraction], and the specification's "real numbers".
      [round(x, 1)] is [Fraction.__round__]: nearest tenth, ties to even.

    All seven arguments have one number type, and on arguments of one type
    the only exception the body can raise is [ZeroDivisionError].  The
    script passes the backup hours as an [int] among floats; Python
    converts it where it meets a float, which the model of the script does
    before the call, together with the [OverflowError] of that
    conversion. *)

From Stdlib Require Import ZArith QArith Qround Qabs Qreduction Qpower.
From Stdlib Require Import Lqa Lia Bool String List Floats.
Import ListNotations.

Set Warnings "-inexact-float".
Local Open Scope Q_scope.

(** ** Exceptions *)

Inductive exn : Set :=
| ZeroDivisionError.

Inductive result (A : Type) : Type :=
| Ok (a : A)
| Raise (e : exn).

Arguments Ok {A} a.
Arguments Raise {A} e.

Definition bind {A B : Type} (c : result A) (k : A -> result B) : result B :=
  match c with
  | Ok a => k a
  | Raise e => Raise e
  end.

Notation "x <- c ;; k" := (bind c (fun x => k))
  (at level 61, c at next level, right associativity).

(** ** The numeric interface the function body uses *)

Class Number (A : Type) : Type := {
  of_int : Z -> A;          (* an [int] operand, converted to the type *)
  add : A -> A -> A;        (* [x + y] *)
  mul : A -> A -> A;        (* [x * y] *)
  quotient : A -> A -> A;   (* [x / y] for a divisor that is not zero *)
  is_zero : A -> bool;      (* [y == 0], the test [/] makes on its divisor *)
  round1 : A -> A           (* [round(x, 1)] *)
}.

(** [x / y]: Python raises [ZeroDivisionError] on a zero divisor. *)
Definition truediv {A : Type} `{Number A} (x y : A) : result A :=
  if is_zero y then Raise ZeroDivisionError else Ok (quotient x y).

(** ** The function *)

(** The three locals [required_battery_capacity], [required_solar_capacity]
    and [required_inverter_size] (lines 19-32). *)
Record required (A : Type) : Type := {
  required_battery_capacity : A;
  required_solar_capacity : A;
  required_inverter_size : A
}.

Arguments required_battery_capacity {A} r.
Arguments required_solar_capacity {A} r.
Arguments required_inverter_size {A} r.

(** The returned dict, with its three keys (lines 34-38). *)
Record sizes (A : Type) : Type := {
  battery_capacity_kwh : A;
  solar_capacity_kw : A;
  inverter_size_kw : A
}.

Arguments battery_capacity_kwh {A} s.
Arguments solar_capacity_kw {A} s.
Arguments inverter_size_kw {A} s.

Section Sizing.
Context {A : Type} `{Number A}.

(** Lines 15-32: the body up to the [return]. *)
Definition required_sizes
    (daily_kwh_usage peak_kw_demand backup_hours solar_peak_hours
     battery_depth_of_discharge system_losses safety_factor : A)
  : result (required A) :=
  let adjusted_daily_usage :=
    mul daily_kwh_usage (add (of_int 1) system_losses) in
  let adjusted_peak_demand :=
    mul peak_kw_demand (add (of_int 1) system_losses) in
  per_day <- truediv (mul adjusted_daily_usage backup_hours) (of_int 24) ;;
  usable <- truediv per_day battery_depth_of_discharge ;;
  per_sun_hour <- truediv adjusted_daily_usage solar_peak_hours ;;
  Ok {| required_battery_capacity := mul usable safety_factor;
        required_solar_capacity := mul per_sun_hour safety_factor;
        required_inverter_size := mul adjusted_peak_demand safety_factor |}.

(** Lines 4-38. *)
Definition calculate_microgrid_size
    (daily_kwh_usage peak_kw_demand backup_hours solar_peak_hours
     battery_depth_of_discharge system_losses safety_factor : A)
  : result (sizes A) :=
  r <- required_sizes daily_kwh_usage peak_kw_demand backup_hours
         solar_peak_hours battery_depth_of_discharge system_losses
         safety_factor ;;
  Ok {| battery_capacity_kwh := round1 (required_battery_capacity r);
        solar_capacity_kw := round1 (required_solar_capacity r);
        inverter_size_kw := round1 (required_inverter_size r) |}.
End Sizing.

(** ** The sidebar's five settings and the call of lines 87-95 *)

Record settings (A : Type) : Type := {
  backup_hours : A;
  solar_peak_hours : A;
  battery_dod : A;
  system_losses : A;
  safety_factor : A
}.

Arguments backup_hours {A} s.
Arguments solar_peak_hours {A} s.
Arguments battery_dod {A} s.
Arguments system_losses {A} s.
Arguments safety_factor {A} s.

Definition required_for {A : Type} `{Number A}
    (daily_kwh peak_kw : A) (s : settings A) : result (required A) :=
  required_sizes daily_kwh peak_kw (backup_hours s) (solar_peak_hours s)
    (battery_dod s) (system_losses s) (safety_factor s).

Definition compute {A : Type} `{Number A}
    (daily_kwh peak_kw : A) (s : settings A) : result (sizes A) :=
  calculate_microgrid_size daily_kwh peak_kw (backup_hours s)
    (solar_peak_hours s) (battery_dod s) (system_losses s) (safety_factor s).

(** ** Example business profiles (lines 41-46) *)

Record profile : Set := {
  daily_kwh : Z;
  peak_kw : Z
}.

Definition EXAMPLE_PROFILES : list (string * profile) :=
  [ ("Small Retail Store"%string, {| daily_kwh := 50; peak_kw := 8 |});
    ("Restaurant"%string, {| daily_kwh := 200; peak_kw := 25 |});
    ("Small Office"%string, {| daily_kwh := 75; peak_kw := 12 |});
    ("Custom"%string, {| daily_kwh := 100; peak_kw := 15 |}) ].

(** [EXAMPLE_PROFILES[business_type]] *)
Fixpoint getitem (d : list (string * profile)) (key : string) : option profile :=
  match d with
  | [] => None
  | (k, v) :: rest => if String.eqb k key then Some v else getitem rest key
  end.

(** ** Exact rationals *)

(** [Fraction.__round__(self)] without digits: [divmod] of numerator by
    denominator, then the remainder is compared with half the denominator
    and a tie goes to the even neighbour. *)
Definition round_half_even (x : Q) : Z :=
  let floor := (Qnum x / Zpos (Qden x))%Z in
  let remainder := (Qnum x mod Zpos (Qden x))%Z in
  if (remainder * 2 <? Zpos (Qden x))%Z then floor
  else if (Zpos (Qden x) <? remainder * 2)%Z then (floor + 1)%Z
  else if Z.even floor then floor
  else (floor + 1)%Z.

(** [Fraction.__round__(self, 1)]: [Fraction(round(self * 10), 10)], which
    the constructor brings to lowest terms. *)
Definition Q_round1 (x : Q) : Q :=
  Qred (Qmake (round_half_even (x * 10)) 10).

#[export] Instance Number_Q : Number Q := {|
  of_int := inject_Z;
  add := Qplus;
  mul := Qmult;
  quotient := Qdiv;
  is_zero := fun y => Qeq_bool y 0;
  round1 := Q_round1
|}.

(** ** Binary64 floats *)

(** The exact value of a finite float. *)
Definition SF2Q (x : spec_float) : Q :=
  match x with
  | S754_finite s m e => inject_Z (cond_Zopp s (Zpos m)) * Qpower 2 e
  | _ => 0
  end.

(** The double nearest to [n / 10] (ties to even), with the sign [s]. *)
Definition tenths_to_float (s : bool) (n : Z) : float :=
  match n with
  | Zpos p =>
      SF2Prim (SFdiv prec emax (S754_finite s p 0) (S754_finite false 10 0))
  | _ => SF2Prim (S754_zero s)
  end.

(** [float.__round__(x, 1)]: infinities and NaN round to themselves; a
    finite [x] is converted to the decimal with one digit after the point
    that is nearest to its exact value, a tie going to the even digit, and
    that decimal is read back as the nearest double. *)
Definition float_round1 (x : float) : float :=
  match Prim2SF x with
  | S754_finite s m e =>
      tenths_to_float s (round_half_even (SF2Q (S754_finite false m e) * 10))
  | _ => x
  end.

(** An [int] operand of a float operation is converted to the nearest
    double; Python raises [OverflowError] past the range of doubles, which
    no literal or preset of the program reaches. *)
Definition float_of_int (z : Z) : float :=
  SF2Prim (binary_normalize prec emax z 0 false).

#[export] Instance Number_float : Number float := {|
  of_int := float_of_int;
  add := PrimFloat.add;
  mul := PrimFloat.mul;
  quotient := PrimFloat.div;
  is_zero := fun y => PrimFloat.eqb y 0%float;
  round1 := float_round1
|}.

(** ** Defaults and domains *)

(** The defaults of the signature (lines 7-11), which are also the sliders'
    initial values (lines 57-61). *)
Definition default_settings_float : settings float :=
  {| backup_hours := float_of_int 24;
     solar_peak_hours := float_of_int 5;
     battery_dod := 0.8%float;
     system_losses := 0.15%float;
     safety_factor := 1.2%float |}.

(** The same decimals read exactly. *)
Definition default_settings : settings Q :=
  {| backup_hours := 24;
     solar_peak_hours := 5;
     battery_dod := 0.8;
     system_losses := 0.15;
     safety_factor := 1.2 |}.

Definition with_backup_hours {A : Type} (b : A) (s : settings A) : settings A :=
  {| backup_hours := b;
     solar_peak_hours := solar_peak_hours s;
     battery_dod := battery_dod s;
     system_losses := system_losses s;
     safety_factor := safety_factor s |}.

(** The sliders' ranges (lines 57-61). *)
Definition in_domain (s : settings Q) : Prop :=
  12 <= backup_hours s <= 72 /\
  3 <= solar_peak_hours s <= 7 /\
  0.5 <= battery_dod s <= 0.9 /\
  0.1 <= system_losses s <= 0.3 /\
  1.1 <= safety_factor s <= 1.5.

(** Valid inputs: strictly positive usage and demand, settings in range. *)
Definition valid (daily_kwh peak_kw : Q) (s : settings Q) : Prop :=
  0 < daily_kwh /\ 0 < peak_kw /\ in_domain s.

(** [lo <= x <= hi] on floats. *)
Definition in_range (lo hi x : float) : bool :=
  PrimFloat.leb lo x && PrimFloat.leb x hi.

(** Valid inputs as the floats the shell passes: finite, strictly positive
    usage and demand, settings within the sliders' ranges. *)
Definition valid_float (daily_kwh peak_kw : float) (s : settings float) : bool :=
  PrimFloat.ltb 0%float daily_kwh && PrimFloat.is_finite daily_kwh &&
  PrimFloat.ltb 0%float peak_kw && PrimFloat.is_finite peak_kw &&
  in_range 12%float 72%float (backup_hours s) &&
  in_range 3%float 7%float (solar_peak_hours s) &&
  in_range 0.5%float 0.9%float (battery_dod s) &&
  in_range 0.1%float 0.3%float (system_losses s) &&
  in_range 1.1%float 1.5%float (safety_factor s).

(** Every size of [z] is at most the matching size of [z']. *)
Definition sizes_leb (z z' : sizes float) : bool :=
  PrimFloat.leb (battery_capacity_kwh z) (battery_capacity_kwh z') &&
  PrimFloat.leb (solar_capacity_kw z) (solar_capacity_kw z') &&
  PrimFloat.leb (inverter_size_kw z) (inverter_size_kw z').

(** Pointwise order on the arguments: every parameter the sizes grow with is
    no smaller, every parameter they shrink with is no larger.  Varying one
    parameter with the others held fixed is the special case where all the
    other comparisons are equalities. *)
Definition grows (d p : Q) (s : settings Q) (d' p' : Q) (s' : settings Q) : Prop :=
  d <= d' /\ p <= p' /\
  backup_hours s <= backup_hours s' /\
  system_losses s <= system_losses s' /\
  safety_factor s <= safety_factor s' /\
  solar_peak_hours s' <= solar_peak_hours s /\
  battery_dod s' <= battery_dod s.

(** [n] is the integer nearest to [x], the even one of the two at a tie. *)
Definition nearest_even (x : Q) (n : Z) : Prop :=
  (inject_Z n - (1 # 2) < x /\ x < inject_Z n + (1 # 2)) \/
  ((x == inject_Z n - (1 # 2) \/ x == inject_Z n + (1 # 2)) /\
   Z.even n = true).

(** The body on exact rationals, in closed form, when no divisor is zero. *)
Definition required_Q (d p : Q) (s : settings Q) : required Q :=
  {| required_battery_capacity :=
       d * (1 + system_losses s) * backup_hours s / 24 / battery_dod s
       * safety_factor s;
     required_solar_capacity :=
       d * (1 + system_losses s) / solar_peak_hours s * safety_factor s;
     required_inverter_size := p * (1 + system_losses s) * safety_factor s |}.

Definition rounded (r : required Q) : sizes Q :=
  {| battery_capacity_kwh := Q_round1 (required_battery_capacity r);
     solar_capacity_kw := Q_round1 (required_solar_capacity r);
     inverter_size_kw := Q_round1 (required_inverter_size r) |}.

(** ** The algorithm as the specification words it (section 4.1)

    Five steps in this order: the two loss-adjusted quantities, then the
    battery, solar and inverter sizes, each rounded by [round1].  Division
    is the runtime's. *)
Definition spec_compute {A : Type} `{Number A}
    (dailyEnergyUsageKwh peakPowerDemandKw : A) (c : settings A)
  : result (sizes A) :=
  let adjustedDailyUsage :=
    mul dailyEnergyUsageKwh (add (of_int 1) (system_losses c)) in
  let adjustedPeakDemand :=
    mul peakPowerDemandKw (add (of_int 1) (system_losses c)) in
  batteryCapacityKwh <-
    (stored <- truediv (mul adjustedDailyUsage (backup_hours c))
                 (of_int 24) ;;
     nominal <- truediv stored (battery_dod c) ;;
     Ok (round1 (mul nominal (safety_factor c)))) ;;
  solarCapacityKw <-
    (produced <- truediv adjustedDailyUsage (solar_peak_hours c) ;;
     Ok (round1 (mul produced (safety_factor c)))) ;;
  let inverterSizeKw := round1 (mul adjustedPeakDemand (safety_factor c)) in
  Ok {| battery_capacity_kwh := batteryCapacityKwh;
        solar_capacity_kw := solarCapacityKw;
        inverter_size_kw := inverterSizeKw |}.

(** ** The Streamlit script (lines 55-95)

    One run of the script with the button pressed.  The widgets are
    Streamlit's; what they hand back is an argument here: the selected
    business type, the two number inputs (read only when the type is
    "Custom") and the five sliders.  A slider hands back a value within its
    bounds and the select box one of its options; theorems that need this
    assume it. *)

(** What can end the run early: a missing key of [EXAMPLE_PROFILES], a
    backup-hours int too large for a float, or an exception of the
    calculation on floats. *)
Inductive app_exn : Set :=
| KeyError (key : string)
| OverflowError
| Calculation (e : exn).

Inductive outcome (A : Type) : Type :=
| Done (a : A)
| Failed (e : app_exn).

Arguments Done {A} a.
Arguments Failed {A} e.

(** The sliders of lines 57-61: the first has int bounds and hands back an
    int, the others hand back floats. *)
Record sidebar : Set := {
  slider_backup_hours : Z;
  slider_solar_peak_hours : float;
  slider_battery_dod : float;
  slider_system_losses : float;
  slider_safety_factor : float
}.

(** Every slider value lies within the bounds the slider was given. *)
Definition sidebar_in_range (sb : sidebar) : bool :=
  (12 <=? slider_backup_hours sb)%Z && (slider_backup_hours sb <=? 72)%Z &&
  in_range 3%float 7%float (slider_solar_peak_hours sb) &&
  in_range 0.5%float 0.9%float (slider_battery_dod sb) &&
  in_range 0.1%float 0.3%float (slider_system_losses sb) &&
  in_range 1.1%float 1.5%float (slider_safety_factor sb).

(** The keyword arguments of lines 90-94. *)
Definition settings_of_sidebar (sb : sidebar) : settings float :=
  {| backup_hours := of_int (slider_backup_hours sb);
     solar_peak_hours := slider_solar_peak_hours sb;
     battery_dod := slider_battery_dod sb;
     system_losses := slider_system_losses sb;
     safety_factor := slider_safety_factor sb |}.

(** [list(EXAMPLE_PROFILES.keys())], the options of the select box
    (line 66). *)
Definition options : list string := map fst EXAMPLE_PROFILES.

(** Lines 69-81: the number inputs for "Custom", the profile's ints
    otherwise; indexing [EXAMPLE_PROFILES] raises [KeyError] on a key it
    does not have. *)
Definition selected_inputs
    (business_type : string) (custom_daily_kwh custom_peak_kw : float)
  : outcome (float * float) :=
  if String.eqb business_type "Custom"
  then Done (custom_daily_kwh, custom_peak_kw)
  else
    match getitem EXAMPLE_PROFILES business_type with
    | Some pr => Done (of_int (daily_kwh pr), of_int (peak_kw pr))
    | None => Failed (KeyError business_type)
    end.

(** The backup-hours slider hands back an [int], and line 20 multiplies the
    float [adjusted_daily_usage] by it.  Python converts the int to the
    nearest double for that, and raises [OverflowError] when the int is too
    large for a double: where [float_of_int] gives an infinity. *)
Definition convertible (z : Z) : bool :=
  PrimFloat.is_finite (float_of_int z).

(** Lines 66-95 with the button pressed: the [results] that are displayed.
    In the call the conversion of the backup hours (line 20) comes before
    the divisions (lines 21 and 27). *)
Definition calculate_clicked
    (business_type : string) (custom_daily_kwh custom_peak_kw : float)
    (sb : sidebar) : outcome (sizes float) :=
  match selected_inputs business_type custom_daily_kwh custom_peak_kw with
  | Done (d, p) =>
      if convertible (slider_backup_hours sb)
      then
        match compute d p (settings_of_sidebar sb) with
        | Ok results => Done results
        | Raise e => Failed (Calculation e)
        end
      else Failed OverflowError
  | Failed e => Failed e
  end.

(** ** Auxiliary definitions for the further properties *)

(** What the function returns when it returns, over any number type. *)
Definition returned_sizes {A : Type} `{Number A}
    (daily_kwh_usage peak_kw_demand backup_hours solar_peak_hours
     battery_depth_of_discharge system_losses safety_factor : A) : sizes A :=
  {| battery_capacity_kwh :=
       round1
         (mul
            (quotient
               (quotient
                  (mul (mul daily_kwh_usage (add (of_int 1) system_losses))
                     backup_hours)
                  (of_int 24))
               battery_depth_of_discharge)
            safety_factor);
     solar_capacity_kw :=
       round1
         (mul
            (quotient (mul daily_kwh_usage (add (of_int 1) system_losses))
               solar_peak_hours)
            safety_factor);
     inverter_size_kw :=
       round1
         (mul (mul peak_kw_demand (add (of_int 1) system_losses))
            safety_factor) |}.

(** The slider positions that give the smallest and the largest sizes. *)
Definition lightest_settings : settings Q :=
  {| backup_hours := 12;
     solar_peak_hours := 7;
     battery_dod := 0.9;
     system_losses := 0.1;
     safety_factor := 1.1 |}.

Definition heaviest_settings : settings Q :=
  {| backup_hours := 72;
     solar_peak_hours := 3;
     battery_dod := 0.5;
     system_losses := 0.3;
     safety_factor := 1.5 |}.

(** Classes of binary64 values, read off their specification. *)

(** A zero of either sign. *)
Definition SF_is_zero (x : spec_float) : Prop :=
  match x with
  | S754_zero _ => True
  | _ => False
  end.

(** Neither an infinity nor NaN. *)
Definition SF_is_finite (x : spec_float) : Prop :=
  match x with
  | S754_zero _ | S754_finite _ _ _ => True
  | _ => False
  end.

(** Neither a zero nor NaN: dividing a zero by it gives a zero. *)
Definition SF_divides (x : spec_float) : Prop :=
  match x with
  | S754_infinity _ | S754_finite _ _ _ => True
  | _ => False
  end.

(** A zero, a positive finite number or plus infinity: neither negative
    nor NaN. *)
Definition SF_nonneg (x : spec_float) : Prop :=
  match x with
  | S754_zero _ | S754_finite false _ _ | S754_infinity false => True
  | _ => False
  end.

(** A strictly positive finite number. *)
Definition SF_pos (x : spec_float) : Prop :=
  match x with
  | S754_finite false _ _ => True
  | _ => False
  end.

(** ** Binary64 rounding, for the properties of the function on floats

    [SpecFloat] specifies every float operation by an algorithm on
    mantissas.  The definitions below say what that algorithm computes:
    the rounding of the exact value to nearest, ties to even. *)

(** Powers of two as rationals. *)
Definition pow2 (e : Z) : Q := Qpower 2 e.

(** The exact value of a finite float. *)
Definition fval (x : float) : Q := SF2Q (Prim2SF x).

(** [t] lies at location [l] of the unit interval that starts at [m]. *)
Definition inbetween (m : Z) (l : location) (t : Q) : Prop :=
  match l with
  | loc_Exact => t == inject_Z m
  | loc_Inexact Lt => inject_Z m < t /\ t < inject_Z m + (1 # 2)
  | loc_Inexact Eq => t == inject_Z m + (1 # 2)
  | loc_Inexact Gt => inject_Z m + (1 # 2) < t /\ t < inject_Z m + 1
  end.

(** A shift record with a non-negative mantissa stands for [t]: its
    mantissa is the integer part and its two bits locate the rest. *)
Definition represents (mrs : shr_record) (t : Q) : Prop :=
  (0 <= shr_m mrs)%Z /\ inbetween (shr_m mrs) (loc_of_shr_record mrs) t.

(** [e] is the exponent binary64 gives a result of exact value [x >= 0]:
    [-1074] below the normal range, and otherwise the one that leaves 53
    digits. *)
Definition cexp_of (x : Q) (e : Z) : Prop :=
  (e = (-1074)%Z /\ x < pow2 (-1021)) \/
  ((-1074 < e)%Z /\ pow2 (e + 52) <= x /\ x < pow2 (e + 53)).

(** The float of mantissa [n] (at most [2 ^ 53]) and exponent [e]: a
    mantissa of [2 ^ 53] carries into the next exponent, and an exponent
    above 971 overflows to plus infinity. *)
Definition round_result (n e : Z) : spec_float :=
  match n with
  | Z0 => S754_zero false
  | Zpos m =>
      if (n =? 9007199254740992)%Z
      then if (e + 1 <=? 971)%Z
           then S754_finite false 4503599627370496 (e + 1)
           else S754_infinity false
      else if (e <=? 971)%Z then S754_finite false m e
           else S754_infinity false
  | Zneg _ => S754_nan
  end.

(** [r] is the rounding of [x >= 0] to binary64, to nearest and ties to
    even. *)
Definition rounds_to (x : Q) (r : spec_float) : Prop :=
  exists e : Z,
    cexp_of x e /\ r = round_result (round_half_even (x * pow2 (- e))) e.

(** A zero, a positive finite number or plus infinity, with the plus
    sign. *)
Definition SF_plus (x : spec_float) : Prop :=
  match x with
  | S754_zero false | S754_finite false _ _ | S754_infinity false => True
  | _ => False
  end.

(** The largest finite float. *)
Definition SF_max : spec_float := S754_finite false 9007199254740991 971.

(** [x <= y] between two floats that are neither negative nor NaN. *)
Definition fle (x y : float) : Prop :=
  SF_plus (Prim2SF x) /\ SF_plus (Prim2SF y) /\ PrimFloat.leb x y = true.

(** [x <= y] between two strictly positive finite floats. *)
Definition ple (x y : float) : Prop :=
  SF_pos (Prim2SF x) /\ SF_pos (Prim2SF y) /\ PrimFloat.leb x y = true.

(** [x2] is twice the positive finite float [x]: the same mantissa, the
    next exponent. *)
Definition doubled (x x2 : float) : Prop :=
  exists (m : positive) (e : Z),
    Prim2SF x = S754_finite false m e /\
    Prim2SF x2 = S754_finite false m (e + 1).

(** ... and [x] is at least [2 ^ k]. *)
Definition doubled_above (k : Z) (x x2 : float) : Prop :=
  doubled x x2 /\ pow2 k <= fval x.

(** ** The function on floats *)

(** The body on floats, in closed form, when no divisor is zero. *)
Definition required_float (d p : float) (s : settings float) : required float :=
  let adjusted_daily_usage :=
    PrimFloat.mul d (PrimFloat.add 1%float (system_losses s)) in
  let adjusted_peak_demand :=
    PrimFloat.mul p (PrimFloat.add 1%float (system_losses s)) in
  {| required_battery_capacity :=
       PrimFloat.mul
         (PrimFloat.div
            (PrimFloat.div
               (PrimFloat.mul adjusted_daily_usage (backup_hours s))
               24%float)
            (battery_dod s))
         (safety_factor s);
     required_solar_capacity :=
       PrimFloat.mul
         (PrimFloat.div adjusted_daily_usage (solar_peak_hours s))
         (safety_factor s);
     required_inverter_size :=
       PrimFloat.mul adjusted_peak_demand (safety_factor s) |}.

Definition rounded_float (r : required float) : sizes float :=
  {| battery_capacity_kwh := float_round1 (required_battery_capacity r);
     solar_capacity_kw := float_round1 (required_solar_capacity r);
     inverter_size_kw := float_round1 (required_inverter_size r) |}.

(** Pointwise order on float arguments, as [grows] on rationals: every
    parameter the sizes grow with is no smaller, every parameter they
    shrink with is no larger. *)
Definition grows_float
    (d p : float) (s : settings float) (d' p' : float) (s' : settings float)
  : bool :=
  PrimFloat.leb d d' && PrimFloat.leb p p' &&
  PrimFloat.leb (backup_hours s) (backup_hours s') &&
  PrimFloat.leb (system_losses s) (system_losses s') &&
  PrimFloat.leb (safety_factor s) (safety_factor s') &&
  PrimFloat.leb (solar_peak_hours s') (solar_peak_hours s) &&
  PrimFloat.leb (battery_dod s') (battery_dod s).

(** The slider positions that give the largest sizes, as floats. *)
Definition heaviest_settings_float : settings float :=
  {| backup_hours := 72%float;
     solar_peak_hours := 3%float;
     battery_dod := 0.5%float;
     system_losses := 0.3%float;
     safety_factor := 1.5%float |}.

(** [z2] is within one tenth of twice [z]: both are read from a number of
    tenths, and the two numbers differ from a doubling by at most one. *)
Definition twice_within_a_tenth (z z2 : float) : Prop :=
  exists n n2 : Z,
    z = tenths_to_float false n /\ z2 = tenths_to_float false n2 /\
    (-1 <= n2 - 2 * n <= 1)%Z.

(** [z] is what [round(x, 1)] gives for a float [x] that is neither
    negative nor NaN: [z] is not negative; it is plus infinity if [x] is;
    and otherwise it is a finite float, read from [n] tenths, where [n] is
    the integer nearest to ten times [x] (the even one at a tie), and no
    finite float is nearer to [n / 10] than [z]. *)
Definition rounded_to_tenth (x z : float) : Prop :=
  PrimFloat.leb 0%float z = true /\
  (PrimFloat.is_finite x = false -> z = infinity) /\
  (PrimFloat.is_finite x = true ->
   PrimFloat.is_finite z = true /\
   exists n : Z,
     nearest_even (fval x * 10) n /\ z = tenths_to_float false n /\
     forall f : float,
       PrimFloat.is_finite f = true ->
       Qabs (fval z - (n # 10)) <= Qabs (fval f - (n # 10))).

(** Closed goals about concrete runs are settled by evaluation. *)
Ltac by_evaluation := vm_compute; reflexivity.

(** * Rounding to the nearest integer, ties to even *)

Lemma round_half_even_spec (x : Q) : nearest_even x (round_half_even x).
Proof.
  destruct x as [a b]. unfold round_half_even, nearest_even. cbn [Qnum Qden].
  pose proof (Z.div_mod a (Zpos b) ltac:(lia)) as Hdm.
  pose proof (Z.mod_pos_bound a (Zpos b) ltac:(lia)) as Hr.
  set (f := (a / Zpos b)%Z) in *. set (r := (a mod Zpos b)%Z) in *.
  destruct (Z.ltb_spec (r * 2) (Zpos b)) as [Hlt | Hge].
  - left. unfold Qlt, Qplus, Qminus, Qopp, inject_Z; cbn.
    rewrite ?Pos2Z.inj_mul. split; nia.
  - destruct (Z.ltb_spec (Zpos b) (r * 2)) as [Hgt | Hle].
    + left. unfold Qlt, Qplus, Qminus, Qopp, inject_Z; cbn.
      rewrite ?Pos2Z.inj_mul. split; nia.
    + assert (Htie : (r * 2 = Zpos b)%Z) by lia.
      right. destruct (Z.even f) eqn:Hev.
      * split; [right | exact Hev].
        unfold Qeq, Qplus, inject_Z; cbn. rewrite ?Pos2Z.inj_mul. nia.
      * split; [left | ].
        -- unfold Qeq, Qplus, Qminus, Qopp, inject_Z; cbn.
           rewrite ?Pos2Z.inj_mul. nia.
        -- rewrite Z.even_add, Hev. reflexivity.
Qed.

Lemma inject_Z_diff_lt_1 (n m : Z) :
  inject_Z n - inject_Z m < 1 -> (n <= m)%Z.
Proof.
  intros Hlt. assert (Hq : inject_Z n < inject_Z (m + 1)).
  { rewrite inject_Z_plus. change (inject_Z 1) with 1. lra. }
  rewrite <- Zlt_Qlt in Hq. lia.
Qed.

Lemma inject_Z_succ_even (n m : Z) :
  inject_Z m == inject_Z n + 1 ->
  Z.even n = true -> Z.even m = true -> False.
Proof.
  intros Heq Hn Hm.
  assert (Hz : m = (n + 1)%Z).
  { apply inject_Z_injective. rewrite inject_Z_plus. exact Heq. }
  subst m. rewrite Z.even_add, Hn in Hm. discriminate.
Qed.

Lemma nearest_even_le (x y : Q) (n m : Z) :
  x == y -> nearest_even x n -> nearest_even y m -> (n <= m)%Z.
Proof.
  intros Hxy Hn Hm. unfold nearest_even in *.
  destruct Hn as [[Hn1 Hn2] | [[Hn | Hn] Hne]];
    destruct Hm as [[Hm1 Hm2] | [[Hm | Hm] Hme]];
    try (apply inject_Z_diff_lt_1; lra).
  exfalso. apply (inject_Z_succ_even m n); [lra | assumption | assumption].
Qed.

Lemma nearest_even_unique (x y : Q) (n m : Z) :
  x == y -> nearest_even x n -> nearest_even y m -> n = m.
Proof.
  intros Hxy Hn Hm. apply Z.le_antisymm.
  - exact (nearest_even_le x y n m Hxy Hn Hm).
  - apply (nearest_even_le y x m n); [symmetry; exact Hxy | exact Hm | exact Hn].
Qed.

Lemma round_half_even_comp (x y : Q) :
  x == y -> round_half_even x = round_half_even y.
Proof.
  intros Hxy. apply (nearest_even_unique x y); auto using round_half_even_spec.
Qed.

Lemma round_half_even_bounds (x : Q) :
  inject_Z (round_half_even x) - (1 # 2) <= x <=
  inject_Z (round_half_even x) + (1 # 2).
Proof.
  destruct (round_half_even_spec x) as [[H1 H2] | [[H | H] _]]; lra.
Qed.

Lemma round_half_even_mono (x y : Q) :
  x <= y -> (round_half_even x <= round_half_even y)%Z.
Proof.
  intros Hxy.
  destruct (Z.le_gt_cases (round_half_even x) (round_half_even y)) as [Hle | Hgt];
    [exact Hle | ].
  pose proof (round_half_even_bounds x) as [Hx1 _].
  pose proof (round_half_even_bounds y) as [_ Hy2].
  assert (Hq : inject_Z (round_half_even y) + 1 <= inject_Z (round_half_even x)).
  { change 1 with (inject_Z 1). rewrite <- inject_Z_plus, <- Zle_Qle. lia. }
  assert (Heq : x == y) by lra.
  rewrite (round_half_even_comp x y Heq). lia.
Qed.

(** At a tie [k + 1/2] the result is the even one of [k] and [k + 1]. *)
Lemma round_half_even_tie (k : Z) :
  round_half_even (inject_Z k + (1 # 2)) = if Z.even k then k else (k + 1)%Z.
Proof.
  apply (nearest_even_unique (inject_Z k + (1 # 2)) (inject_Z k + (1 # 2)));
    [reflexivity | apply round_half_even_spec | ].
  unfold nearest_even. right. destruct (Z.even k) eqn:Hev.
  - split; [right; reflexivity | exact Hev].
  - split.
    + left. rewrite inject_Z_plus. change (inject_Z 1) with 1. lra.
    + rewrite Z.even_add, Hev. reflexivity.
Qed.

Lemma round_half_even_integer (k : Z) : round_half_even (inject_Z k) = k.
Proof.
  apply (nearest_even_unique (inject_Z k) (inject_Z k));
    [reflexivity | apply round_half_even_spec | ].
  left. lra.
Qed.

(** * [round(x, 1)] on exact rationals *)

Lemma Q_round1_value (x : Q) :
  Q_round1 x == inject_Z (round_half_even (x * 10)) * (1 # 10).
Proof.
  unfold Q_round1. rewrite Qred_correct.
  unfold Qeq, Qmult, inject_Z; cbn. lia.
Qed.

Lemma Q_round1_comp (x y : Q) : x == y -> Q_round1 x = Q_round1 y.
Proof.
  intros Hxy. unfold Q_round1.
  rewrite (round_half_even_comp (x * 10) (y * 10)); [reflexivity | ].
  rewrite Hxy. reflexivity.
Qed.

Lemma Q_round1_mono (x y : Q) : x <= y -> Q_round1 x <= Q_round1 y.
Proof.
  intros Hxy. rewrite !Q_round1_value.
  assert (Hz : (round_half_even (x * 10) <= round_half_even (y * 10))%Z).
  { apply round_half_even_mono. lra. }
  rewrite Zle_Qle in Hz. lra.
Qed.

Lemma Q_round1_near (x : Q) : Qabs (Q_round1 x - x) <= 1 # 20.
Proof.
  apply Qabs_Qle_condition. rewrite Q_round1_value.
  pose proof (round_half_even_bounds (x * 10)) as [H1 H2]. lra.
Qed.

Lemma Q_round1_nonneg (x : Q) : 0 <= x -> 0 <= Q_round1 x.
Proof.
  intros Hx. rewrite Q_round1_value.
  assert (Hz : (round_half_even 0 <= round_half_even (x * 10))%Z).
  { apply round_half_even_mono. lra. }
  change 0 with (inject_Z 0) in Hz at 1.
  rewrite round_half_even_integer, Zle_Qle in Hz.
  change (inject_Z 0) with 0 in Hz. lra.
Qed.

(** * The function in closed form *)

Lemma required_for_Q (d p : Q) (s : settings Q) :
  required_for d p s =
  if Qeq_bool (battery_dod s) 0 then Raise ZeroDivisionError
  else if Qeq_bool (solar_peak_hours s) 0 then Raise ZeroDivisionError
  else Ok (required_Q d p s).
Proof.
  unfold required_for, required_sizes, truediv. cbn.
  destruct (Qeq_bool (battery_dod s) 0); [reflexivity | ].
  destruct (Qeq_bool (solar_peak_hours s) 0); reflexivity.
Qed.

Lemma compute_Q (d p : Q) (s : settings Q) :
  compute d p s =
  if Qeq_bool (battery_dod s) 0 then Raise ZeroDivisionError
  else if Qeq_bool (solar_peak_hours s) 0 then Raise ZeroDivisionError
  else Ok (rounded (required_Q d p s)).
Proof.
  unfold compute, calculate_microgrid_size.
  change (required_sizes d p (backup_hours s) (solar_peak_hours s)
            (battery_dod s) (system_losses s) (safety_factor s))
    with (required_for d p s).
  rewrite required_for_Q.
  destruct (Qeq_bool (battery_dod s) 0); [reflexivity | ].
  destruct (Qeq_bool (solar_peak_hours s) 0); reflexivity.
Qed.

Lemma Qeq_bool_false_of_neq (x : Q) : ~ x == 0 -> Qeq_bool x 0 = false.
Proof.
  intros Hx. destruct (Qeq_bool x 0) eqn:E; [ | reflexivity].
  apply Qeq_bool_eq in E. contradiction.
Qed.

Lemma compute_Q_ok (d p : Q) (s : settings Q) :
  ~ battery_dod s == 0 -> ~ solar_peak_hours s == 0 ->
  compute d p s = Ok (rounded (required_Q d p s)).
Proof.
  intros Hd Hs. rewrite compute_Q.
  rewrite (Qeq_bool_false_of_neq _ Hd), (Qeq_bool_false_of_neq _ Hs).
  reflexivity.
Qed.

Lemma required_for_Q_ok (d p : Q) (s : settings Q) :
  ~ battery_dod s == 0 -> ~ solar_peak_hours s == 0 ->
  required_for d p s = Ok (required_Q d p s).
Proof.
  intros Hd Hs. rewrite required_for_Q.
  rewrite (Qeq_bool_false_of_neq _ Hd), (Qeq_bool_false_of_neq _ Hs).
  reflexivity.
Qed.

Lemma valid_divisors (d p : Q) (s : settings Q) :
  valid d p s -> ~ battery_dod s == 0 /\ ~ solar_peak_hours s == 0.
Proof.
  intros (_ & _ & _ & Hs & Hd & _). split; lra.
Qed.

Lemma valid_default_100 : valid 100 15 default_settings.
Proof.
  unfold valid, in_domain; cbn. repeat split; lra.
Qed.

(** On floats the literals [24] and [1] are exact and [24] is not zero, so
    only the two argument divisors are tested. *)
Lemma compute_float (d p : float) (s : settings float) :
  compute d p s =
  if PrimFloat.eqb (battery_dod s) 0%float then Raise ZeroDivisionError
  else if PrimFloat.eqb (solar_peak_hours s) 0%float
       then Raise ZeroDivisionError
  else
    let adjusted_daily_usage :=
      PrimFloat.mul d (PrimFloat.add 1%float (system_losses s)) in
    let adjusted_peak_demand :=
      PrimFloat.mul p (PrimFloat.add 1%float (system_losses s)) in
    Ok {| battery_capacity_kwh :=
            float_round1
              (PrimFloat.mul
                 (PrimFloat.div
                    (PrimFloat.div
                       (PrimFloat.mul adjusted_daily_usage (backup_hours s))
                       24%float)
                    (battery_dod s))
                 (safety_factor s));
          solar_capacity_kw :=
            float_round1
              (PrimFloat.mul
                 (PrimFloat.div adjusted_daily_usage (solar_peak_hours s))
                 (safety_factor s));
          inverter_size_kw :=
            float_round1 (PrimFloat.mul adjusted_peak_demand (safety_factor s))
       |}.
Proof.
  cbv beta iota zeta delta
    [compute calculate_microgrid_size required_sizes truediv
     is_zero of_int add mul quotient round1 Number_float].
  change (float_of_int 24) with 24%float.
  change (float_of_int 1) with 1%float.
  change (PrimFloat.eqb 24 0)%float with false.
  cbv beta iota delta [bind].
  destruct (PrimFloat.eqb (battery_dod s) 0); [reflexivity | ].
  destruct (PrimFloat.eqb (solar_peak_hours s) 0); reflexivity.
Qed.

(** A float that is at least a strictly positive one is not zero. *)
Lemma float_pos_nonzero (lo x : float) :
  PrimFloat.ltb 0%float lo = true -> PrimFloat.leb lo x = true ->
  PrimFloat.eqb x 0%float = false.
Proof.
  rewrite ltb_spec, leb_spec, FloatAxioms.eqb_spec.
  change (Prim2SF 0%float) with (S754_zero false).
  destruct (Prim2SF lo) as [sl | sl | | sl ml el];
    destruct (Prim2SF x) as [sx | sx | | sx mx ex];
    try destruct sl; try destruct sx; cbn; try congruence.
Qed.

(** * Order lemmas for the formulas *)

Lemma Qdiv_nonneg (a b : Q) : 0 <= a -> 0 < b -> 0 <= a / b.
Proof.
  intros Ha Hb. apply Qle_shift_div_l; [exact Hb | lra].
Qed.

Lemma Qdiv_le_compat (a a' b b' : Q) :
  0 <= a <= a' -> 0 < b' <= b -> a / b <= a' / b'.
Proof.
  intros [Ha Haa] [Hb Hbb].
  assert (Hb0 : 0 < b) by lra.
  apply Qle_shift_div_r; [exact Hb0 | ].
  assert (Hq : 0 <= a' / b') by (apply Qdiv_nonneg; lra).
  assert (Hfield : a' / b' * b' == a') by (field; lra).
  nra.
Qed.

Lemma Qdiv_24_le (a a' : Q) : a <= a' -> a / 24 <= a' / 24.
Proof.
  intros Ha. apply Qle_shift_div_r; [lra | ].
  assert (Hfield : a' / 24 * 24 == a') by (field; lra). lra.
Qed.

Lemma required_Q_mono (d p : Q) (s : settings Q) (d' p' : Q) (s' : settings Q) :
  valid d p s -> valid d' p' s' -> grows d p s d' p' s' ->
  required_battery_capacity (required_Q d p s) <=
    required_battery_capacity (required_Q d' p' s') /\
  required_solar_capacity (required_Q d p s) <=
    required_solar_capacity (required_Q d' p' s') /\
  required_inverter_size (required_Q d p s) <=
    required_inverter_size (required_Q d' p' s').
Proof.
  intros (Hd & Hp & Hb & Hs & Hdod & Hl & Hsf)
         (Hd' & Hp' & Hb' & Hs' & Hdod' & Hl' & Hsf')
         (Gd & Gp & Gb & Gl & Gsf & Gs & Gdod).
  cbn [required_Q required_battery_capacity required_solar_capacity
       required_inverter_size].
  assert (Hadj : 0 <= d * (1 + system_losses s) <= d' * (1 + system_losses s')).
  { split; [nra | ]. apply Qmult_le_compat_nonneg; split; lra. }
  assert (Hadjp : 0 <= p * (1 + system_losses s) <= p' * (1 + system_losses s')).
  { split; [nra | ]. apply Qmult_le_compat_nonneg; split; lra. }
  assert (Hen : 0 <= d * (1 + system_losses s) * backup_hours s <=
                d' * (1 + system_losses s') * backup_hours s').
  { split; [apply Qmult_le_0_compat; lra | ].
    apply Qmult_le_compat_nonneg; split; lra. }
  split; [ | split].
  - apply Qmult_le_compat_nonneg; [ | split; lra].
    split.
    + apply Qdiv_nonneg; [ | lra]. apply Qdiv_nonneg; lra.
    + apply Qdiv_le_compat; [ | split; lra].
      split; [apply Qdiv_nonneg; lra | apply Qdiv_24_le; lra].
  - apply Qmult_le_compat_nonneg; [ | split; lra].
    split; [apply Qdiv_nonneg; lra | ].
    apply Qdiv_le_compat; [exact Hadj | split; lra].
  - apply Qmult_le_compat_nonneg; [exact Hadjp | split; lra].
Qed.

Lemma required_Q_nonneg (d p : Q) (s : settings Q) :
  valid d p s ->
  0 <= required_battery_capacity (required_Q d p s) /\
  0 <= required_solar_capacity (required_Q d p s) /\
  0 <= required_inverter_size (required_Q d p s).
Proof.
  intros (Hd & Hp & Hb & Hs & Hdod & Hl & Hsf). cbn. repeat split.
  - apply Qmult_le_0_compat; [ | lra].
    apply Qdiv_nonneg; [ | lra]. apply Qdiv_nonneg; [ | lra].
    apply Qmult_le_0_compat; [ | lra]. apply Qmult_le_0_compat; lra.
  - apply Qmult_le_0_compat; [ | lra].
    apply Qdiv_nonneg; [ | lra]. apply Qmult_le_0_compat; lra.
  - apply Qmult_le_0_compat; [ | lra]. apply Qmult_le_0_compat; lra.
Qed.

(** Twice a value rounds to within one tenth of twice its rounding. *)
Lemma Q_round1_double (x y : Q) :
  y == 2 * x -> Qabs (Q_round1 y - 2 * Q_round1 x) <= 1 # 10.
Proof.
  intros Hy. apply Qabs_Qle_condition. rewrite !Q_round1_value.
  pose proof (round_half_even_bounds (y * 10)) as [Hy1 Hy2].
  pose proof (round_half_even_bounds (x * 10)) as [Hx1 Hx2].
  set (n := round_half_even (y * 10)) in *.
  set (m := round_half_even (x * 10)) in *.
  assert (H1 : (n - 2 * m <= 1)%Z).
  { assert (Hq : inject_Z (n - 2 * m) < inject_Z 2).
    { unfold Z.sub. rewrite inject_Z_plus, inject_Z_opp, inject_Z_mult.
      change (inject_Z 2) with 2. lra. }
    rewrite <- Zlt_Qlt in Hq. lia. }
  assert (H2 : (-1 <= n - 2 * m)%Z).
  { assert (Hq : inject_Z (-2) < inject_Z (n - 2 * m)).
    { unfold Z.sub. rewrite inject_Z_plus, inject_Z_opp, inject_Z_mult.
      change (inject_Z 2) with 2. change (inject_Z (-2)) with (-2). lra. }
    rewrite <- Zlt_Qlt in Hq. lia. }
  rewrite Zle_Qle in H1, H2.
  unfold Z.sub in H1, H2.
  rewrite inject_Z_plus, inject_Z_opp, inject_Z_mult in H1, H2.
  change (inject_Z 2) with 2 in *. change (inject_Z 1) with 1 in *.
  change (inject_Z (-1)) with (-1) in *. lra.
Qed.

Lemma Q_round1_tenths (x : Q) : exists n : Z, Q_round1 x == n # 10.
Proof.
  exists (round_half_even (x * 10)). unfold Q_round1. apply Qred_correct.
Qed.

Lemma Q_round1_tie (k : Z) :
  Q_round1 ((2 * k + 1) # 20) = Qred ((if Z.even k then k else k + 1)%Z # 10).
Proof.
  unfold Q_round1.
  rewrite (round_half_even_comp (((2 * k + 1) # 20) * 10)
             (inject_Z k + (1 # 2))).
  - rewrite round_half_even_tie. reflexivity.
  - unfold Qeq, Qmult, Qplus, inject_Z; cbn [Qnum Qden].
    rewrite ?Pos2Z.inj_mul. lia.
Qed.

(** * Ranges and signs of floats *)

Lemma in_range_lower (lo hi x : float) :
  in_range lo hi x = true -> PrimFloat.leb lo x = true.
Proof.
  unfold in_range. intros H. apply andb_prop in H. tauto.
Qed.

(** ** Signs of binary64 operations

    The operations are specified on [spec_float]; the lemmas below follow a
    sign through multiplication, division, addition and the conversions,
    without evaluating mantissas. *)

Lemma is_finite_SF (x : float) :
  PrimFloat.is_finite x = true -> SF_is_finite (Prim2SF x).
Proof.
  unfold PrimFloat.is_finite, PrimFloat.is_nan, PrimFloat.is_infinity.
  rewrite !FloatAxioms.eqb_spec, abs_spec.
  change (Prim2SF infinity) with (S754_infinity false).
  destruct (Prim2SF x) as [s | s | | s m e]; cbn; try tauto.
  - destruct s; cbn; discriminate.
  - discriminate.
Qed.

Lemma nonzero_finite_SF (x : float) :
  PrimFloat.is_finite x = true -> PrimFloat.eqb x 0%float = false ->
  SF_divides (Prim2SF x).
Proof.
  intros Hf Hz. apply is_finite_SF in Hf.
  rewrite FloatAxioms.eqb_spec in Hz.
  change (Prim2SF 0%float) with (S754_zero false) in Hz.
  destruct (Prim2SF x) as [s | s | | s m e]; cbn in *; try tauto.
  destruct s; discriminate.
Qed.

Lemma SFmul_zero_l (x y : spec_float) :
  SF_is_zero x -> SF_is_finite y -> SF_is_zero (SF64mul x y).
Proof.
  destruct x; cbn; try tauto. destruct y; cbn; tauto.
Qed.

Lemma SFdiv_zero_l (x y : spec_float) :
  SF_is_zero x -> SF_divides y -> SF_is_zero (SF64div x y).
Proof.
  destruct x; cbn; try tauto. destruct y; cbn; tauto.
Qed.

Lemma float_round1_zero (x : float) :
  SF_is_zero (Prim2SF x) ->
  PrimFloat.eqb (float_round1 x) 0%float = true.
Proof.
  intros Hx. unfold float_round1.
  destruct (Prim2SF x) as [s | s | | s m e] eqn:E; cbn in Hx; try tauto.
  rewrite FloatAxioms.eqb_spec, E. destruct s; reflexivity.
Qed.

Lemma shr_1_nonneg (mrs : shr_record) :
  (0 <= shr_m mrs)%Z -> (0 <= shr_m (shr_1 mrs))%Z.
Proof.
  destruct mrs as [m r s]. cbn [shr_m].
  destruct m as [ | [p | p | ] | p]; cbn; lia.
Qed.

Lemma iter_pos_shr_1_nonneg (p : positive) (mrs : shr_record) :
  (0 <= shr_m mrs)%Z -> (0 <= shr_m (iter_pos shr_1 p mrs))%Z.
Proof.
  revert mrs. induction p as [p IH | p IH | ]; intros mrs H; cbn.
  - apply IH, IH, shr_1_nonneg, H.
  - apply IH, IH, H.
  - apply shr_1_nonneg, H.
Qed.

Lemma shr_fexp_nonneg (m e : Z) (l : location) :
  (0 <= m)%Z -> (0 <= shr_m (fst (shr_fexp prec emax m e l)))%Z.
Proof.
  intros Hm. unfold shr_fexp, shr.
  assert (H0 : (0 <= shr_m (shr_record_of_loc m l))%Z).
  { destruct l as [ | [ | | ]]; cbn; exact Hm. }
  destruct (fexp prec emax (Zdigits2 m + e) - e)%Z; cbn [fst];
    [exact H0 | apply iter_pos_shr_1_nonneg; exact H0 | exact H0].
Qed.

Lemma round_nearest_even_nonneg (m : Z) (l : location) :
  (0 <= m)%Z -> (0 <= round_nearest_even m l)%Z.
Proof.
  intros Hm. destruct l as [ | [ | | ]]; cbn; try lia.
  destruct (Z.even m); lia.
Qed.

(** Rounding a non-negative mantissa with the plus sign gives a zero, a
    positive number or plus infinity, never NaN. *)
Lemma binary_round_aux_nonneg (m e : Z) (l : location) :
  (0 <= m)%Z -> SF_nonneg (binary_round_aux prec emax false m e l).
Proof.
  intros Hm. unfold binary_round_aux.
  pose proof (shr_fexp_nonneg m e l Hm) as H1.
  destruct (shr_fexp prec emax m e l) as [mrs' e']. cbn [fst] in H1.
  pose proof (shr_fexp_nonneg
                (round_nearest_even (shr_m mrs') (loc_of_shr_record mrs'))
                e' loc_Exact
                (round_nearest_even_nonneg _ _ H1)) as H2.
  destruct (shr_fexp prec emax
              (round_nearest_even (shr_m mrs') (loc_of_shr_record mrs'))
              e' loc_Exact) as [mrs'' e''].
  cbn [fst] in H2.
  destruct (shr_m mrs'') as [ | q | q]; cbn.
  - exact I.
  - destruct (_ <=? _)%Z; exact I.
  - lia.
Qed.

Lemma binary_round_nonneg (m : positive) (e : Z) :
  SF_nonneg (binary_round prec emax false m e).
Proof.
  unfold binary_round.
  destruct (shl_align m e (fexp prec emax (Z.pos (digits2_pos m) + e)))
    as [mz ez].
  apply binary_round_aux_nonneg. lia.
Qed.

Lemma SFmul_nonneg (x y : spec_float) :
  SF_nonneg x -> SF_pos y -> SF_nonneg (SF64mul x y).
Proof.
  destruct y as [sy | sy | | [ | ] my ey]; cbn; try tauto. intros Hx _.
  destruct x as [sx | [ | ] | | [ | ] mx ex]; cbn in *; try tauto.
  apply binary_round_aux_nonneg. lia.
Qed.

Lemma SFmul_pos_nonneg (x y : spec_float) :
  SF_pos x -> SF_nonneg y -> SF_nonneg (SF64mul x y).
Proof.
  destruct x as [sx | sx | | [ | ] mx ex]; cbn; try tauto. intros _ Hy.
  destruct y as [sy | [ | ] | | [ | ] my ey]; cbn in *; try tauto.
  apply binary_round_aux_nonneg. lia.
Qed.

Lemma SFdiv_nonneg (x y : spec_float) :
  SF_nonneg x -> SF_pos y -> SF_nonneg (SF64div x y).
Proof.
  destruct y as [sy | sy | | [ | ] my ey]; cbn; try tauto. intros Hx _.
  destruct x as [sx | [ | ] | | [ | ] mx ex]; cbn in *; try tauto.
  unfold SF64div, SFdiv. cbn [xorb].
  destruct (SFdiv_core_binary prec emax (Z.pos mx) ex (Z.pos my) ey)
    as [[mz ez] lz] eqn:E.
  apply binary_round_aux_nonneg.
  unfold SFdiv_core_binary in E.
  set (m' := match (ex - ey - _)%Z with
             | 0%Z => Z.pos mx | Z.pos _ => _ | Z.neg _ => 0%Z end) in E.
  assert (Hm' : (0 <= m')%Z).
  { subst m'. destruct (ex - ey - _)%Z; try lia.
    apply Z.shiftl_nonneg. lia. }
  pose proof (Z.div_eucl_eq m' (Z.pos my) ltac:(lia)) as Heq.
  pose proof (Z.mod_pos_bound m' (Z.pos my) ltac:(lia)) as Hmod.
  unfold Z.modulo in Hmod.
  change IntDef.Z.div_eucl with Z.div_eucl in E.
  destruct (Z.div_eucl m' (Z.pos my)) as [q r].
  injection E as <- _ _. nia.
Qed.

Lemma SFadd_pos (x y : spec_float) :
  SF_pos x -> SF_pos y -> SF_nonneg (SF64add x y).
Proof.
  destruct x as [sx | sx | | [ | ] mx ex]; cbn; try tauto.
  destruct y as [sy | sy | | [ | ] my ey]; cbn; try tauto. intros _ _.
  apply binary_round_nonneg.
Qed.

Lemma SFldexp_nonneg (x : spec_float) (k : Z) :
  SF_nonneg x -> SF_nonneg (SFldexp prec emax x k).
Proof.
  destruct x as [s | [ | ] | | [ | ] m e]; cbn; try tauto. intros _.
  apply binary_round_nonneg.
Qed.

Lemma Prim2SF_of_uint63_nonneg (n : PrimInt63.int) :
  SF_nonneg (Prim2SF (of_uint63 n)).
Proof.
  rewrite of_uint63_spec.
  pose proof (Uint63.to_Z_bounded n) as [H _].
  destruct (Uint63.to_Z n) as [ | q | q]; cbn.
  - exact I.
  - apply binary_round_nonneg.
  - lia.
Qed.

Lemma Prim2SF_SF2Prim_nonneg (y : spec_float) :
  SF_nonneg y -> SF_nonneg (Prim2SF (SF2Prim y)).
Proof.
  destruct y as [[ | ] | [ | ] | | [ | ] m e]; cbn [SF_nonneg]; try tauto;
    intros _; try exact I.
  cbn [SF2Prim]. unfold Z.ldexp. rewrite ldshiftexp_spec.
  apply SFldexp_nonneg, Prim2SF_of_uint63_nonneg.
Qed.

Lemma float_round1_nonneg (x : float) :
  SF_nonneg (Prim2SF x) -> SF_nonneg (Prim2SF (float_round1 x)).
Proof.
  intros Hx. unfold float_round1.
  destruct (Prim2SF x) as [s | s | | s m e] eqn:E;
    try (rewrite E; exact Hx).
  destruct s; [contradiction | ].
  unfold tenths_to_float.
  destruct (round_half_even _) as [ | q | q]; try exact I.
  apply Prim2SF_SF2Prim_nonneg.
  apply (SFdiv_nonneg (S754_finite false q 0) (S754_finite false 10 0));
    exact I.
Qed.

Lemma leb_0_of_nonneg (x : float) :
  SF_nonneg (Prim2SF x) -> PrimFloat.leb 0%float x = true.
Proof.
  rewrite leb_spec. change (Prim2SF 0%float) with (S754_zero false).
  destruct (Prim2SF x) as [s | [ | ] | | [ | ] m e]; cbn; tauto.
Qed.

Lemma pos_of_range (lo hi x : float) :
  PrimFloat.ltb 0%float lo = true -> PrimFloat.ltb hi infinity = true ->
  in_range lo hi x = true -> SF_pos (Prim2SF x).
Proof.
  unfold in_range. rewrite !ltb_spec, !leb_spec.
  change (Prim2SF 0%float) with (S754_zero false).
  change (Prim2SF infinity) with (S754_infinity false).
  intros Hlo Hhi H. apply andb_prop in H. destruct H as [H1 H2].
  destruct (Prim2SF lo) as [sl | sl | | sl ml el];
    destruct (Prim2SF x) as [sx | sx | | sx mx ex];
    destruct (Prim2SF hi) as [sh | sh | | sh mh eh];
    try destruct sl; try destruct sx; try destruct sh;
    cbn in *; try congruence; exact I.
Qed.

Lemma pos_of_finite (x : float) :
  PrimFloat.ltb 0%float x = true -> PrimFloat.is_finite x = true ->
  SF_pos (Prim2SF x).
Proof.
  intros Hp Hf. apply is_finite_SF in Hf. rewrite ltb_spec in Hp.
  change (Prim2SF 0%float) with (S754_zero false) in Hp.
  destruct (Prim2SF x) as [s | s | | [ | ] m e]; cbn in *;
    try tauto; discriminate.
Qed.

(** * Binary64 arithmetic

    The kernel specifies each float operation by an algorithm of
    [SpecFloat] on mantissas and exponents.  This part shows what the
    algorithm computes: the exact result rounded to nearest, ties to even
    ([rounds_to]), a rounding that is monotone, leaves floats unchanged,
    commutes with doubling away from overflow and from the subnormal
    range, and is nearest among all floats. *)

(** ** Powers of two *)

Lemma pow2_pos (e : Z) : 0 < pow2 e.
Proof. unfold pow2. apply Qpower_0_lt. reflexivity. Qed.

Lemma pow2_add (a b : Z) : pow2 (a + b) == pow2 a * pow2 b.
Proof. unfold pow2. apply Qpower_plus. discriminate. Qed.

Lemma pow2_0 : pow2 0 == 1.
Proof. reflexivity. Qed.

Lemma pow2_1 : pow2 1 == 2.
Proof. reflexivity. Qed.

Lemma pow2_succ (e : Z) : pow2 (e + 1) == 2 * pow2 e.
Proof. rewrite pow2_add, pow2_1. ring. Qed.

Lemma pow2_pred (e : Z) : pow2 (e - 1) == pow2 e * (1 # 2).
Proof.
  assert (H : pow2 e == 2 * pow2 (e - 1)).
  { rewrite <- pow2_succ. replace (e - 1 + 1)%Z with e by lia. reflexivity. }
  rewrite H. ring.
Qed.

Lemma pow2_le (a b : Z) : (a <= b)%Z -> pow2 a <= pow2 b.
Proof.
  intros Hab. replace b with (a + (b - a))%Z by lia.
  rewrite pow2_add.
  assert (H1 : 1 <= pow2 (b - a)).
  { unfold pow2. apply Qpower_1_le; [ | lia]. discriminate. }
  pose proof (pow2_pos a). nra.
Qed.

Lemma pow2_lt (a b : Z) : (a < b)%Z -> pow2 a < pow2 b.
Proof.
  intros Hab. apply Qlt_le_trans with (pow2 (a + 1)).
  - rewrite pow2_succ. pose proof (pow2_pos a). lra.
  - apply pow2_le. lia.
Qed.

Lemma pow2_lt_inv (a b : Z) : pow2 a < pow2 b -> (a < b)%Z.
Proof.
  intros H. destruct (Z.lt_ge_cases a b) as [Hlt | Hge]; [exact Hlt | ].
  apply pow2_le in Hge. lra.
Qed.

Lemma pow2_inject (e : Z) : (0 <= e)%Z -> pow2 e == inject_Z (2 ^ e).
Proof.
  intros He. unfold pow2.
  rewrite <- (Z2Nat.id e He) at 1.
  change 2 with (inject_Z 2).
  rewrite <- Zpower_Qpower by lia. rewrite Z2Nat.id by lia. reflexivity.
Qed.

(** ** Shifting a mantissa *)

Lemma fexp_eq (k : Z) : fexp prec emax k = Z.max (k - 53) (-1074).
Proof. reflexivity. Qed.

(** A mantissa of [d] digits lies between [2 ^ (d - 1)] and [2 ^ d]. *)
Lemma digits2_pos_bounds (p : positive) :
  (2 ^ (Zpos (digits2_pos p) - 1) <= Zpos p < 2 ^ Zpos (digits2_pos p))%Z.
Proof.
  induction p as [p IH | p IH | ]; cbn [digits2_pos].
  - rewrite Pos2Z.inj_succ.
    replace (Z.succ (Zpos (digits2_pos p)) - 1)%Z
      with (Zpos (digits2_pos p) - 1 + 1)%Z by lia.
    unfold Z.succ. rewrite !Z.pow_add_r by lia.
    change (2 ^ 1)%Z with 2%Z. lia.
  - rewrite Pos2Z.inj_succ.
    replace (Z.succ (Zpos (digits2_pos p)) - 1)%Z
      with (Zpos (digits2_pos p) - 1 + 1)%Z by lia.
    unfold Z.succ. rewrite !Z.pow_add_r by lia.
    change (2 ^ 1)%Z with 2%Z. lia.
  - cbn. lia.
Qed.

Lemma inbetween_bounds (m : Z) (l : location) (t : Q) :
  inbetween m l t -> inject_Z m <= t /\ t < inject_Z m + 1.
Proof.
  destruct l as [ | [ | | ]]; cbn; intros H; lra.
Qed.

Lemma shr_record_of_loc_represents (m : Z) (l : location) (t : Q) :
  (0 <= m)%Z -> inbetween m l t -> represents (shr_record_of_loc m l) t.
Proof.
  intros Hm H. split.
  - destruct l as [ | [ | | ]]; exact Hm.
  - destruct l as [ | [ | | ]]; exact H.
Qed.

Lemma inject_Z_double (p : positive) :
  inject_Z (Zpos p~0) == 2 * inject_Z (Zpos p).
Proof.
  change (Zpos p~0) with (2 * Zpos p)%Z. rewrite inject_Z_mult. reflexivity.
Qed.

Lemma inject_Z_double_1 (p : positive) :
  inject_Z (Zpos p~1) == 2 * inject_Z (Zpos p) + 1.
Proof.
  change (Zpos p~1) with (2 * Zpos p + 1)%Z.
  rewrite inject_Z_plus, inject_Z_mult. reflexivity.
Qed.

(** One shift halves the value a record stands for. *)
Lemma shr_1_represents (mrs : shr_record) (t : Q) :
  represents mrs t -> represents (shr_1 mrs) (t * (1 # 2)).
Proof.
  destruct mrs as [m r s]. unfold represents. cbn [shr_m].
  intros [Hm H].
  destruct m as [ | p | p]; [ | | lia].
  - destruct r, s; cbn [shr_1 orb shr_m loc_of_shr_record inbetween] in *;
      change (inject_Z 0) with 0 in *; (split; [lia | ]); try split; lra.
  - destruct p as [p | p | ].
    + pose proof (inject_Z_double_1 p) as E.
      destruct r, s; cbn [shr_1 orb shr_m loc_of_shr_record inbetween] in *;
        (split; [lia | ]); try split; lra.
    + pose proof (inject_Z_double p) as E.
      destruct r, s; cbn [shr_1 orb shr_m loc_of_shr_record inbetween] in *;
        (split; [lia | ]); try split; lra.
    + destruct r, s; cbn [shr_1 orb shr_m loc_of_shr_record inbetween] in *;
        change (inject_Z 0) with 0 in *; change (inject_Z 1) with 1 in *;
        (split; [lia | ]); try split; lra.
Qed.

Lemma iter_pos_shr_1_represents (p : positive) (mrs : shr_record) (t : Q) :
  represents mrs t ->
  represents (iter_pos shr_1 p mrs) (t * pow2 (- Zpos p)).
Proof.
  revert mrs t. induction p as [p IH | p IH | ]; intros mrs t H; cbn [iter_pos].
  - apply shr_1_represents in H. apply IH in H. apply IH in H.
    destruct H as [H1 H2]. split; [exact H1 | ].
    assert (E : t * pow2 (- Zpos p~1) ==
                t * (1 # 2) * pow2 (- Zpos p) * pow2 (- Zpos p)).
    { replace (- Zpos p~1)%Z with (-1 + (- Zpos p + - Zpos p))%Z by lia.
      rewrite !pow2_add. change (pow2 (-1)) with (1 # 2). ring. }
    destruct (loc_of_shr_record _) as [ | [ | | ]]; cbn in *; rewrite E; exact H2.
  - apply IH in H. apply IH in H.
    destruct H as [H1 H2]. split; [exact H1 | ].
    assert (E : t * pow2 (- Zpos p~0) == t * pow2 (- Zpos p) * pow2 (- Zpos p)).
    { replace (- Zpos p~0)%Z with (- Zpos p + - Zpos p)%Z by lia.
      rewrite !pow2_add. ring. }
    destruct (loc_of_shr_record _) as [ | [ | | ]]; cbn in *; rewrite E; exact H2.
  - apply shr_1_represents in H. exact H.
Qed.

Lemma represents_comp (mrs : shr_record) (t t' : Q) :
  t == t' -> represents mrs t -> represents mrs t'.
Proof.
  intros E [H1 H2]. split; [exact H1 | ].
  destruct (loc_of_shr_record _) as [ | [ | | ]]; cbn in *; rewrite <- E; exact H2.
Qed.

(** Shifting by [n] digits divides the represented value by [2 ^ n]. *)
Lemma shr_represents (mrs : shr_record) (e n : Z) (x : Q) :
  (0 <= n)%Z ->
  represents mrs (x * pow2 (- e)) ->
  represents (fst (shr mrs e n)) (x * pow2 (- (e + n))) /\
  snd (shr mrs e n) = (e + n)%Z.
Proof.
  intros Hn H. destruct n as [ | p | p]; [ | | lia]; cbn [shr fst snd].
  - rewrite Z.add_0_r. split; [exact H | reflexivity].
  - split; [ | reflexivity].
    apply (iter_pos_shr_1_represents p) in H.
    apply (represents_comp _ _ _) with (2 := H).
    replace (- (e + Zpos p))%Z with (- e + - Zpos p)%Z by lia.
    rewrite pow2_add. ring.
Qed.

(** Rounding a record is rounding the value it stands for. *)
Lemma round_nearest_even_spec (mrs : shr_record) (t : Q) :
  represents mrs t ->
  round_nearest_even (shr_m mrs) (loc_of_shr_record mrs) = round_half_even t.
Proof.
  intros [Hm H].
  apply (nearest_even_unique t t); [reflexivity | | apply round_half_even_spec].
  unfold nearest_even, round_nearest_even.
  destruct (loc_of_shr_record mrs) as [ | [ | | ]]; cbn in H.
  - left. lra.
  - right. destruct (Z.even (shr_m mrs)) eqn:Hev.
    + split; [right; exact H | exact Hev].
    + split.
      * left. rewrite inject_Z_plus. change (inject_Z 1) with 1. lra.
      * rewrite Z.even_add, Hev. reflexivity.
  - left. lra.
  - left. rewrite inject_Z_plus. change (inject_Z 1) with 1. lra.
Qed.

(** ** What [binary_round_aux] computes *)

Lemma pow2_neg_mul (e : Z) : pow2 (- e) * pow2 e == 1.
Proof. rewrite <- pow2_add. replace (- e + e)%Z with 0%Z by lia. reflexivity. Qed.

Lemma pow2_scale_le (x c : Q) (e : Z) : c <= x * pow2 (- e) -> c * pow2 e <= x.
Proof.
  intros H. pose proof (pow2_pos e) as Hp. pose proof (pow2_neg_mul e) as Hm.
  assert (E : x == x * pow2 (- e) * pow2 e).
  { rewrite <- Qmult_assoc, Hm. ring. }
  rewrite E. apply Qmult_le_compat_r; lra.
Qed.

Lemma pow2_scale_lt (x c : Q) (e : Z) : x * pow2 (- e) < c -> x < c * pow2 e.
Proof.
  intros H. pose proof (pow2_pos e) as Hp. pose proof (pow2_neg_mul e) as Hm.
  assert (E : x == x * pow2 (- e) * pow2 e).
  { rewrite <- Qmult_assoc, Hm. ring. }
  rewrite E. apply Qmult_lt_compat_r; lra.
Qed.

Lemma pow2_unscale_le (x c : Q) (e : Z) : c * pow2 e <= x -> c <= x * pow2 (- e).
Proof.
  intros H. pose proof (pow2_pos (- e)) as Hp. pose proof (pow2_neg_mul e) as Hm.
  assert (E : c == c * pow2 e * pow2 (- e)).
  { rewrite <- Qmult_assoc, (Qmult_comm (pow2 e)), Hm. ring. }
  rewrite E. apply Qmult_le_compat_r; lra.
Qed.

Lemma pow2_unscale_lt (x c : Q) (e : Z) : x < c * pow2 e -> x * pow2 (- e) < c.
Proof.
  intros H. pose proof (pow2_pos (- e)) as Hp. pose proof (pow2_neg_mul e) as Hm.
  assert (E : c == c * pow2 e * pow2 (- e)).
  { rewrite <- Qmult_assoc, (Qmult_comm (pow2 e)), Hm. ring. }
  rewrite E. apply Qmult_lt_compat_r; lra.
Qed.

Lemma Zdigits2_bounds (m : Z) :
  (0 < m)%Z -> (2 ^ (Zdigits2 m - 1) <= m < 2 ^ Zdigits2 m)%Z /\ (0 < Zdigits2 m)%Z.
Proof.
  destruct m as [ | p | p]; try lia. intros _. cbn [Zdigits2].
  split; [apply digits2_pos_bounds | lia].
Qed.

Lemma Zdigits2_le (m k : Z) : (0 < m < 2 ^ k)%Z -> (Zdigits2 m <= k)%Z.
Proof.
  intros [H0 Hk]. destruct (Zdigits2_bounds m H0) as [[Hlo _] Hd].
  destruct (Z.le_gt_cases (Zdigits2 m) k) as [H | H]; [exact H | exfalso].
  assert (Hk0 : (0 <= k)%Z).
  { destruct (Z.le_gt_cases 0 k); [assumption | ].
    rewrite Z.pow_neg_r in Hk by lia. lia. }
  assert (2 ^ k <= 2 ^ (Zdigits2 m - 1))%Z by (apply Z.pow_le_mono_r; lia).
  lia.
Qed.

Lemma Zdigits2_ge (m k : Z) : (0 < m)%Z -> (2 ^ (k - 1) <= m)%Z -> (k <= Zdigits2 m)%Z.
Proof.
  intros H0 Hk. destruct (Zdigits2_bounds m H0) as [[_ Hhi] Hd].
  destruct (Z.le_gt_cases k (Zdigits2 m)) as [H | H]; [exact H | exfalso].
  assert (2 ^ Zdigits2 m <= 2 ^ (k - 1))%Z by (apply Z.pow_le_mono_r; lia).
  lia.
Qed.

(** The binade of a value that starts with the integer [M > 0] at scale
    [2 ^ E]. *)
Lemma inbetween_binade (M E : Z) (l : location) (x : Q) :
  (0 < M)%Z -> inbetween M l (x * pow2 (- E)) ->
  pow2 (Zdigits2 M - 1 + E) <= x /\ x < pow2 (Zdigits2 M + E).
Proof.
  intros HM H. apply inbetween_bounds in H. destruct H as [Hlo Hhi].
  destruct (Zdigits2_bounds M HM) as [[Hd1 Hd2] Hd].
  rewrite !pow2_add. split.
  - apply Qle_trans with (inject_Z M * pow2 E).
    + apply Qmult_le_compat_r; [ | apply Qlt_le_weak, pow2_pos].
      rewrite pow2_inject by lia. rewrite <- Zle_Qle. exact Hd1.
    + apply pow2_scale_le. exact Hlo.
  - apply Qlt_le_trans with ((inject_Z M + 1) * pow2 E).
    + apply pow2_scale_lt. exact Hhi.
    + apply Qmult_le_compat_r; [ | apply Qlt_le_weak, pow2_pos].
      rewrite pow2_inject by lia. change 1 with (inject_Z 1).
      rewrite <- inject_Z_plus, <- Zle_Qle. lia.
Qed.

(** The exponent [binary_round_aux] shifts to is the one of the value. *)
Lemma cexp_of_inbetween (M E : Z) (l : location) (x : Q) :
  (0 <= M)%Z -> inbetween M l (x * pow2 (- E)) ->
  (E <= fexp prec emax (Zdigits2 M + E))%Z ->
  cexp_of x (fexp prec emax (Zdigits2 M + E)).
Proof.
  intros HM H. rewrite fexp_eq. intros HE.
  destruct (Z.eq_dec M 0) as [-> | Hne].
  - cbn [Zdigits2] in *. left. split; [lia | ].
    apply inbetween_bounds in H. destruct H as [_ Hhi].
    apply pow2_scale_lt in Hhi. change (inject_Z 0 + 1) with 1 in Hhi.
    assert (pow2 E <= pow2 (-1021)) by (apply pow2_le; lia). lra.
  - destruct (inbetween_binade M E l x ltac:(lia) H) as [Hlo Hhi].
    destruct (Z.le_gt_cases (Zdigits2 M + E - 53) (-1074)) as [Hsub | Hnorm].
    + left. split; [lia | ].
      assert (pow2 (Zdigits2 M + E) <= pow2 (-1021)) by (apply pow2_le; lia). lra.
    + right. rewrite Z.max_l by lia. split; [lia | ]. split.
      * replace (Zdigits2 M + E - 53 + 52)%Z with (Zdigits2 M - 1 + E)%Z by lia.
        exact Hlo.
      * replace (Zdigits2 M + E - 53 + 53)%Z with (Zdigits2 M + E)%Z by lia.
        exact Hhi.
Qed.

Lemma cexp_of_ge (x : Q) (e : Z) : cexp_of x e -> (-1074 <= e)%Z.
Proof. intros [[-> _] | [H _]]; lia. Qed.

Lemma cexp_of_lt (x : Q) (e : Z) : cexp_of x e -> x * pow2 (- e) < pow2 53.
Proof.
  intros H. apply pow2_unscale_lt. rewrite <- pow2_add.
  destruct H as [[-> H] | [_ [_ H]]].
  - exact H.
  - replace (53 + e)%Z with (e + 53)%Z by lia. exact H.
Qed.

Lemma cexp_of_normal (x : Q) (e : Z) :
  cexp_of x e -> (-1074 < e)%Z -> pow2 52 <= x * pow2 (- e).
Proof.
  intros [[-> _] | [_ [H _]]] He; [lia | ].
  apply pow2_unscale_le. rewrite <- pow2_add.
  replace (52 + e)%Z with (e + 52)%Z by lia. exact H.
Qed.

Lemma round_half_even_pow2 (k : Z) :
  (0 <= k)%Z -> round_half_even (pow2 k) = (2 ^ k)%Z.
Proof.
  intros Hk. rewrite (round_half_even_comp _ _ (pow2_inject k Hk)).
  apply round_half_even_integer.
Qed.

(** The mantissa of a rounded value has at most 53 digits, or is [2 ^ 53];
    in the normal range it has at least 53. *)
Lemma cexp_of_mantissa (x : Q) (e : Z) :
  0 <= x -> cexp_of x e ->
  (0 <= round_half_even (x * pow2 (- e)) <= 2 ^ 53)%Z /\
  ((-1074 < e)%Z -> (2 ^ 52 <= round_half_even (x * pow2 (- e)))%Z).
Proof.
  intros Hx He. split; [split | ].
  - rewrite <- (round_half_even_integer 0). apply round_half_even_mono.
    change (inject_Z 0) with 0. pose proof (pow2_pos (- e)). nra.
  - rewrite <- (round_half_even_pow2 53) by lia. apply round_half_even_mono.
    apply Qlt_le_weak, cexp_of_lt. exact He.
  - intros Hn. rewrite <- (round_half_even_pow2 52) by lia.
    apply round_half_even_mono. apply cexp_of_normal; assumption.
Qed.

Lemma shr_nonpos (mrs : shr_record) (e n : Z) :
  (n <= 0)%Z -> shr mrs e n = (mrs, e).
Proof. destruct n; [reflexivity | lia | reflexivity]. Qed.

(** What [binary_round_aux] computes at the exponent [e] once the mantissa
    [n] is known. *)
Lemma shr_fexp_mantissa (n e : Z) :
  (-1074 <= e)%Z -> (0 <= n <= 2 ^ 53)%Z ->
  ((-1074 < e)%Z -> (2 ^ 52 <= n)%Z) ->
  match shr_m (fst (shr_fexp prec emax n e loc_Exact)) with
  | Z0 => S754_zero false
  | Zpos m =>
      if (snd (shr_fexp prec emax n e loc_Exact) <=? emax - prec)%Z
      then S754_finite false m (snd (shr_fexp prec emax n e loc_Exact))
      else S754_infinity false
  | Zneg _ => S754_nan
  end = round_result n e.
Proof.
  intros He [Hn0 Hn] Hnorm. unfold shr_fexp. rewrite fexp_eq.
  destruct (Z.eq_dec n (2 ^ 53)) as [-> | Hne].
  - change (Zdigits2 (2 ^ 53)) with 54%Z.
    replace (Z.max (54 + e - 53) (-1074) - e)%Z with 1%Z by lia.
    cbn [shr iter_pos fst snd shr_record_of_loc]. reflexivity.
  - destruct (Z.eq_dec n 0) as [-> | Hn1].
    + rewrite shr_nonpos by (cbn [Zdigits2]; lia). reflexivity.
    + assert (Hd : (Zdigits2 n <= 53)%Z) by (apply Zdigits2_le; lia).
      assert (Hd' : (-1074 < e -> 53 <= Zdigits2 n)%Z).
      { intros H. apply Zdigits2_ge; [lia | ]. apply Hnorm. exact H. }
      rewrite shr_nonpos by lia.
      cbn [fst snd shr_record_of_loc shr_m].
      destruct n as [ | m | m]; [lia | | lia].
      unfold round_result.
      destruct (Z.eqb_spec (Zpos m) 9007199254740992) as [E | _]; [ | reflexivity].
      exfalso. apply Hne. rewrite E. reflexivity.
Qed.

(** [binary_round_aux] rounds the value it is given to nearest, ties to
    even. *)
Theorem binary_round_aux_spec (M E : Z) (l : location) (x : Q) :
  (0 <= M)%Z -> inbetween M l (x * pow2 (- E)) ->
  (E <= fexp prec emax (Zdigits2 M + E))%Z ->
  rounds_to x (binary_round_aux prec emax false M E l).
Proof.
  intros HM H HE.
  pose proof (cexp_of_inbetween M E l x HM H HE) as Hc.
  set (e := fexp prec emax (Zdigits2 M + E)) in *.
  exists e. split; [exact Hc | ].
  assert (Hx : 0 <= x).
  { apply inbetween_bounds in H. destruct H as [H _].
    apply pow2_scale_le in H.
    assert (0 <= inject_Z M) by (change 0 with (inject_Z 0); rewrite <- Zle_Qle; lia).
    pose proof (pow2_pos E). nra. }
  unfold binary_round_aux.
  destruct (shr_represents (shr_record_of_loc M l) E (e - E) x ltac:(lia)
              (shr_record_of_loc_represents M l _ HM H)) as [Hr He].
  change (shr (shr_record_of_loc M l) E (e - E))
    with (shr_fexp prec emax M E l) in Hr, He.
  destruct (shr_fexp prec emax M E l) as [mrs1 e1]. cbn [fst snd] in Hr, He.
  replace (E + (e - E))%Z with e in * by lia. subst e1.
  rewrite (round_nearest_even_spec mrs1 _ Hr).
  destruct (cexp_of_mantissa x e Hx Hc) as [Hn Hnorm].
  pose proof (shr_fexp_mantissa _ e (cexp_of_ge x e Hc) Hn Hnorm) as Hm.
  destruct (shr_fexp prec emax (round_half_even (x * pow2 (- e))) e loc_Exact)
    as [mrs2 e2].
  exact Hm.
Qed.

(** ** Order, validity and uniqueness of roundings *)

(** The order on positive floats compares exponents, then mantissas. *)
Lemma SFleb_finite (m m' : positive) (e e' : Z) :
  SFleb (S754_finite false m e) (S754_finite false m' e') = true <->
  (e < e')%Z \/ (e = e' /\ (Zpos m <= Zpos m')%Z).
Proof.
  unfold SFleb, SFcompare.
  change (IntDef.Z.compare e e') with (Z.compare e e').
  change (Pos.compare_cont Eq m m') with (Pos.compare m m').
  destruct (Z.compare_spec e e') as [He | He | He];
    destruct (Pos.compare_spec m m') as [Hm | Hm | Hm]; split; intros H;
    try discriminate; try reflexivity; lia.
Qed.

Lemma SFleb_zero_l (s : bool) (y : spec_float) :
  SF_nonneg y -> SFleb (S754_zero s) y = true.
Proof. destruct y as [sy | [ | ] | | [ | ] m e]; cbn; tauto. Qed.

Lemma SFleb_inf_r (x : spec_float) :
  SF_nonneg x -> SFleb x (S754_infinity false) = true.
Proof. destruct x as [sx | [ | ] | | [ | ] m e]; cbn; tauto. Qed.

Lemma round_result_nonneg (n e : Z) : (0 <= n)%Z -> SF_nonneg (round_result n e).
Proof.
  intros Hn. unfold round_result. destruct n as [ | m | m]; [exact I | | lia].
  destruct (_ =? _)%Z; destruct (_ <=? _)%Z; exact I.
Qed.

Lemma round_result_mono (n n' e e' : Z) :
  (0 <= n <= 2 ^ 53)%Z -> (0 <= n' <= 2 ^ 53)%Z ->
  (e <= e')%Z -> (e < e' -> 2 ^ 52 <= n')%Z -> (e = e' -> n <= n')%Z ->
  SFleb (round_result n e) (round_result n' e') = true.
Proof.
  intros Hn Hn' He Hnorm Hsame.
  destruct n as [ | m | m]; [ | | lia].
  - apply SFleb_zero_l, round_result_nonneg. lia.
  - destruct n' as [ | m' | m']; [lia | | lia].
    unfold round_result.
    change (2 ^ 53)%Z with 9007199254740992%Z in *.
    change (2 ^ 52)%Z with 4503599627370496%Z in *.
    destruct (Z.eqb_spec (Zpos m) 9007199254740992) as [E | E];
      destruct (Z.eqb_spec (Zpos m') 9007199254740992) as [E' | E'];
      repeat match goal with
        | |- context [(?a <=? ?b)%Z] => destruct (Z.leb_spec a b)
        end;
      try reflexivity; try (exfalso; lia);
      apply SFleb_finite; lia.
Qed.

Lemma cexp_of_le (x y : Q) (e e' : Z) :
  x <= y -> cexp_of x e -> cexp_of y e' -> (e <= e')%Z.
Proof.
  intros Hxy Hx Hy. pose proof (cexp_of_ge y e' Hy) as Hge.
  destruct Hx as [[-> _] | [He [Hlo _]]]; [exact Hge | ].
  assert (Hlt : pow2 (e + 52) < pow2 (e' + 53)).
  { destruct Hy as [[-> Hy] | [_ [_ Hy]]];
      [change (-1074 + 53)%Z with (-1021)%Z | ]; lra. }
  apply pow2_lt_inv in Hlt. lia.
Qed.

Lemma pow2_scale_mono (x y : Q) (e : Z) : x <= y -> x * pow2 (- e) <= y * pow2 (- e).
Proof.
  intros H. apply Qmult_le_compat_r; [exact H | apply Qlt_le_weak, pow2_pos].
Qed.

(** Rounding is monotone. *)
Theorem rounds_to_mono (x y : Q) (r r' : spec_float) :
  0 <= x -> x <= y -> rounds_to x r -> rounds_to y r' -> SFleb r r' = true.
Proof.
  intros Hx Hxy (e & Hc & ->) (e' & Hc' & ->).
  assert (Hy : 0 <= y) by lra.
  destruct (cexp_of_mantissa x e Hx Hc) as [Hn _].
  destruct (cexp_of_mantissa y e' Hy Hc') as [Hn' Hnorm'].
  pose proof (cexp_of_le x y e e' Hxy Hc Hc') as He.
  pose proof (cexp_of_ge x e Hc) as Hge.
  apply round_result_mono; try assumption.
  - intros Hlt. apply Hnorm'. lia.
  - intros <-. apply round_half_even_mono, pow2_scale_mono, Hxy.
Qed.

Lemma rounds_to_nonneg (x : Q) (r : spec_float) :
  0 <= x -> rounds_to x r -> SF_nonneg r.
Proof.
  intros Hx (e & Hc & ->). apply round_result_nonneg.
  apply (cexp_of_mantissa x e Hx Hc).
Qed.

Lemma canonical_mantissa_iff (m : positive) (e : Z) :
  canonical_mantissa prec emax m e = true <->
  (Zpos (digits2_pos m) <= 53 /\ -1074 <= e /\
   (Zpos (digits2_pos m) = 53 \/ e = -1074))%Z.
Proof.
  unfold canonical_mantissa. rewrite fexp_eq.
  change (IntDef.Z.eqb ?a ?b) with (Z.eqb a b).
  rewrite Z.eqb_eq. lia.
Qed.

Lemma round_result_valid (n e : Z) :
  (-1074 <= e)%Z -> (0 <= n <= 2 ^ 53)%Z ->
  ((-1074 < e)%Z -> (2 ^ 52 <= n)%Z) ->
  valid_binary (round_result n e) = true.
Proof.
  intros He [Hn0 Hn] Hnorm. unfold round_result.
  destruct n as [ | m | m]; [reflexivity | | lia].
  destruct (Z.eqb_spec (Zpos m) 9007199254740992) as [E | E].
  - destruct (Z.leb_spec (e + 1) 971) as [H | H]; [ | reflexivity].
    cbn [valid_binary]. unfold bounded. apply andb_true_intro. split.
    + apply canonical_mantissa_iff.
      change (Zpos (digits2_pos 4503599627370496)) with 53%Z. lia.
    + apply Z.leb_le. exact H.
  - destruct (Z.leb_spec e 971) as [H | H]; [ | reflexivity].
    cbn [valid_binary]. unfold bounded. apply andb_true_intro. split.
    + apply canonical_mantissa_iff.
      change (2 ^ 53)%Z with 9007199254740992%Z in *.
      assert (Hd : (Zdigits2 (Zpos m) <= 53)%Z).
      { apply Zdigits2_le. change (2 ^ 53)%Z with 9007199254740992%Z. lia. }
      cbn [Zdigits2] in Hd. split; [exact Hd | ]. split; [exact He | ].
      destruct (Z.eq_dec e (-1074)) as [-> | Hne]; [right; reflexivity | left].
      assert (Hd' : (53 <= Zdigits2 (Zpos m))%Z).
      { apply Zdigits2_ge; [lia | ]. apply Hnorm. lia. }
      cbn [Zdigits2] in Hd'. lia.
    + apply Z.leb_le. exact H.
Qed.

(** A rounding is a valid float: [SF2Prim] and [Prim2SF] keep it. *)
Lemma rounds_to_valid (x : Q) (r : spec_float) :
  0 <= x -> rounds_to x r -> valid_binary r = true.
Proof.
  intros Hx (e & Hc & ->).
  destruct (cexp_of_mantissa x e Hx Hc) as [Hn Hnorm].
  apply round_result_valid; [exact (cexp_of_ge x e Hc) | exact Hn | exact Hnorm].
Qed.

Lemma cexp_of_unique (x y : Q) (e e' : Z) :
  x == y -> cexp_of x e -> cexp_of y e' -> e = e'.
Proof.
  intros Hxy Hx Hy. apply Z.le_antisymm.
  - apply (cexp_of_le x y); [lra | assumption | assumption].
  - apply (cexp_of_le y x); [lra | assumption | assumption].
Qed.

(** A value has one rounding. *)
Lemma rounds_to_unique (x y : Q) (r r' : spec_float) :
  x == y -> rounds_to x r -> rounds_to y r' -> r = r'.
Proof.
  intros Hxy (e & Hc & ->) (e' & Hc' & ->).
  rewrite (cexp_of_unique x y e e' Hxy Hc Hc').
  rewrite (round_half_even_comp (x * pow2 (- e')) (y * pow2 (- e'))); [reflexivity | ].
  rewrite Hxy. reflexivity.
Qed.

Lemma rounds_to_comp (x y : Q) (r : spec_float) :
  x == y -> rounds_to x r -> rounds_to y r.
Proof.
  intros Hxy (e & Hc & ->). exists e. split.
  - destruct Hc as [[-> H] | [He [H1 H2]]]; [left | right];
      repeat split; try lra; try lia.
  - rewrite (round_half_even_comp (x * pow2 (- e)) (y * pow2 (- e))); [reflexivity | ].
    rewrite Hxy. reflexivity.
Qed.

(** The exact value of a positive float, as a product. *)
Lemma SF2Q_finite (m : positive) (e : Z) :
  SF2Q (S754_finite false m e) = inject_Z (Zpos m) * pow2 e.
Proof. reflexivity. Qed.

Lemma SF2Q_pos (m : positive) (e : Z) : 0 < SF2Q (S754_finite false m e).
Proof.
  rewrite SF2Q_finite. pose proof (pow2_pos e).
  assert (0 < inject_Z (Zpos m))
    by (change 0 with (inject_Z 0); rewrite <- Zlt_Qlt; lia).
  nra.
Qed.

Lemma valid_finite_iff (m : positive) (e : Z) :
  valid_binary (S754_finite false m e) = true <->
  (Zpos (digits2_pos m) <= 53 /\ -1074 <= e <= 971 /\
   (Zpos (digits2_pos m) = 53 \/ e = -1074))%Z.
Proof.
  cbn [valid_binary]. unfold bounded. rewrite andb_true_iff, canonical_mantissa_iff.
  change (IntDef.Z.leb ?a ?b) with (Z.leb a b).
  rewrite Z.leb_le. change (emax - prec)%Z with 971%Z. lia.
Qed.

(** A float is the rounding of its own value. *)
Lemma rounds_to_self (m : positive) (e : Z) :
  valid_binary (S754_finite false m e) = true ->
  rounds_to (SF2Q (S754_finite false m e)) (S754_finite false m e).
Proof.
  intros Hv. apply valid_finite_iff in Hv. destruct Hv as (Hd & He & Hcan).
  assert (Hin : inbetween (Zpos m) loc_Exact
                  (SF2Q (S754_finite false m e) * pow2 (- e))).
  { cbn [inbetween]. rewrite SF2Q_finite.
    rewrite <- Qmult_assoc, (Qmult_comm (pow2 e)), pow2_neg_mul. ring. }
  assert (Hfe : fexp prec emax (Zdigits2 (Zpos m) + e) = e).
  { rewrite fexp_eq. cbn [Zdigits2]. lia. }
  pose proof (cexp_of_inbetween (Zpos m) e loc_Exact _ ltac:(lia) Hin ltac:(lia)) as Hc.
  rewrite Hfe in Hc.
  exists e. split; [exact Hc | ].
  cbn [inbetween] in Hin.
  rewrite (round_half_even_comp _ _ Hin), round_half_even_integer.
  unfold round_result.
  destruct (Z.eqb_spec (Zpos m) 9007199254740992) as [E | E].
  - exfalso. injection E as ->. cbn in Hd. lia.
  - destruct (Z.leb_spec e 971); [reflexivity | lia].
Qed.

Lemma rounds_to_zero : rounds_to 0 (S754_zero false).
Proof.
  exists (-1074)%Z. split.
  - left. split; [reflexivity | apply pow2_pos].
  - rewrite (round_half_even_comp _ 0) by ring.
    change 0 with (inject_Z 0). rewrite round_half_even_integer. reflexivity.
Qed.

(** On valid positive floats the order is the order of the values. *)
Lemma SFleb_of_value (m m' : positive) (e e' : Z) :
  valid_binary (S754_finite false m e) = true ->
  valid_binary (S754_finite false m' e') = true ->
  SF2Q (S754_finite false m e) <= SF2Q (S754_finite false m' e') ->
  SFleb (S754_finite false m e) (S754_finite false m' e') = true.
Proof.
  intros Hv Hv' Hle.
  apply (rounds_to_mono _ _ _ _ (Qlt_le_weak _ _ (SF2Q_pos m e)) Hle);
    apply rounds_to_self; assumption.
Qed.

Lemma value_of_SFleb (m m' : positive) (e e' : Z) :
  valid_binary (S754_finite false m e) = true ->
  valid_binary (S754_finite false m' e') = true ->
  SFleb (S754_finite false m e) (S754_finite false m' e') = true ->
  SF2Q (S754_finite false m e) <= SF2Q (S754_finite false m' e').
Proof.
  intros Hv Hv' Hle.
  destruct (Qlt_le_dec (SF2Q (S754_finite false m' e')) (SF2Q (S754_finite false m e)))
    as [Hlt | Hok]; [ | exact Hok].
  pose proof (SFleb_of_value m' m e' e Hv' Hv (Qlt_le_weak _ _ Hlt)) as Hge.
  apply SFleb_finite in Hle, Hge.
  assert (He : e = e') by lia. subst e'.
  assert (Hm : Zpos m = Zpos m') by lia. injection Hm as ->. lra.
Qed.

Lemma inject_Z_pos (m : positive) : 0 < inject_Z (Zpos m).
Proof. change 0 with (inject_Z 0). rewrite <- Zlt_Qlt. lia. Qed.

Lemma pow2_opp (e : Z) : pow2 (- e) == / pow2 e.
Proof. unfold pow2. apply Qpower_opp. Qed.

Lemma pow2_nonzero (e : Z) : ~ pow2 e == 0.
Proof. pose proof (pow2_pos e). lra. Qed.

(** ** Multiplication *)

(** A product has at least as many digits as its factors together, less
    one. *)
Lemma Zdigits2_mul (m1 m2 : positive) :
  (Zdigits2 (Zpos m1) + Zdigits2 (Zpos m2) - 1 <= Zdigits2 (Zpos (m1 * m2)))%Z.
Proof.
  destruct (Zdigits2_bounds (Zpos m1) ltac:(lia)) as [[H1 _] Hd1].
  destruct (Zdigits2_bounds (Zpos m2) ltac:(lia)) as [[H2 _] Hd2].
  apply Zdigits2_ge; [lia | ].
  replace (Zdigits2 (Zpos m1) + Zdigits2 (Zpos m2) - 1 - 1)%Z
    with ((Zdigits2 (Zpos m1) - 1) + (Zdigits2 (Zpos m2) - 1))%Z by lia.
  rewrite Z.pow_add_r by lia. rewrite Pos2Z.inj_mul.
  apply Z.mul_le_mono_nonneg; try assumption; apply Z.pow_nonneg; lia.
Qed.

(** The product of two valid positive floats is the rounding of the exact
    product. *)
Theorem SFmul_rounds (m1 m2 : positive) (e1 e2 : Z) :
  valid_binary (S754_finite false m1 e1) = true ->
  valid_binary (S754_finite false m2 e2) = true ->
  rounds_to (SF2Q (S754_finite false m1 e1) * SF2Q (S754_finite false m2 e2))
    (SF64mul (S754_finite false m1 e1) (S754_finite false m2 e2)).
Proof.
  intros Hv1 Hv2. apply valid_finite_iff in Hv1, Hv2.
  unfold SF64mul, SFmul. cbn [xorb].
  apply binary_round_aux_spec.
  - lia.
  - cbn [inbetween]. rewrite !SF2Q_finite.
    change (Zpos (m1 * m2)) with (Zpos m1 * Zpos m2)%Z.
    rewrite inject_Z_mult.
    replace (- (e1 + e2))%Z with (- e1 + - e2)%Z by lia.
    rewrite pow2_add.
    pose proof (pow2_neg_mul e1) as P1. pose proof (pow2_neg_mul e2) as P2.
    set (a := pow2 e1) in *. set (b := pow2 e2) in *.
    set (a' := pow2 (- e1)) in *. set (b' := pow2 (- e2)) in *.
    transitivity
      (inject_Z (Zpos m1) * inject_Z (Zpos m2) * (a' * a) * (b' * b));
      [ring | ].
    rewrite P1, P2. ring.
  - pose proof (Zdigits2_mul m1 m2) as Hd. rewrite fexp_eq.
    cbn [Zdigits2] in *. lia.
Qed.

(** ** Division *)

(** [new_location] locates the remainder [r] of a division by [M] within
    the unit interval. *)
Lemma new_location_spec (M q r : Z) :
  (0 < M)%Z -> (0 <= r < M)%Z ->
  inbetween q (new_location M r) (inject_Z q + inject_Z r / inject_Z M).
Proof.
  intros HM Hr.
  assert (HMq : 0 < inject_Z M) by (change 0 with (inject_Z 0); rewrite <- Zlt_Qlt; lia).
  set (rho := inject_Z r / inject_Z M).
  assert (Hrho : rho * inject_Z M == inject_Z r).
  { unfold rho. field. lra. }
  assert (Hcmp : forall c : comparison,
            (2 * r ?= M)%Z = c ->
            match c with
            | Lt => rho < 1 # 2
            | Eq => rho == 1 # 2
            | Gt => (1 # 2) < rho
            end).
  { intros c Hc. destruct c.
    - apply Z.compare_eq in Hc.
      assert (E : 2 * inject_Z r == inject_Z M).
      { rewrite <- Hc, inject_Z_mult. reflexivity. }
      nra.
    - rewrite Z.compare_lt_iff in Hc. rewrite Zlt_Qlt, inject_Z_mult in Hc.
      change (inject_Z 2) with 2 in Hc. nra.
    - rewrite Z.compare_gt_iff in Hc. rewrite Zlt_Qlt, inject_Z_mult in Hc.
      change (inject_Z 2) with 2 in Hc. nra. }
  assert (Hr0 : r <> 0%Z -> 0 < rho).
  { intros Hne. assert (0 < inject_Z r)
      by (change 0 with (inject_Z 0); rewrite <- Zlt_Qlt; lia). nra. }
  assert (Hr1 : rho < 1).
  { assert (inject_Z r < inject_Z M) by (rewrite <- Zlt_Qlt; lia). nra. }
  unfold new_location, new_location_even, new_location_odd.
  change (IntDef.Z.even M) with (Z.even M).
  change (IntDef.Z.eqb r 0) with (Z.eqb r 0).
  change (IntDef.Z.compare ?a ?b) with (Z.compare a b).
  change (IntDef.Z.mul ?a ?b) with (Z.mul a b).
  change (IntDef.Z.add ?a ?b) with (Z.add a b).
  assert (Hzero : r = 0%Z -> rho == 0).
  { intros E. rewrite E in Hrho. change (inject_Z 0) with 0 in Hrho. nra. }
  pose proof (Hcmp _ eq_refl) as H.
  destruct (Z.even M) eqn:Hev; cbv beta.
  - destruct (Z.eqb_spec r 0) as [E | Hne].
    + specialize (Hzero E). cbn [inbetween]. lra.
    + specialize (Hr0 Hne).
      destruct (2 * r ?= M)%Z; cbn [inbetween]; try split; lra.
  - destruct (Z.eqb_spec r 0) as [E | Hne].
    + specialize (Hzero E). cbn [inbetween]. lra.
    + specialize (Hr0 Hne).
      destruct (Z.compare_spec (2 * r + 1) M) as [E | E | E].
      * assert (Hc : (2 * r ?= M)%Z = Lt) by (apply Z.compare_lt_iff; lia).
        rewrite Hc in H. cbn [inbetween]. split; lra.
      * assert (Hc : (2 * r ?= M)%Z = Lt) by (apply Z.compare_lt_iff; lia).
        rewrite Hc in H. cbn [inbetween]. split; lra.
      * assert (Hc : (2 * r ?= M)%Z = Gt).
        { apply Z.compare_gt_iff.
          destruct (Z.eq_dec (2 * r) M) as [E2 | E2]; [ | lia].
          rewrite <- E2, Z.even_mul in Hev. discriminate. }
        rewrite Hc in H. cbn [inbetween]. split; lra.
Qed.

(** The quotient, the exponent and the location that [SFdiv_core_binary]
    hands to the rounding stand for the exact quotient, at an exponent
    small enough to round. *)
Lemma SFdiv_core_binary_spec (m1 m2 : positive) (e1 e2 : Z) :
  let '(q, e', l) := SFdiv_core_binary prec emax (Zpos m1) e1 (Zpos m2) e2 in
  (0 <= q)%Z /\
  inbetween q l
    (SF2Q (S754_finite false m1 e1) / SF2Q (S754_finite false m2 e2) * pow2 (- e')) /\
  (e' <= fexp prec emax (Zdigits2 q + e'))%Z.
Proof.
  unfold SFdiv_core_binary.
  set (d1 := Zdigits2 (Zpos m1)). set (d2 := Zdigits2 (Zpos m2)).
  rewrite fexp_eq.
  change (IntDef.Z.min ?a ?b) with (Z.min a b).
  set (e' := Z.min (Z.max (d1 + e1 - (d2 + e2) - 53) (-1074)) (e1 - e2)).
  set (s := (e1 - e2 - e')%Z).
  assert (Hs : (0 <= s)%Z) by (subst s e'; lia).
  set (m' := match s with
             | 0%Z => Zpos m1
             | Zpos _ => _
             | Zneg _ => 0%Z
             end).
  assert (Hm' : m' = (Zpos m1 * 2 ^ s)%Z).
  { subst m'. destruct s as [ | p | p] eqn:Es; [lia | | lia].
    change (IntDef.Z.shiftl ?a ?b) with (Z.shiftl a b).
    apply Z.shiftl_mul_pow2. lia. }
  clearbody m'.
  pose proof (Z.div_eucl_eq m' (Zpos m2) ltac:(lia)) as Heq.
  pose proof (Z.mod_pos_bound m' (Zpos m2) ltac:(lia)) as Hmod.
  unfold Z.modulo, Z.div in *.
  change (IntDef.Z.div_eucl m' (Zpos m2)) with (Z.div_eucl m' (Zpos m2)).
  destruct (Z.div_eucl m' (Zpos m2)) as [q r]. cbn [fst snd] in Heq, Hmod.
  destruct (Zdigits2_bounds (Zpos m1) ltac:(lia)) as [[H1lo H1hi] Hd1].
  destruct (Zdigits2_bounds (Zpos m2) ltac:(lia)) as [[H2lo H2hi] Hd2].
  fold d1 in H1lo, H1hi, Hd1. fold d2 in H2lo, H2hi, Hd2.
  assert (Hp : (0 < 2 ^ s)%Z) by (apply Z.pow_pos_nonneg; lia).
  assert (Hq : (0 <= q)%Z) by nia.
  split; [exact Hq | ]. split.
  - assert (Hval : SF2Q (S754_finite false m1 e1) / SF2Q (S754_finite false m2 e2)
                   * pow2 (- e') == inject_Z q + inject_Z r / inject_Z (Zpos m2)).
    { rewrite !SF2Q_finite.
      assert (E1 : pow2 e1 == pow2 s * pow2 e2 * pow2 e').
      { rewrite <- !pow2_add. replace (s + e2 + e')%Z with e1 by (subst s; lia).
        reflexivity. }
      assert (Em : inject_Z m' == inject_Z (Zpos m1) * pow2 s).
      { rewrite Hm', inject_Z_mult, pow2_inject by lia. reflexivity. }
      assert (Eq' : inject_Z m' == inject_Z (Zpos m2) * inject_Z q + inject_Z r).
      { rewrite Heq, inject_Z_plus, inject_Z_mult. reflexivity. }
      rewrite pow2_opp, E1.
      pose proof (pow2_nonzero e2). pose proof (pow2_nonzero e').
      pose proof (inject_Z_pos m2).
      transitivity (inject_Z (Zpos m1) * pow2 s / inject_Z (Zpos m2)).
      - field. repeat split; lra.
      - rewrite <- Em, Eq'. field. lra. }
    pose proof (new_location_spec (Zpos m2) q r ltac:(lia) Hmod) as Hloc.
    destruct (new_location (Zpos m2) r) as [ | [ | | ]]; cbn [inbetween] in *;
      rewrite Hval; exact Hloc.
  - assert (Hdq : (d1 + s - d2 <= Zdigits2 q)%Z).
    { destruct (Z.eq_dec q 0) as [-> | Hq0].
      - cbn [Zdigits2].
        destruct (Z.le_gt_cases (d1 + s - d2) 0) as [H | H]; [exact H | exfalso].
        assert (2 ^ d2 <= 2 ^ (d1 - 1 + s))%Z by (apply Z.pow_le_mono_r; lia).
        rewrite Z.pow_add_r in H0 by lia. nia.
      - destruct (Z.le_gt_cases (d1 + s - d2) 0) as [H | H].
        + destruct (Zdigits2_bounds q ltac:(lia)) as [_ Hd]. lia.
        + apply Zdigits2_ge; [lia | ].
          assert (E : (2 ^ (d1 - 1 + s) = 2 ^ (d1 + s - d2 - 1) * 2 ^ d2)%Z).
          { rewrite <- Z.pow_add_r by lia. f_equal. lia. }
          rewrite Z.pow_add_r in E by lia.
          assert (0 < 2 ^ (d1 + s - d2 - 1))%Z by (apply Z.pow_pos_nonneg; lia).
          nia. }
    rewrite fexp_eq. subst e' s. lia.
Qed.

(** The quotient of two positive floats is the rounding of the exact
    quotient. *)
Theorem SFdiv_rounds (m1 m2 : positive) (e1 e2 : Z) :
  rounds_to (SF2Q (S754_finite false m1 e1) / SF2Q (S754_finite false m2 e2))
    (SF64div (S754_finite false m1 e1) (S754_finite false m2 e2)).
Proof.
  unfold SF64div, SFdiv. cbn [xorb].
  pose proof (SFdiv_core_binary_spec m1 m2 e1 e2) as H.
  destruct (SFdiv_core_binary prec emax (Zpos m1) e1 (Zpos m2) e2) as [[q e'] l].
  destruct H as (Hq & Hin & He).
  apply binary_round_aux_spec; assumption.
Qed.

(** ** Addition *)

(** Shifting a mantissa left by [d] digits. *)
Lemma iter_xO_spec (d m : positive) :
  Zpos (Pos.iter xO m d) = (Zpos m * 2 ^ Zpos d)%Z /\
  Zpos (digits2_pos (Pos.iter xO m d)) = (Zpos (digits2_pos m) + Zpos d)%Z.
Proof.
  induction d as [ | d IH] using Pos.peano_ind.
  - cbn. split; lia.
  - rewrite Pos.iter_succ. destruct IH as [IH1 IH2]. split.
    + rewrite Pos2Z.inj_xO, IH1, Pos2Z.inj_succ, Z.pow_succ_r by lia. lia.
    + cbn [digits2_pos]. rewrite Pos2Z.inj_succ, IH2, Pos2Z.inj_succ. lia.
Qed.

(** [shl_align] never raises the exponent and keeps the value. *)
Lemma shl_align_spec (m : positive) (e e' : Z) :
  let '(mz, ez) := shl_align m e e' in
  inject_Z (Zpos mz) * pow2 ez == inject_Z (Zpos m) * pow2 e /\
  (ez <= e)%Z /\ (ez <= e' \/ (e < e' /\ ez = e))%Z /\ (e' <= e -> ez = e')%Z /\
  (Zpos (digits2_pos mz) + ez = Zpos (digits2_pos m) + e)%Z.
Proof.
  unfold shl_align.
  change (IntDef.Z.sub e' e) with (e' - e)%Z.
  destruct (e' - e)%Z as [ | d | d] eqn:Ed.
  - repeat split; try lia; reflexivity.
  - repeat split; try lia; reflexivity.
  - destruct (iter_xO_spec d m) as [H1 H2].
    change (PosDef.Pos.iter xO m d) with (Pos.iter xO m d).
    repeat split; try lia.
    rewrite H1, inject_Z_mult, <- pow2_inject by lia.
    rewrite <- Qmult_assoc, <- pow2_add.
    replace (Zpos d + e')%Z with e by lia. reflexivity.
Qed.

(** [binary_round] rounds the value of any mantissa and exponent. *)
Theorem binary_round_rounds (m : positive) (e : Z) :
  rounds_to (inject_Z (Zpos m) * pow2 e) (binary_round prec emax false m e).
Proof.
  unfold binary_round.
  pose proof (shl_align_spec m e (fexp prec emax (Zpos (digits2_pos m) + e))) as H.
  destruct (shl_align m e (fexp prec emax (Zpos (digits2_pos m) + e))) as [mz ez].
  destruct H as (Hval & Hle & Hcase & _ & Hdig).
  apply (rounds_to_comp (inject_Z (Zpos mz) * pow2 ez)); [exact Hval | ].
  apply binary_round_aux_spec.
  - lia.
  - cbn [inbetween]. rewrite <- Qmult_assoc, (Qmult_comm (pow2 ez)), pow2_neg_mul. ring.
  - cbn [Zdigits2]. rewrite Hdig. rewrite fexp_eq in *. lia.
Qed.

(** The sum of two positive floats is the rounding of the exact sum. *)
Theorem SFadd_rounds (m1 m2 : positive) (e1 e2 : Z) :
  rounds_to (SF2Q (S754_finite false m1 e1) + SF2Q (S754_finite false m2 e2))
    (SF64add (S754_finite false m1 e1) (S754_finite false m2 e2)).
Proof.
  unfold SF64add, SFadd. cbn [cond_Zopp].
  change (IntDef.Z.min e1 e2) with (Z.min e1 e2).
  pose proof (shl_align_spec m1 e1 (Z.min e1 e2)) as H1.
  pose proof (shl_align_spec m2 e2 (Z.min e1 e2)) as H2.
  destruct (shl_align m1 e1 (Z.min e1 e2)) as [a ea].
  destruct (shl_align m2 e2 (Z.min e1 e2)) as [b eb].
  destruct H1 as (V1 & _ & _ & E1 & _). destruct H2 as (V2 & _ & _ & E2 & _).
  specialize (E1 ltac:(lia)). specialize (E2 ltac:(lia)). subst ea eb.
  cbn [fst binary_normalize].
  change (IntDef.Z.add (Zpos a) (Zpos b)) with (Zpos (a + b)).
  cbn [binary_normalize].
  apply (rounds_to_comp (inject_Z (Zpos (a + b)) * pow2 (Z.min e1 e2))).
  - rewrite !SF2Q_finite, <- V1, <- V2.
    change (Zpos (a + b)) with (Zpos a + Zpos b)%Z. rewrite inject_Z_plus. ring.
  - apply binary_round_rounds.
Qed.

(** ** Reading a number of tenths *)

Lemma Prim2SF_SF2Prim_rounds (x : Q) (r : spec_float) :
  0 <= x -> rounds_to x r -> Prim2SF (SF2Prim r) = r.
Proof.
  intros Hx Hr. apply Prim2SF_SF2Prim. exact (rounds_to_valid x r Hx Hr).
Qed.

(** [tenths_to_float false n] is the rounding of [n / 10]. *)
Lemma tenths_to_float_rounds (n : Z) :
  (0 <= n)%Z ->
  rounds_to (inject_Z n * (1 # 10)) (Prim2SF (tenths_to_float false n)).
Proof.
  intros Hn. unfold tenths_to_float. destruct n as [ | p | p]; [ | | lia].
  - cbn. apply (rounds_to_comp 0); [reflexivity | exact rounds_to_zero].
  - assert (Hr : rounds_to (inject_Z (Zpos p) * (1 # 10))
                   (SFdiv prec emax (S754_finite false p 0) (S754_finite false 10 0))).
    { apply (rounds_to_comp
               (SF2Q (S754_finite false p 0) / SF2Q (S754_finite false 10 0))).
      - rewrite !SF2Q_finite. change (pow2 0) with 1.
        change (inject_Z 10) with 10. field.
      - apply SFdiv_rounds. }
    assert (Hx : 0 <= inject_Z (Zpos p) * (1 # 10))
      by (pose proof (inject_Z_pos p); lra).
    rewrite (Prim2SF_SF2Prim_rounds _ _ Hx Hr). exact Hr.
Qed.

(** [round(x, 1)] of a positive finite float: its tenths, read back. *)
Theorem float_round1_rounds (x : float) (m : positive) (e : Z) :
  Prim2SF x = S754_finite false m e ->
  float_round1 x =
    tenths_to_float false (round_half_even (SF2Q (S754_finite false m e) * 10)) /\
  (0 <= round_half_even (SF2Q (S754_finite false m e) * 10))%Z /\
  rounds_to
    (inject_Z (round_half_even (SF2Q (S754_finite false m e) * 10)) * (1 # 10))
    (Prim2SF (float_round1 x)).
Proof.
  intros E. unfold float_round1. rewrite E.
  assert (Hn : (0 <= round_half_even (SF2Q (S754_finite false m e) * 10))%Z).
  { rewrite <- (round_half_even_integer 0). apply round_half_even_mono.
    change (inject_Z 0) with 0. pose proof (SF2Q_pos m e). lra. }
  split; [reflexivity | ]. split; [exact Hn | ].
  apply tenths_to_float_rounds. exact Hn.
Qed.

(** ** Floats with the plus sign *)

Lemma SF_plus_nonneg (x : spec_float) : SF_plus x -> SF_nonneg x.
Proof. destruct x as [[ | ] | [ | ] | | [ | ] m e]; cbn; tauto. Qed.

Lemma SF_pos_plus (x : spec_float) : SF_pos x -> SF_plus x.
Proof. destruct x as [[ | ] | [ | ] | | [ | ] m e]; cbn; tauto. Qed.

Lemma round_result_plus (n e : Z) : (0 <= n)%Z -> SF_plus (round_result n e).
Proof.
  intros Hn. unfold round_result. destruct n as [ | m | m]; [exact I | | lia].
  destruct (_ =? _)%Z; destruct (_ <=? _)%Z; exact I.
Qed.

Lemma rounds_to_plus (x : Q) (r : spec_float) :
  0 <= x -> rounds_to x r -> SF_plus r.
Proof.
  intros Hx (e & Hc & ->). apply round_result_plus.
  apply (cexp_of_mantissa x e Hx Hc).
Qed.

Lemma SFleb_plus_zero_l (y : spec_float) :
  SF_plus y -> SFleb (S754_zero false) y = true.
Proof. intros H. apply SFleb_zero_l, SF_plus_nonneg, H. Qed.

Lemma SFleb_plus_inf_r (x : spec_float) :
  SF_plus x -> SFleb x (S754_infinity false) = true.
Proof. intros H. apply SFleb_inf_r, SF_plus_nonneg, H. Qed.

(** ** Monotonicity of the operations on [spec_float] *)

Lemma SFmul_plus (a b : spec_float) :
  valid_binary a = true -> valid_binary b = true ->
  SF_plus a -> SF_pos b -> SF_plus (SF64mul a b).
Proof.
  intros Va Vb Ha Hb.
  destruct b as [sb | sb | | [ | ] mb eb]; cbn in Hb; try tauto.
  destruct a as [[ | ] | [ | ] | | [ | ] ma ea]; cbn in Ha; try tauto;
    try exact I.
  apply (rounds_to_plus
           (SF2Q (S754_finite false ma ea) * SF2Q (S754_finite false mb eb))).
  - pose proof (SF2Q_pos ma ea). pose proof (SF2Q_pos mb eb). nra.
  - apply SFmul_rounds; assumption.
Qed.

Lemma SFmul_mono (a a' b b' : spec_float) :
  valid_binary a = true -> valid_binary a' = true ->
  valid_binary b = true -> valid_binary b' = true ->
  SF_plus a -> SF_plus a' -> SF_pos b -> SF_pos b' ->
  SFleb a a' = true -> SFleb b b' = true ->
  SFleb (SF64mul a b) (SF64mul a' b') = true.
Proof.
  intros Va Va' Vb Vb' Ha Ha' Hb Hb' Hle Hleb.
  pose proof (SFmul_plus a' b' Va' Vb' Ha' Hb') as Hp'.
  pose proof (SFmul_plus a b Va Vb Ha Hb) as Hp.
  destruct b as [sb | sb | | [ | ] mb eb]; cbn in Hb; try tauto.
  destruct b' as [sb' | sb' | | [ | ] mb' eb']; cbn in Hb'; try tauto.
  destruct a as [[ | ] | [ | ] | | [ | ] ma ea]; cbn in Ha; try tauto.
  - apply SFleb_plus_zero_l. exact Hp'.
  - destruct a' as [[ | ] | [ | ] | | [ | ] ma' ea']; cbn in Ha'; try tauto;
      try discriminate Hle; reflexivity.
  - destruct a' as [[ | ] | [ | ] | | [ | ] ma' ea']; cbn in Ha'; try tauto;
      try discriminate Hle.
    + apply SFleb_plus_inf_r. exact Hp.
    + pose proof (value_of_SFleb _ _ _ _ Va Va' Hle) as Hv.
      pose proof (value_of_SFleb _ _ _ _ Vb Vb' Hleb) as Hvb.
      pose proof (SF2Q_pos ma ea). pose proof (SF2Q_pos mb eb).
      apply (rounds_to_mono
               (SF2Q (S754_finite false ma ea) * SF2Q (S754_finite false mb eb))
               (SF2Q (S754_finite false ma' ea') *
                SF2Q (S754_finite false mb' eb'))).
      * nra.
      * nra.
      * apply SFmul_rounds; assumption.
      * apply SFmul_rounds; assumption.
Qed.

Lemma SFdiv_plus (a b : spec_float) :
  SF_plus a -> SF_pos b -> SF_plus (SF64div a b).
Proof.
  intros Ha Hb.
  destruct b as [sb | sb | | [ | ] mb eb]; cbn in Hb; try tauto.
  destruct a as [[ | ] | [ | ] | | [ | ] ma ea]; cbn in Ha; try tauto;
    try exact I.
  apply (rounds_to_plus
           (SF2Q (S754_finite false ma ea) / SF2Q (S754_finite false mb eb))).
  - apply Qdiv_nonneg; [apply Qlt_le_weak, SF2Q_pos | apply SF2Q_pos].
  - apply SFdiv_rounds.
Qed.

Lemma SFdiv_mono (a a' b b' : spec_float) :
  valid_binary a = true -> valid_binary a' = true ->
  valid_binary b = true -> valid_binary b' = true ->
  SF_plus a -> SF_plus a' -> SF_pos b -> SF_pos b' ->
  SFleb a a' = true -> SFleb b' b = true ->
  SFleb (SF64div a b) (SF64div a' b') = true.
Proof.
  intros Va Va' Vb Vb' Ha Ha' Hb Hb' Hle Hleb.
  pose proof (SFdiv_plus a' b' Ha' Hb') as Hp'.
  pose proof (SFdiv_plus a b Ha Hb) as Hp.
  destruct b as [sb | sb | | [ | ] mb eb]; cbn in Hb; try tauto.
  destruct b' as [sb' | sb' | | [ | ] mb' eb']; cbn in Hb'; try tauto.
  destruct a as [[ | ] | [ | ] | | [ | ] ma ea]; cbn in Ha; try tauto.
  - apply SFleb_plus_zero_l. exact Hp'.
  - destruct a' as [[ | ] | [ | ] | | [ | ] ma' ea']; cbn in Ha'; try tauto;
      try discriminate Hle; reflexivity.
  - destruct a' as [[ | ] | [ | ] | | [ | ] ma' ea']; cbn in Ha'; try tauto;
      try discriminate Hle.
    + apply SFleb_plus_inf_r. exact Hp.
    + pose proof (value_of_SFleb _ _ _ _ Va Va' Hle) as Hv.
      pose proof (value_of_SFleb _ _ _ _ Vb' Vb Hleb) as Hvb.
      pose proof (SF2Q_pos ma ea). pose proof (SF2Q_pos mb' eb').
      apply (rounds_to_mono
               (SF2Q (S754_finite false ma ea) / SF2Q (S754_finite false mb eb))
               (SF2Q (S754_finite false ma' ea') /
                SF2Q (S754_finite false mb' eb'))).
      * apply Qdiv_nonneg; lra.
      * apply Qdiv_le_compat; split; lra.
      * apply SFdiv_rounds.
      * apply SFdiv_rounds.
Qed.

Lemma SFadd_plus (a b : spec_float) :
  SF_pos a -> SF_pos b -> SF_plus (SF64add a b).
Proof.
  intros Ha Hb.
  destruct a as [sa | sa | | [ | ] ma ea]; cbn in Ha; try tauto.
  destruct b as [sb | sb | | [ | ] mb eb]; cbn in Hb; try tauto.
  apply (rounds_to_plus
           (SF2Q (S754_finite false ma ea) + SF2Q (S754_finite false mb eb))).
  - pose proof (SF2Q_pos ma ea). pose proof (SF2Q_pos mb eb). lra.
  - apply SFadd_rounds.
Qed.

Lemma SFadd_mono (a b b' : spec_float) :
  valid_binary b = true -> valid_binary b' = true ->
  SF_pos a -> SF_pos b -> SF_pos b' -> SFleb b b' = true ->
  SFleb (SF64add a b) (SF64add a b') = true.
Proof.
  intros Vb Vb' Ha Hb Hb' Hle.
  destruct a as [sa | sa | | [ | ] ma ea]; cbn in Ha; try tauto.
  destruct b as [sb | sb | | [ | ] mb eb]; cbn in Hb; try tauto.
  destruct b' as [sb' | sb' | | [ | ] mb' eb']; cbn in Hb'; try tauto.
  pose proof (value_of_SFleb _ _ _ _ Vb Vb' Hle) as Hv.
  pose proof (SF2Q_pos ma ea). pose proof (SF2Q_pos mb eb).
  apply (rounds_to_mono
           (SF2Q (S754_finite false ma ea) + SF2Q (S754_finite false mb eb))
           (SF2Q (S754_finite false ma ea) + SF2Q (S754_finite false mb' eb'))).
  - lra.
  - lra.
  - apply SFadd_rounds.
  - apply SFadd_rounds.
Qed.

(** ** Monotonicity of the operations on floats *)

(** On floats that are neither negative nor NaN, multiplication grows
    with both factors, division grows with the dividend and shrinks as the
    divisor grows, addition grows with the term added, and so does
    [round(., 1)]. *)
Lemma fle_mul (x x' y y' : float) :
  fle x x' -> ple y y' -> fle (PrimFloat.mul x y) (PrimFloat.mul x' y').
Proof.
  intros (Hx & Hx' & Hle) (Hy & Hy' & Hley). unfold fle.
  rewrite leb_spec in *. rewrite !mul_spec.
  pose proof (Prim2SF_valid x). pose proof (Prim2SF_valid x').
  pose proof (Prim2SF_valid y). pose proof (Prim2SF_valid y').
  split; [apply SFmul_plus; assumption | ].
  split; [apply SFmul_plus; assumption | ].
  apply SFmul_mono; assumption.
Qed.

Lemma fle_div (x x' y y' : float) :
  fle x x' -> ple y' y -> fle (PrimFloat.div x y) (PrimFloat.div x' y').
Proof.
  intros (Hx & Hx' & Hle) (Hy' & Hy & Hley). unfold fle.
  rewrite leb_spec in *. rewrite !div_spec.
  pose proof (Prim2SF_valid x). pose proof (Prim2SF_valid x').
  pose proof (Prim2SF_valid y). pose proof (Prim2SF_valid y').
  split; [apply SFdiv_plus; assumption | ].
  split; [apply SFdiv_plus; assumption | ].
  apply SFdiv_mono; assumption.
Qed.

Lemma fle_add (a y y' : float) :
  SF_pos (Prim2SF a) -> ple y y' ->
  fle (PrimFloat.add a y) (PrimFloat.add a y').
Proof.
  intros Ha (Hy & Hy' & Hley). unfold fle.
  rewrite leb_spec in *. rewrite !add_spec.
  pose proof (Prim2SF_valid y). pose proof (Prim2SF_valid y').
  split; [apply SFadd_plus; assumption | ].
  split; [apply SFadd_plus; assumption | ].
  apply SFadd_mono; assumption.
Qed.

Lemma float_round1_plus (x : float) :
  SF_plus (Prim2SF x) -> SF_plus (Prim2SF (float_round1 x)).
Proof.
  intros Hx.
  destruct (Prim2SF x) as [[ | ] | [ | ] | | [ | ] m e] eqn:E; cbn in Hx; try tauto.
  - unfold float_round1. rewrite E, E. exact I.
  - unfold float_round1. rewrite E, E. exact I.
  - destruct (float_round1_rounds x m e E) as (_ & Hn & Hr).
    apply (rounds_to_plus _ _) with (2 := Hr).
    assert (0 <= inject_Z (round_half_even (SF2Q (S754_finite false m e) * 10))).
    { change 0 with (inject_Z 0). rewrite <- Zle_Qle. exact Hn. }
    lra.
Qed.

Lemma fle_round1 (x x' : float) :
  fle x x' -> fle (float_round1 x) (float_round1 x').
Proof.
  intros (Hx & Hx' & Hle). unfold fle.
  split; [apply float_round1_plus; exact Hx | ].
  split; [apply float_round1_plus; exact Hx' | ].
  pose proof (float_round1_plus x Hx) as Hp.
  pose proof (float_round1_plus x' Hx') as Hp'.
  pose proof (Prim2SF_valid x) as V. pose proof (Prim2SF_valid x') as V'.
  rewrite leb_spec in *.
  destruct (Prim2SF x) as [[ | ] | [ | ] | | [ | ] m e] eqn:E; cbn in Hx; try tauto.
  - assert (E0 : Prim2SF (float_round1 x) = S754_zero false).
    { unfold float_round1. rewrite E. exact E. }
    rewrite E0. apply SFleb_plus_zero_l. exact Hp'.
  - destruct (Prim2SF x') as [[ | ] | [ | ] | | [ | ] m' e'] eqn:E'; cbn in Hx';
      try tauto; try discriminate Hle;
      unfold float_round1; rewrite E, E', E, E'; reflexivity.
  - destruct (Prim2SF x') as [[ | ] | [ | ] | | [ | ] m' e'] eqn:E'; cbn in Hx';
      try tauto; try discriminate Hle.
    + assert (E0 : Prim2SF (float_round1 x') = S754_infinity false).
      { unfold float_round1. rewrite E'. exact E'. }
      rewrite E0. apply SFleb_plus_inf_r. exact Hp.
    + destruct (float_round1_rounds x m e E) as (_ & Hn & Hr).
      destruct (float_round1_rounds x' m' e' E') as (_ & Hn' & Hr').
      pose proof (value_of_SFleb _ _ _ _ V V' Hle) as Hv.
      apply (rounds_to_mono _ _ _ _) with (3 := Hr) (4 := Hr').
      * assert (0 <= inject_Z (round_half_even (SF2Q (S754_finite false m e) * 10))).
        { change 0 with (inject_Z 0). rewrite <- Zle_Qle. exact Hn. }
        lra.
      * assert (Hz : (round_half_even (SF2Q (S754_finite false m e) * 10) <=
                      round_half_even (SF2Q (S754_finite false m' e') * 10))%Z).
        { apply round_half_even_mono. lra. }
        rewrite Zle_Qle in Hz. lra.
Qed.

Lemma ple_fle (x y : float) : ple x y -> fle x y.
Proof.
  intros (Hx & Hy & H). split; [apply SF_pos_plus, Hx | ].
  split; [apply SF_pos_plus, Hy | exact H].
Qed.

Lemma ple_refl (x : float) : SF_pos (Prim2SF x) -> ple x x.
Proof.
  intros Hx. split; [exact Hx | ]. split; [exact Hx | ].
  rewrite leb_spec.
  destruct (Prim2SF x) as [? | ? | | [ | ] m e]; cbn in Hx; try tauto.
  apply SFleb_finite. lia.
Qed.

Lemma ple_of_range (lo hi x x' : float) :
  PrimFloat.ltb 0%float lo = true -> PrimFloat.ltb hi infinity = true ->
  in_range lo hi x = true -> in_range lo hi x' = true ->
  PrimFloat.leb x x' = true -> ple x x'.
Proof.
  intros Hlo Hhi Hx Hx' Hle.
  split; [exact (pos_of_range lo hi x Hlo Hhi Hx) | ].
  split; [exact (pos_of_range lo hi x' Hlo Hhi Hx') | exact Hle].
Qed.

(** The loss factor [1 + system_losses] stays within [1.1, 1.3]. *)
Lemma loss_factor_range (l : float) :
  in_range 0.1%float 0.3%float l = true ->
  in_range 1.1%float 1.3%float (PrimFloat.add 1 l) = true.
Proof.
  intros Hy.
  pose proof (pos_of_range 0.1%float 0.3%float l eq_refl eq_refl Hy) as Hp.
  unfold in_range in *. apply andb_prop in Hy. destruct Hy as [H1 H2].
  apply andb_true_intro. split.
  - change 1.1%float with (PrimFloat.add 1 0.1)%float.
    apply (fle_add 1%float 0.1%float l); [exact I | ].
    split; [exact I | split; [exact Hp | exact H1]].
  - change 1.3%float with (PrimFloat.add 1 0.3)%float.
    apply (fle_add 1%float l 0.3%float); [exact I | ].
    split; [exact Hp | split; [exact I | exact H2]].
Qed.

(** The loss factors of two runs. *)
Lemma ple_loss_factor (l l' : float) :
  in_range 0.1%float 0.3%float l = true ->
  in_range 0.1%float 0.3%float l' = true ->
  PrimFloat.leb l l' = true ->
  ple (PrimFloat.add 1 l) (PrimFloat.add 1 l').
Proof.
  intros Hl Hl' Hle.
  apply (ple_of_range 1.1%float 1.3%float); try reflexivity.
  - apply loss_factor_range, Hl.
  - apply loss_factor_range, Hl'.
  - apply (fle_add 1%float l l'); [exact I | ].
    apply (ple_of_range 0.1%float 0.3%float); try reflexivity; assumption.
Qed.

(** ** Finiteness and equality of floats *)

Lemma is_finite_iff (x : float) :
  PrimFloat.is_finite x = true <-> SF_is_finite (Prim2SF x).
Proof.
  unfold PrimFloat.is_finite, PrimFloat.is_nan, PrimFloat.is_infinity.
  rewrite !FloatAxioms.eqb_spec, abs_spec.
  change (Prim2SF infinity) with (S754_infinity false).
  destruct (Prim2SF x) as [[ | ] | [ | ] | | [ | ] m e]; cbn; try tauto;
    try (split; [discriminate | tauto]).
  - split; [reflexivity | ]. intros _.
    unfold SFeqb, SFcompare. rewrite Z.compare_refl, Pos.compare_cont_refl. reflexivity.
  - split; [reflexivity | ]. intros _.
    unfold SFeqb, SFcompare. rewrite Z.compare_refl, Pos.compare_cont_refl. reflexivity.
Qed.

Lemma Prim2SF_inj (x y : float) : Prim2SF x = Prim2SF y -> x = y.
Proof.
  intros H. rewrite <- (SF2Prim_Prim2SF x), <- (SF2Prim_Prim2SF y), H.
  reflexivity.
Qed.

(** ** Doubling commutes with rounding in the normal range *)

Lemma cexp_of_double (x : Q) (e : Z) :
  pow2 (-1022) <= x -> cexp_of x e -> cexp_of (2 * x) (e + 1).
Proof.
  intros Hx [[-> H] | (He & H1 & H2)]; right.
  - split; [lia | ]. change (-1074 + 1 + 52)%Z with (-1022 + 1)%Z.
    change (-1074 + 1 + 53)%Z with (-1021 + 1)%Z.
    rewrite !pow2_succ. split; lra.
  - split; [lia | ].
    replace (e + 1 + 52)%Z with (e + 52 + 1)%Z by lia.
    replace (e + 1 + 53)%Z with (e + 53 + 1)%Z by lia.
    rewrite !pow2_succ. split; lra.
Qed.

Lemma mantissa_normal (x : Q) (e : Z) :
  pow2 (-1022) <= x -> cexp_of x e ->
  (2 ^ 52 <= round_half_even (x * pow2 (- e)) <= 2 ^ 53)%Z.
Proof.
  intros Hx Hc.
  assert (H0 : 0 <= x) by (pose proof (pow2_pos (-1022)); lra).
  destruct (cexp_of_mantissa x e H0 Hc) as [[_ Hhi] Hnorm].
  split; [ | exact Hhi].
  destruct (Z.eq_dec e (-1074)) as [-> | Hne].
  - rewrite <- (round_half_even_pow2 52) by lia. apply round_half_even_mono.
    apply pow2_unscale_le. rewrite <- pow2_add. exact Hx.
  - apply Hnorm. pose proof (cexp_of_ge x e Hc). lia.
Qed.

(** In the normal range and short of overflow, the rounding of [2 * x] is
    twice the rounding of [x]: the same mantissa at the next exponent. *)
Theorem rounds_to_double (x : Q) (y y2 : spec_float) :
  pow2 (-1022) <= x -> rounds_to x y -> rounds_to (2 * x) y2 ->
  SF_is_finite y2 ->
  exists (m : positive) (e : Z),
    y = S754_finite false m e /\ y2 = S754_finite false m (e + 1).
Proof.
  intros Hx (e & Hc & ->) (e2 & Hc2 & ->) Hfin.
  pose proof (cexp_of_double x e Hx Hc) as Hc'.
  rewrite (cexp_of_unique _ _ _ _ (Qeq_refl _) Hc2 Hc') in *.
  assert (En : round_half_even (2 * x * pow2 (- (e + 1))) =
               round_half_even (x * pow2 (- e))).
  { apply round_half_even_comp.
    replace (- (e + 1))%Z with (- e - 1)%Z by lia.
    rewrite pow2_pred. ring. }
  rewrite En in *.
  pose proof (mantissa_normal x e Hx Hc) as [Hlo Hhi].
  destruct (round_half_even (x * pow2 (- e))) as [ | m | m]; try lia.
  unfold round_result in *.
  destruct (Z.eqb_spec (Zpos m) 9007199254740992) as [E | E].
  - destruct (Z.leb_spec (e + 1 + 1) 971) as [H | H]; [ | contradiction].
    destruct (Z.leb_spec (e + 1) 971) as [H' | H']; [ | lia].
    eexists _, _. split; reflexivity.
  - destruct (Z.leb_spec (e + 1) 971) as [H | H]; [ | contradiction].
    destruct (Z.leb_spec e 971) as [H' | H']; [ | lia].
    eexists _, _. split; reflexivity.
Qed.

(** A lower bound by a power of two survives rounding. *)
Lemma rounds_to_above (x : Q) (k : Z) (m : positive) (e : Z) :
  (-1022 <= k <= 1023)%Z -> pow2 k <= x ->
  rounds_to x (S754_finite false m e) ->
  pow2 k <= SF2Q (S754_finite false m e).
Proof.
  intros Hk Hx Hr.
  assert (H0 : 0 <= x) by (pose proof (pow2_pos k); lra).
  assert (Hv : valid_binary (S754_finite false 4503599627370496 (k - 52)) = true).
  { apply valid_finite_iff.
    change (Zpos (digits2_pos 4503599627370496)) with 53%Z. lia. }
  assert (Ev : SF2Q (S754_finite false 4503599627370496 (k - 52)) == pow2 k).
  { rewrite SF2Q_finite. change (inject_Z 4503599627370496) with (pow2 52).
    rewrite <- pow2_add. replace (52 + (k - 52))%Z with k by lia. reflexivity. }
  pose proof (rounds_to_self _ _ Hv) as Hs.
  pose proof (rounds_to_mono _ x _ _ (Qlt_le_weak _ _ (SF2Q_pos _ _))
                ltac:(rewrite Ev; exact Hx) Hs Hr) as Hle.
  pose proof (value_of_SFleb _ _ _ _ Hv (rounds_to_valid _ _ H0 Hr) Hle) as Hval.
  rewrite Ev in Hval. exact Hval.
Qed.

(** ** Doubling along the operations of the body *)

Lemma doubled_fval (x x2 : float) :
  doubled x x2 -> fval x2 == 2 * fval x /\ 0 < fval x.
Proof.
  intros (m & e & E & E2). unfold fval. rewrite E, E2. split.
  - rewrite !SF2Q_finite, pow2_succ. ring.
  - apply SF2Q_pos.
Qed.

Lemma SF_pos_inv (x : spec_float) :
  SF_pos x -> exists m e, x = S754_finite false m e.
Proof.
  destruct x as [? | ? | | [ | ] m e]; cbn; try tauto. intros _. eauto.
Qed.

(** Multiplying by [y], or dividing by it, keeps one result twice the
    other, as long as the smaller exact result is normal and the larger
    rounded one is finite. *)
Lemma doubled_above_mul (k k' : Z) (c : Q) (x x2 y : float) :
  doubled_above k x x2 -> SF_pos (Prim2SF y) ->
  c <= fval y -> 0 <= c -> pow2 k' <= pow2 k * c ->
  (-1022 <= k' <= 1023)%Z ->
  SF_is_finite (Prim2SF (PrimFloat.mul x2 y)) ->
  doubled_above k' (PrimFloat.mul x y) (PrimFloat.mul x2 y).
Proof.
  intros [Hd Hk] Hy Hc Hc0 Hkk Hk' Hfin.
  destruct (doubled_fval x x2 Hd) as [Ev2 Hpos].
  pose proof (Prim2SF_valid x) as Vx. pose proof (Prim2SF_valid x2) as Vx2.
  pose proof (Prim2SF_valid y) as Vy.
  destruct Hd as (m & e & E & E2).
  destruct (SF_pos_inv _ Hy) as (my & ey & Ey).
  unfold fval in *. rewrite mul_spec in Hfin.
  assert (R1 : rounds_to (SF2Q (Prim2SF x) * SF2Q (Prim2SF y))
                 (Prim2SF (PrimFloat.mul x y))).
  { rewrite mul_spec. rewrite E, Ey in *. apply SFmul_rounds; assumption. }
  assert (R2 : rounds_to (2 * (SF2Q (Prim2SF x) * SF2Q (Prim2SF y)))
                 (Prim2SF (PrimFloat.mul x2 y))).
  { rewrite mul_spec.
    apply (rounds_to_comp (SF2Q (Prim2SF x2) * SF2Q (Prim2SF y))).
    - rewrite Ev2. ring.
    - rewrite E2, Ey in *. apply SFmul_rounds; assumption. }
  assert (Hlow : pow2 k' <= SF2Q (Prim2SF x) * SF2Q (Prim2SF y)).
  { pose proof (pow2_pos k). nra. }
  assert (Hlow' : pow2 (-1022) <= SF2Q (Prim2SF x) * SF2Q (Prim2SF y)).
  { apply Qle_trans with (pow2 k'); [apply pow2_le; lia | exact Hlow]. }
  rewrite <- mul_spec in Hfin.
  destruct (rounds_to_double _ _ _ Hlow' R1 R2 Hfin) as (m' & e' & E' & E2').
  split.
  - exists m', e'. split; assumption.
  - unfold fval. rewrite E' in R1 |- *.
    apply (rounds_to_above _ k' m' e' Hk' Hlow R1).
Qed.

Lemma doubled_above_div (k k' : Z) (c : Q) (x x2 y : float) :
  doubled_above k x x2 -> SF_pos (Prim2SF y) ->
  fval y <= c -> pow2 k' * c <= pow2 k ->
  (-1022 <= k' <= 1023)%Z ->
  SF_is_finite (Prim2SF (PrimFloat.div x2 y)) ->
  doubled_above k' (PrimFloat.div x y) (PrimFloat.div x2 y).
Proof.
  intros [Hd Hk] Hy Hc Hkk Hk' Hfin.
  destruct (doubled_fval x x2 Hd) as [Ev2 Hpos].
  destruct Hd as (m & e & E & E2).
  destruct (SF_pos_inv _ Hy) as (my & ey & Ey).
  unfold fval in *.
  assert (Hyp : 0 < SF2Q (Prim2SF y)) by (rewrite Ey; apply SF2Q_pos).
  assert (R1 : rounds_to (SF2Q (Prim2SF x) / SF2Q (Prim2SF y))
                 (Prim2SF (PrimFloat.div x y))).
  { rewrite div_spec. rewrite E, Ey in *. apply SFdiv_rounds. }
  assert (R2 : rounds_to (2 * (SF2Q (Prim2SF x) / SF2Q (Prim2SF y)))
                 (Prim2SF (PrimFloat.div x2 y))).
  { rewrite div_spec.
    apply (rounds_to_comp (SF2Q (Prim2SF x2) / SF2Q (Prim2SF y))).
    - rewrite Ev2. field. lra.
    - rewrite E2, Ey in *. apply SFdiv_rounds. }
  assert (Hlow : pow2 k' <= SF2Q (Prim2SF x) / SF2Q (Prim2SF y)).
  { apply Qle_shift_div_l; [exact Hyp | ].
    pose proof (pow2_pos k'). nra. }
  assert (Hlow' : pow2 (-1022) <= SF2Q (Prim2SF x) / SF2Q (Prim2SF y)).
  { apply Qle_trans with (pow2 k'); [apply pow2_le; lia | exact Hlow]. }
  destruct (rounds_to_double _ _ _ Hlow' R1 R2 Hfin) as (m' & e' & E' & E2').
  split.
  - exists m', e'. split; assumption.
  - unfold fval. rewrite E' in R1 |- *.
    apply (rounds_to_above _ k' m' e' Hk' Hlow R1).
Qed.

(** Twice a float that is neither subnormal nor too large. *)
Lemma doubled_above_mul2 (k : Z) (x : float) :
  SF_pos (Prim2SF x) -> pow2 k <= fval x -> (-1022 <= k)%Z ->
  SF_is_finite (Prim2SF (PrimFloat.mul 2 x)) ->
  doubled_above k x (PrimFloat.mul 2 x).
Proof.
  intros Hx Hk Hk' Hfin. split; [ | exact Hk].
  destruct (SF_pos_inv _ Hx) as (m & e & E).
  pose proof (Prim2SF_valid x) as Vx. unfold fval in Hk. rewrite E in *.
  assert (R1 : rounds_to (SF2Q (S754_finite false m e)) (Prim2SF x)).
  { rewrite E. apply rounds_to_self. exact Vx. }
  assert (R2 : rounds_to (2 * SF2Q (S754_finite false m e))
                 (Prim2SF (PrimFloat.mul 2 x))).
  { rewrite mul_spec, E.
    change (Prim2SF 2) with (S754_finite false 4503599627370496 (-51)).
    apply (rounds_to_comp (SF2Q (S754_finite false 4503599627370496 (-51)) *
                           SF2Q (S754_finite false m e))).
    - apply Qmult_comp; [reflexivity | reflexivity].
    - apply SFmul_rounds; [reflexivity | exact Vx]. }
  assert (Hlow : pow2 (-1022) <= SF2Q (S754_finite false m e)).
  { apply Qle_trans with (pow2 k); [apply pow2_le; lia | exact Hk]. }
  destruct (rounds_to_double _ _ _ Hlow R1 R2 Hfin) as (m' & e' & E' & E2').
  exists m', e'. rewrite E in E'. split; [ | exact E2'].
  rewrite E. exact E'.
Qed.

(** A float with the mantissa of [x] at the next exponent is [2 * x] as
    computed on floats. *)
Lemma doubled_eq_mul2 (x x2 : float) :
  doubled x x2 -> x2 = PrimFloat.mul 2 x.
Proof.
  intros (m & e & E & E2). apply Prim2SF_inj.
  pose proof (Prim2SF_valid x) as Vx. pose proof (Prim2SF_valid x2) as Vx2.
  rewrite E in Vx. rewrite E2 in Vx2 |- *.
  apply (rounds_to_unique (SF2Q (S754_finite false m (e + 1)))
           (SF2Q (S754_finite false 4503599627370496 (-51)) *
            SF2Q (S754_finite false m e))).
  - rewrite !SF2Q_finite, pow2_succ.
    assert (E2q : inject_Z 4503599627370496 * pow2 (-51) == 2) by reflexivity.
    rewrite E2q. ring.
  - apply rounds_to_self. exact Vx2.
  - rewrite mul_spec, E.
    change (Prim2SF 2) with (S754_finite false 4503599627370496 (-51)).
    apply SFmul_rounds; [reflexivity | exact Vx].
Qed.

(** ** An infinite operand gives an infinite result *)

Lemma finite_mul_inv (x y : float) :
  SF_plus (Prim2SF x) -> SF_pos (Prim2SF y) ->
  SF_is_finite (Prim2SF (PrimFloat.mul x y)) -> SF_is_finite (Prim2SF x).
Proof.
  rewrite mul_spec. intros Hx Hy.
  destruct (SF_pos_inv _ Hy) as (my & ey & ->).
  destruct (Prim2SF x) as [[ | ] | [ | ] | | [ | ] m e]; cbn in *; tauto.
Qed.

Lemma finite_div_inv (x y : float) :
  SF_plus (Prim2SF x) -> SF_pos (Prim2SF y) ->
  SF_is_finite (Prim2SF (PrimFloat.div x y)) -> SF_is_finite (Prim2SF x).
Proof.
  rewrite div_spec. intros Hx Hy.
  destruct (SF_pos_inv _ Hy) as (my & ey & ->).
  destruct (Prim2SF x) as [[ | ] | [ | ] | | [ | ] m e]; cbn in *; tauto.
Qed.

Lemma plus_mul (x y : float) :
  SF_plus (Prim2SF x) -> SF_pos (Prim2SF y) ->
  SF_plus (Prim2SF (PrimFloat.mul x y)).
Proof.
  intros Hx Hy. rewrite mul_spec.
  apply SFmul_plus; try apply Prim2SF_valid; assumption.
Qed.

Lemma plus_div (x y : float) :
  SF_plus (Prim2SF x) -> SF_pos (Prim2SF y) ->
  SF_plus (Prim2SF (PrimFloat.div x y)).
Proof.
  intros Hx Hy. rewrite div_spec. apply SFdiv_plus; assumption.
Qed.

(** ** Values of floats within a range *)

Lemma fval_of_leb (x y : float) :
  SF_pos (Prim2SF x) -> SF_pos (Prim2SF y) ->
  PrimFloat.leb x y = true -> fval x <= fval y.
Proof.
  intros Hx Hy Hle. rewrite leb_spec in Hle. unfold fval.
  pose proof (Prim2SF_valid x) as Vx. pose proof (Prim2SF_valid y) as Vy.
  destruct (SF_pos_inv _ Hx) as (mx & ex & Ex).
  destruct (SF_pos_inv _ Hy) as (my & ey & Ey).
  rewrite Ex, Ey in *. apply value_of_SFleb; assumption.
Qed.

Lemma fval_of_range (lo hi x : float) :
  PrimFloat.ltb 0%float lo = true -> PrimFloat.ltb hi infinity = true ->
  in_range lo hi x = true ->
  SF_pos (Prim2SF x) /\ fval lo <= fval x /\ fval x <= fval hi.
Proof.
  intros Hlo Hhi Hx.
  pose proof (pos_of_range lo hi x Hlo Hhi Hx) as Hp.
  unfold in_range in Hx. apply andb_prop in Hx. destruct Hx as [H1 H2].
  assert (Plo : SF_pos (Prim2SF lo)).
  { rewrite ltb_spec in Hlo. rewrite leb_spec in H1.
    change (Prim2SF 0) with (S754_zero false) in Hlo.
    destruct (SF_pos_inv _ Hp) as (mx & ex & Ex). rewrite Ex in H1.
    destruct (Prim2SF lo) as [? | [ | ] | | [ | ] m e];
      try discriminate Hlo; try discriminate H1. exact I. }
  assert (Phi : SF_pos (Prim2SF hi)).
  { rewrite leb_spec in H2. rewrite ltb_spec in Hhi.
    change (Prim2SF infinity) with (S754_infinity false) in Hhi.
    destruct (SF_pos_inv _ Hp) as (mx & ex & Ex). rewrite Ex in H2.
    destruct (Prim2SF hi) as [? | [ | ] | | [ | ] mh eh];
      try discriminate H2; try discriminate Hhi. exact I. }
  split; [exact Hp | ]. split; apply fval_of_leb; assumption.
Qed.

(** ** Nearest floats *)

Lemma Qabs_le_of (a b : Q) : - b <= a -> a <= b -> Qabs a <= b.
Proof. intros H1 H2. apply Qabs_Qle_condition. split; assumption. Qed.

Lemma Qabs_ge_l (a b : Q) : b <= a -> b <= Qabs a.
Proof. intros H. apply Qle_trans with a; [exact H | apply Qle_Qabs]. Qed.

Lemma Qabs_ge_r (a b : Q) : b <= - a -> b <= Qabs a.
Proof.
  intros H. rewrite <- Qabs_opp.
  apply Qle_trans with (- a); [exact H | apply Qle_Qabs].
Qed.

(** The nearest integer is at least as near as any other, at any scale. *)
Lemma round_half_even_nearest (t P : Q) (k : Z) :
  0 < P ->
  Qabs (inject_Z (round_half_even t) * P - t * P) <=
  Qabs (inject_Z k * P - t * P).
Proof.
  intros HP.
  pose proof (round_half_even_bounds t) as [H1 H2].
  set (n := round_half_even t) in *.
  destruct (Z.lt_trichotomy k n) as [Hlt | [-> | Hgt]].
  - assert (Hq : inject_Z k + 1 <= inject_Z n).
    { change 1 with (inject_Z 1). rewrite <- inject_Z_plus, <- Zle_Qle. lia. }
    apply Qle_trans with (P * (1 # 2)).
    + apply Qabs_le_of; nra.
    + apply Qabs_ge_r. nra.
  - apply Qle_refl.
  - assert (Hq : inject_Z n + 1 <= inject_Z k).
    { change 1 with (inject_Z 1). rewrite <- inject_Z_plus, <- Zle_Qle. lia. }
    apply Qle_trans with (P * (1 # 2)).
    + apply Qabs_le_of; nra.
    + apply Qabs_ge_l. nra.
Qed.

Lemma round_result_value (n e : Z) :
  (0 <= n)%Z -> SF_is_finite (round_result n e) ->
  SF2Q (round_result n e) == inject_Z n * pow2 e.
Proof.
  intros Hn. unfold round_result. destruct n as [ | m | m]; [ | | lia].
  - intros _. cbn. ring.
  - destruct (Z.eqb_spec (Zpos m) 9007199254740992) as [E | E].
    + destruct (Z.leb_spec (e + 1) 971); [ | contradiction]. intros _.
      rewrite SF2Q_finite, E, pow2_succ.
      change (inject_Z 9007199254740992) with (2 * inject_Z 4503599627370496).
      ring.
    + destruct (Z.leb_spec e 971); [ | contradiction]. intros _.
      rewrite SF2Q_finite. reflexivity.
Qed.

Lemma valid_mantissa_lt (m : positive) (e : Z) :
  valid_binary (S754_finite false m e) = true ->
  inject_Z (Zpos m) + 1 <= pow2 53.
Proof.
  intros Hv. apply valid_finite_iff in Hv. destruct Hv as (Hd & _).
  destruct (Zdigits2_bounds (Zpos m) ltac:(lia)) as [[_ Hlt] _].
  cbn [Zdigits2] in Hlt.
  assert (Hz : (Zpos m + 1 <= 2 ^ 53)%Z).
  { assert (2 ^ Zpos (digits2_pos m) <= 2 ^ 53)%Z by (apply Z.pow_le_mono_r; lia).
    lia. }
  rewrite Zle_Qle, inject_Z_plus in Hz. rewrite pow2_inject by lia. exact Hz.
Qed.

(** A finite rounding is at least as near to the value as any finite
    float. *)
Theorem rounds_to_nearest (x : Q) (r f : spec_float) :
  0 <= x -> rounds_to x r -> SF_is_finite r ->
  valid_binary f = true -> SF_is_finite f ->
  Qabs (SF2Q r - x) <= Qabs (SF2Q f - x).
Proof.
  intros Hx (e & Hc & ->) Hfin Hv Hf.
  destruct (cexp_of_mantissa x e Hx Hc) as [[Hn0 _] _].
  pose proof (round_result_value _ e Hn0 Hfin) as Ev.
  pose proof (pow2_pos e) as HP.
  assert (Ex : x == x * pow2 (- e) * pow2 e).
  { rewrite <- Qmult_assoc, pow2_neg_mul. ring. }
  assert (Hk : forall k : Z,
             Qabs (SF2Q (round_result (round_half_even (x * pow2 (- e))) e) - x) <=
             Qabs (inject_Z k * pow2 e - x)).
  { intros k. rewrite Ev.
    pose proof (round_half_even_nearest (x * pow2 (- e)) (pow2 e) k HP) as H.
    rewrite <- Ex in H. exact H. }
  destruct f as [sf | sf | | sf m' e']; cbn in Hf; try contradiction.
  - specialize (Hk 0%Z). change (inject_Z 0) with 0 in Hk.
    cbn [SF2Q]. setoid_replace (0 * pow2 e - x) with (0 - x) in Hk by ring.
    exact Hk.
  - destruct sf.
    + (* negative: zero is nearer *)
      specialize (Hk 0%Z). change (inject_Z 0) with 0 in Hk.
      apply Qle_trans with (Qabs (0 * pow2 e - x)); [exact Hk | ].
      assert (Hneg : SF2Q (S754_finite true m' e') < 0).
      { cbn [SF2Q cond_Zopp].
        assert (inject_Z (- Zpos m') < 0)
          by (change 0 with (inject_Z 0); rewrite <- Zlt_Qlt; lia).
        pose proof (pow2_pos e'). unfold pow2 in *. nra. }
      apply Qle_trans with x.
      * apply Qabs_le_of; lra.
      * apply Qabs_ge_r. lra.
    + destruct (Z.le_gt_cases e e') as [Hle | Hgt].
      * (* a multiple of the unit of [r] *)
        specialize (Hk (Zpos m' * 2 ^ (e' - e))%Z).
        rewrite inject_Z_mult, <- pow2_inject in Hk by lia.
        rewrite SF2Q_finite.
        assert (E' : pow2 e' == pow2 (e' - e) * pow2 e).
        { rewrite <- pow2_add. replace (e' - e + e)%Z with e' by lia. reflexivity. }
        rewrite E'. rewrite <- Qmult_assoc in Hk. exact Hk.
      * (* below the binade of [x] *)
        pose proof (proj1 (valid_finite_iff m' e') Hv) as (_ & He' & _).
        pose proof (valid_mantissa_lt m' e' Hv) as Hm.
        pose proof (cexp_of_normal x e Hc ltac:(lia)) as Hnorm.
        apply pow2_scale_le in Hnorm.
        specialize (Hk (2 ^ 52)%Z). rewrite <- pow2_inject in Hk by lia.
        apply Qle_trans with (Qabs (pow2 52 * pow2 e - x)); [exact Hk | ].
        assert (Hv' : SF2Q (S754_finite false m' e') <= pow2 52 * pow2 e).
        { rewrite SF2Q_finite.
          apply Qle_trans with (pow2 53 * pow2 e').
          - pose proof (pow2_pos e'). nra.
          - rewrite <- !pow2_add. apply pow2_le. lia. }
        apply Qle_trans with (x - pow2 52 * pow2 e).
        -- apply Qabs_le_of; lra.
        -- apply Qabs_ge_r. lra.
Qed.

Lemma SF_max_valid : valid_binary SF_max = true.
Proof. reflexivity. Qed.

Lemma SF2Q_le_max (m : positive) (e : Z) :
  valid_binary (S754_finite false m e) = true ->
  SF2Q (S754_finite false m e) <= SF2Q SF_max.
Proof.
  intros Hv. pose proof (valid_mantissa_lt m e Hv) as Hm.
  apply valid_finite_iff in Hv. destruct Hv as (_ & He & _).
  unfold SF_max. rewrite !SF2Q_finite.
  assert (E : inject_Z 9007199254740991 + 1 == pow2 53) by reflexivity.
  assert (Hp : pow2 e <= pow2 971) by (apply pow2_le; lia).
  pose proof (pow2_pos e). pose proof (inject_Z_pos m). nra.
Qed.

(** A value that is at most the largest float rounds to a finite float. *)
Lemma rounds_to_finite (x : Q) (r : spec_float) :
  0 <= x -> x <= SF2Q SF_max -> rounds_to x r -> SF_is_finite r.
Proof.
  intros Hx Hle Hr.
  pose proof (rounds_to_plus x r Hx Hr) as Hp.
  pose proof (rounds_to_mono x _ r SF_max Hx Hle Hr
                (rounds_to_self _ _ SF_max_valid)) as H.
  destruct r as [[ | ] | [ | ] | | [ | ] m e]; cbn in Hp; try contradiction;
    try exact I.
  discriminate H.
Qed.

Lemma tenths_le_max (m : positive) (e : Z) :
  valid_binary (S754_finite false m e) = true ->
  inject_Z (round_half_even (SF2Q (S754_finite false m e) * 10)) * (1 # 10)
  <= SF2Q SF_max.
Proof.
  intros Hv. pose proof (SF2Q_le_max m e Hv) as Hle.
  assert (Emax : SF2Q SF_max * 10 ==
                 inject_Z (9007199254740991 * 2 ^ 971 * 10)).
  { unfold SF_max. rewrite SF2Q_finite, !inject_Z_mult, <- pow2_inject by lia.
    reflexivity. }
  assert (Hz : (round_half_even (SF2Q (S754_finite false m e) * 10) <=
                9007199254740991 * 2 ^ 971 * 10)%Z).
  { rewrite <- (round_half_even_integer (9007199254740991 * 2 ^ 971 * 10)).
    apply round_half_even_mono. rewrite <- Emax. lra. }
  rewrite Zle_Qle, <- Emax in Hz. lra.
Qed.

Lemma Prim2SF_zero_inv (x : float) :
  Prim2SF x = S754_zero false -> x = tenths_to_float false 0.
Proof.
  intros E. apply Prim2SF_inj. rewrite E. reflexivity.
Qed.

Lemma Prim2SF_inf_inv (x : float) :
  Prim2SF x = S754_infinity false -> x = infinity.
Proof.
  intros E. apply Prim2SF_inj. rewrite E. reflexivity.
Qed.

Lemma leb_0_of_plus (x : float) :
  SF_plus (Prim2SF x) -> PrimFloat.leb 0%float x = true.
Proof. intros H. apply leb_0_of_nonneg, SF_plus_nonneg, H. Qed.

Lemma Qmake_tenths (n : Z) : n # 10 == inject_Z n * (1 # 10).
Proof. unfold Qeq, Qmult, inject_Z; cbn. lia. Qed.

(** [round(x, 1)] on floats that are neither negative nor NaN. *)
Theorem float_round1_tenth (x : float) :
  SF_plus (Prim2SF x) -> rounded_to_tenth x (float_round1 x).
Proof.
  intros Hx. pose proof (float_round1_plus x Hx) as Hz.
  split; [apply leb_0_of_plus; exact Hz | ].
  destruct (Prim2SF x) as [[ | ] | [ | ] | | [ | ] m e] eqn:E; cbn in Hx;
    try contradiction.
  - (* zero *)
    assert (Er : float_round1 x = x) by (unfold float_round1; rewrite E; reflexivity).
    rewrite Er. split.
    + intros Hf. pose proof (proj2 (is_finite_iff x)) as H. rewrite E in H.
      rewrite (H I) in Hf. discriminate.
    + intros Hf. split; [exact Hf | ]. exists 0%Z.
      split; [ | split].
      * unfold fval. rewrite E. left. cbn. split; reflexivity.
      * apply Prim2SF_zero_inv. exact E.
      * intros f _. unfold fval at 1. rewrite E.
        apply Qle_trans with 0; [ | apply Qabs_nonneg].
        apply Qabs_le_of; cbn; discriminate.
  - (* plus infinity *)
    assert (Er : float_round1 x = x) by (unfold float_round1; rewrite E; reflexivity).
    rewrite Er. split.
    + intros _. apply Prim2SF_inf_inv. exact E.
    + intros Hf. apply is_finite_iff in Hf. rewrite E in Hf. contradiction.
  - (* positive finite *)
    pose proof (Prim2SF_valid x) as Vx. rewrite E in Vx.
    destruct (float_round1_rounds x m e E) as (Er & Hn & Hr).
    set (n := round_half_even (SF2Q (S754_finite false m e) * 10)) in *.
    assert (Hq : 0 <= inject_Z n * (1 # 10)).
    { assert (0 <= inject_Z n)
        by (change 0 with (inject_Z 0); rewrite <- Zle_Qle; exact Hn).
      lra. }
    pose proof (rounds_to_finite _ _ Hq (tenths_le_max m e Vx) Hr) as Hfin.
    split.
    + intros Hf. pose proof (proj2 (is_finite_iff x)) as H. rewrite E in H.
      rewrite (H I) in Hf. discriminate.
    + intros _. split; [apply is_finite_iff; exact Hfin | ].
      exists n. split; [ | split].
      * unfold fval. rewrite E. apply round_half_even_spec.
      * exact Er.
      * intros f Hf. apply is_finite_iff in Hf.
        rewrite Qmake_tenths. unfold fval.
        apply (rounds_to_nearest _ _ _ Hq Hr Hfin (Prim2SF_valid f) Hf).
Qed.

(** * The function on floats *)

Lemma required_for_float (d p : float) (s : settings float) :
  required_for d p s =
  if PrimFloat.eqb (battery_dod s) 0%float then Raise ZeroDivisionError
  else if PrimFloat.eqb (solar_peak_hours s) 0%float
       then Raise ZeroDivisionError
  else Ok (required_float d p s).
Proof.
  cbv beta iota zeta delta
    [required_for required_sizes truediv required_float
     is_zero of_int add mul quotient round1 Number_float].
  change (float_of_int 24) with 24%float.
  change (float_of_int 1) with 1%float.
  change (PrimFloat.eqb 24 0)%float with false.
  cbv beta iota delta [bind].
  destruct (PrimFloat.eqb (battery_dod s) 0); [reflexivity | ].
  destruct (PrimFloat.eqb (solar_peak_hours s) 0); reflexivity.
Qed.

Lemma valid_float_inv (d p : float) (s : settings float) :
  valid_float d p s = true ->
  SF_pos (Prim2SF d) /\ SF_pos (Prim2SF p) /\
  in_range 12%float 72%float (backup_hours s) = true /\
  in_range 3%float 7%float (solar_peak_hours s) = true /\
  in_range 0.5%float 0.9%float (battery_dod s) = true /\
  in_range 0.1%float 0.3%float (system_losses s) = true /\
  in_range 1.1%float 1.5%float (safety_factor s) = true.
Proof.
  unfold valid_float. intros H.
  repeat (apply andb_prop in H; destruct H as [H ?]).
  repeat split; try assumption; apply pos_of_finite; assumption.
Qed.

Lemma valid_float_divisors (d p : float) (s : settings float) :
  valid_float d p s = true ->
  PrimFloat.eqb (battery_dod s) 0%float = false /\
  PrimFloat.eqb (solar_peak_hours s) 0%float = false.
Proof.
  intros Hv. destruct (valid_float_inv d p s Hv) as (_ & _ & _ & Hs & Hd & _).
  split.
  - apply (float_pos_nonzero 0.5%float); [reflexivity | ].
    apply (in_range_lower _ _ _ Hd).
  - apply (float_pos_nonzero 3%float); [reflexivity | ].
    apply (in_range_lower _ _ _ Hs).
Qed.

(** A valid call returns: the closed forms of what it computes. *)
Lemma valid_float_runs (d p : float) (s : settings float) :
  valid_float d p s = true ->
  required_for d p s = Ok (required_float d p s) /\
  compute d p s = Ok (rounded_float (required_float d p s)).
Proof.
  intros Hv. destruct (valid_float_divisors d p s Hv) as [Hd0 Hs0].
  rewrite required_for_float, compute_float, Hd0, Hs0. split; reflexivity.
Qed.

(** On floats each required size grows with the usage, the demand, the
    backup hours, the losses and the safety factor, and shrinks as the
    solar peak hours or the depth of discharge grow. *)
Lemma required_float_mono
    (d p : float) (s : settings float) (d' p' : float) (s' : settings float) :
  valid_float d p s = true -> valid_float d' p' s' = true ->
  grows_float d p s d' p' s' = true ->
  fle (required_battery_capacity (required_float d p s))
      (required_battery_capacity (required_float d' p' s')) /\
  fle (required_solar_capacity (required_float d p s))
      (required_solar_capacity (required_float d' p' s')) /\
  fle (required_inverter_size (required_float d p s))
      (required_inverter_size (required_float d' p' s')).
Proof.
  intros Hv Hv' Hg.
  destruct (valid_float_inv d p s Hv) as (Hd & Hp & Hb & Hs & Ho & Hl & Hf).
  destruct (valid_float_inv d' p' s' Hv')
    as (Hd' & Hp' & Hb' & Hs' & Ho' & Hl' & Hf').
  unfold grows_float in Hg.
  repeat (apply andb_prop in Hg; destruct Hg as [Hg ?]).
  assert (Gd : fle d d').
  { apply ple_fle. split; [exact Hd | split; [exact Hd' | assumption]]. }
  assert (Gp : fle p p').
  { apply ple_fle. split; [exact Hp | split; [exact Hp' | assumption]]. }
  assert (Gb : ple (backup_hours s) (backup_hours s')).
  { apply (ple_of_range 12%float 72%float); try reflexivity; assumption. }
  assert (Gs : ple (solar_peak_hours s') (solar_peak_hours s)).
  { apply (ple_of_range 3%float 7%float); try reflexivity; assumption. }
  assert (Go : ple (battery_dod s') (battery_dod s)).
  { apply (ple_of_range 0.5%float 0.9%float); try reflexivity; assumption. }
  assert (Gf : ple (safety_factor s) (safety_factor s')).
  { apply (ple_of_range 1.1%float 1.5%float); try reflexivity; assumption. }
  assert (Gl : ple (PrimFloat.add 1 (system_losses s))
                   (PrimFloat.add 1 (system_losses s'))).
  { apply ple_loss_factor; assumption. }
  cbn [required_float required_battery_capacity required_solar_capacity
       required_inverter_size].
  pose proof (fle_mul _ _ _ _ Gd Gl) as Gadj.
  pose proof (fle_mul _ _ _ _ Gp Gl) as Gadjp.
  split; [ | split].
  - apply fle_mul; [ | exact Gf].
    apply fle_div; [ | exact Go].
    apply fle_div; [ | apply ple_refl; exact I].
    apply fle_mul; [exact Gadj | exact Gb].
  - apply fle_mul; [ | exact Gf].
    apply fle_div; [exact Gadj | exact Gs].
  - apply fle_mul; [exact Gadjp | exact Gf].
Qed.

(** The three sizes returned are monotone on floats. *)
Theorem compute_float_mono
    (d p : float) (s : settings float) (d' p' : float) (s' : settings float) :
  valid_float d p s = true -> valid_float d' p' s' = true ->
  grows_float d p s d' p' s' = true ->
  exists z z',
    compute d p s = Ok z /\ compute d' p' s' = Ok z' /\
    sizes_leb z z' = true.
Proof.
  intros Hv Hv' Hg.
  destruct (valid_float_runs d p s Hv) as [_ Hc].
  destruct (valid_float_runs d' p' s' Hv') as [_ Hc'].
  destruct (required_float_mono d p s d' p' s' Hv Hv' Hg) as (Hb & Hs & Hi).
  apply fle_round1 in Hb, Hs, Hi.
  exists (rounded_float (required_float d p s)),
    (rounded_float (required_float d' p' s')).
  split; [exact Hc | ]. split; [exact Hc' | ].
  unfold sizes_leb.
  cbn [rounded_float battery_capacity_kwh solar_capacity_kw inverter_size_kw].
  destruct Hb as (_ & _ & ->). destruct Hs as (_ & _ & ->).
  destruct Hi as (_ & _ & ->). reflexivity.
Qed.

(** ** Doubling the daily usage *)

Lemma round_half_even_double (x y : Q) :
  y == 2 * x ->
  (-1 <= round_half_even y - 2 * round_half_even x <= 1)%Z.
Proof.
  intros Hy.
  pose proof (round_half_even_bounds y) as [Hy1 Hy2].
  pose proof (round_half_even_bounds x) as [Hx1 Hx2].
  set (n := round_half_even y) in *. set (m := round_half_even x) in *.
  split.
  - assert (Hq : inject_Z (-2) < inject_Z (n - 2 * m)).
    { unfold Z.sub. rewrite inject_Z_plus, inject_Z_opp, inject_Z_mult.
      change (inject_Z 2) with 2. change (inject_Z (-2)) with (-2). lra. }
    rewrite <- Zlt_Qlt in Hq. lia.
  - assert (Hq : inject_Z (n - 2 * m) < inject_Z 2).
    { unfold Z.sub. rewrite inject_Z_plus, inject_Z_opp, inject_Z_mult.
      change (inject_Z 2) with 2. lra. }
    rewrite <- Zlt_Qlt in Hq. lia.
Qed.

Lemma doubled_round1 (x x2 : float) :
  doubled x x2 -> twice_within_a_tenth (float_round1 x) (float_round1 x2).
Proof.
  intros (m & e & E & E2).
  destruct (float_round1_rounds x m e E) as (-> & _ & _).
  destruct (float_round1_rounds x2 m (e + 1) E2) as (-> & _ & _).
  eexists _, _. split; [reflexivity | ]. split; [reflexivity | ].
  apply round_half_even_double. rewrite !SF2Q_finite, pow2_succ. ring.
Qed.

(** What the settings of a valid call contribute to the size of the
    intermediate results. *)
Lemma valid_float_values (d p : float) (s : settings float) :
  valid_float d p s = true ->
  (SF_pos (Prim2SF (PrimFloat.add 1 (system_losses s))) /\
   1 <= fval (PrimFloat.add 1 (system_losses s))) /\
  (SF_pos (Prim2SF (backup_hours s)) /\ 8 <= fval (backup_hours s)) /\
  (SF_pos (Prim2SF (solar_peak_hours s)) /\ fval (solar_peak_hours s) <= 8) /\
  (SF_pos (Prim2SF (battery_dod s)) /\ fval (battery_dod s) <= 1) /\
  (SF_pos (Prim2SF (safety_factor s)) /\ 1 <= fval (safety_factor s)).
Proof.
  intros Hv.
  destruct (valid_float_inv d p s Hv) as (_ & _ & Hb & Hs & Ho & Hl & Hf).
  apply loss_factor_range in Hl.
  apply (fval_of_range 12%float 72%float _ eq_refl eq_refl) in Hb.
  apply (fval_of_range 3%float 7%float _ eq_refl eq_refl) in Hs.
  apply (fval_of_range 0.5%float 0.9%float _ eq_refl eq_refl) in Ho.
  apply (fval_of_range 1.1%float 1.3%float _ eq_refl eq_refl) in Hl.
  apply (fval_of_range 1.1%float 1.5%float _ eq_refl eq_refl) in Hf.
  destruct Hb as (Pb & Hb & _). destruct Hs as (Ps & _ & Hs).
  destruct Ho as (Po & _ & Ho). destruct Hl as (Pl & Hl & _).
  destruct Hf as (Pf & Hf & _).
  assert (C1 : 1 <= fval 1.1%float) by (vm_compute; discriminate).
  assert (C2 : 8 <= fval 12%float) by (vm_compute; discriminate).
  assert (C3 : fval 7%float <= 8) by (vm_compute; discriminate).
  assert (C4 : fval 0.9%float <= 1) by (vm_compute; discriminate).
  repeat split; try assumption; lra.
Qed.

Lemma pow2_shift (k j : Z) (c : Q) :
  pow2 j == c -> pow2 (k + j) == pow2 k * c.
Proof. intros <-. apply pow2_add. Qed.

(** On floats, away from overflow and from the subnormal range, doubling
    the daily usage doubles the required battery and solar capacities
    exactly. *)
Theorem required_float_double (d p : float) (s : settings float) :
  valid_float d p s = true ->
  PrimFloat.leb 0x1p-1019%float d = true ->
  PrimFloat.is_finite
    (required_battery_capacity (required_float (PrimFloat.mul 2 d) p s))
    = true ->
  PrimFloat.is_finite
    (required_solar_capacity (required_float (PrimFloat.mul 2 d) p s))
    = true ->
  doubled (required_battery_capacity (required_float d p s))
    (required_battery_capacity (required_float (PrimFloat.mul 2 d) p s)) /\
  doubled (required_solar_capacity (required_float d p s))
    (required_solar_capacity (required_float (PrimFloat.mul 2 d) p s)).
Proof.
  intros Hv Hlow Hfb Hfs.
  destruct (valid_float_inv d p s Hv) as (Hd & _).
  destruct (valid_float_values d p s Hv)
    as ((Pl & Vl) & (Pb & Vb) & (Ps & Vs) & (Po & Vo) & (Pf & Vf)).
  apply is_finite_iff in Hfb, Hfs.
  cbn [required_float required_battery_capacity required_solar_capacity] in *.
  set (fac := PrimFloat.add 1 (system_losses s)) in *.
  set (d2 := PrimFloat.mul 2 d) in *.
  assert (P24 : SF_pos (Prim2SF 24%float)) by exact I.
  assert (V24 : fval 24%float <= 32) by (vm_compute; discriminate).
  assert (Pd2 : SF_plus (Prim2SF d2)).
  { unfold d2. rewrite mul_spec.
    apply SFmul_plus; try apply Prim2SF_valid; [exact I | exact Hd]. }
  pose proof (plus_mul d2 fac Pd2 Pl) as Padj.
  pose proof (plus_mul _ (backup_hours s) Padj Pb) as Pt1.
  pose proof (plus_div _ 24%float Pt1 P24) as Pt2.
  pose proof (plus_div _ (battery_dod s) Pt2 Po) as Pt3.
  pose proof (plus_div _ (solar_peak_hours s) Padj Ps) as Ps1.
  pose proof (finite_mul_inv _ _ Pt3 Pf Hfb) as Ft3.
  pose proof (finite_div_inv _ _ Pt2 Po Ft3) as Ft2.
  pose proof (finite_div_inv _ _ Pt1 P24 Ft2) as Ft1.
  pose proof (finite_mul_inv _ _ Padj Pb Ft1) as Fadj.
  pose proof (finite_mul_inv _ _ Pd2 Pl Fadj) as Fd2.
  pose proof (finite_mul_inv _ _ Ps1 Pf Hfs) as Fs1.
  assert (Vd : pow2 (-1019) <= fval d).
  { apply (fval_of_leb 0x1p-1019%float d) in Hlow; [ | exact I | exact Hd].
    assert (E : fval 0x1p-1019%float == pow2 (-1019)).
    { unfold fval.
      change (Prim2SF 0x1p-1019%float)
        with (S754_finite false 4503599627370496 (-1071)).
      rewrite SF2Q_finite. change (inject_Z 4503599627370496) with (pow2 52).
      rewrite <- pow2_add. reflexivity. }
    rewrite E in Hlow. exact Hlow. }
  assert (K0 : pow2 (-1019) <= pow2 (-1019) * 1)
    by (pose proof (pow2_pos (-1019)); lra).
  assert (K1 : pow2 (-1016) <= pow2 (-1019) * 8).
  { change (-1016)%Z with (-1019 + 3)%Z.
    rewrite (pow2_shift (-1019) 3 8) by reflexivity. lra. }
  assert (K2 : pow2 (-1021) * 32 <= pow2 (-1016)).
  { change (-1016)%Z with (-1021 + 5)%Z.
    rewrite (pow2_shift (-1021) 5 32) by reflexivity. lra. }
  assert (K3 : pow2 (-1021) * 1 <= pow2 (-1021)) by lra.
  assert (K4 : pow2 (-1021) <= pow2 (-1021) * 1)
    by (pose proof (pow2_pos (-1021)); lra).
  assert (K5 : pow2 (-1022) * 8 <= pow2 (-1019)).
  { change (-1019)%Z with (-1022 + 3)%Z.
    rewrite (pow2_shift (-1022) 3 8) by reflexivity. lra. }
  assert (K6 : pow2 (-1022) <= pow2 (-1022) * 1)
    by (pose proof (pow2_pos (-1022)); lra).
  assert (N1 : 0 <= 1) by lra. assert (N8 : 0 <= 8) by lra.
  (* the usage, then the loss-adjusted usage *)
  pose proof (doubled_above_mul2 (-1019) d Hd Vd ltac:(lia) Fd2) as D0.
  fold d2 in D0.
  pose proof (doubled_above_mul (-1019) (-1019) 1 _ _ _ D0 Pl Vl N1 K0
                ltac:(lia) Fadj) as D1.
  (* the battery: times the backup hours, by 24, by the depth of
     discharge, times the safety factor *)
  pose proof (doubled_above_mul (-1019) (-1016) 8 _ _ _ D1 Pb Vb N8 K1
                ltac:(lia) Ft1) as D2.
  pose proof (doubled_above_div (-1016) (-1021) 32 _ _ _ D2 P24 V24 K2
                ltac:(lia) Ft2) as D3.
  pose proof (doubled_above_div (-1021) (-1021) 1 _ _ _ D3 Po Vo K3
                ltac:(lia) Ft3) as D4.
  pose proof (doubled_above_mul (-1021) (-1021) 1 _ _ _ D4 Pf Vf N1 K4
                ltac:(lia) Hfb) as D5.
  (* the solar array: by the solar peak hours, times the safety factor *)
  pose proof (doubled_above_div (-1019) (-1022) 8 _ _ _ D1 Ps Vs K5
                ltac:(lia) Fs1) as S1.
  pose proof (doubled_above_mul (-1022) (-1022) 1 _ _ _ S1 Pf Vf N1 K6
                ltac:(lia) Hfs) as S2.
  split; [exact (proj1 D5) | exact (proj1 S2)].
Qed.

(** Doubling the daily usage on floats, away from overflow and from the
    subnormal range. *)
Theorem compute_float_double
    (d p : float) (s : settings float) (r2 : required float) :
  valid_float d p s = true ->
  PrimFloat.leb 0x1p-1019%float d = true ->
  required_for (PrimFloat.mul 2 d) p s = Ok r2 ->
  PrimFloat.is_finite (required_battery_capacity r2) = true ->
  PrimFloat.is_finite (required_solar_capacity r2) = true ->
  exists r z z2,
    required_for d p s = Ok r /\
    compute d p s = Ok z /\ compute (PrimFloat.mul 2 d) p s = Ok z2 /\
    required_battery_capacity r2 =
      PrimFloat.mul 2 (required_battery_capacity r) /\
    required_solar_capacity r2 =
      PrimFloat.mul 2 (required_solar_capacity r) /\
    required_inverter_size r2 = required_inverter_size r /\
    twice_within_a_tenth (battery_capacity_kwh z) (battery_capacity_kwh z2) /\
    twice_within_a_tenth (solar_capacity_kw z) (solar_capacity_kw z2) /\
    inverter_size_kw z2 = inverter_size_kw z.
Proof.
  intros Hv Hlow Hr2 Hfb Hfs.
  destruct (valid_float_runs d p s Hv) as [Hr Hc].
  destruct (valid_float_divisors d p s Hv) as [Hd0 Hs0].
  rewrite required_for_float, Hd0, Hs0 in Hr2. injection Hr2 as <-.
  destruct (required_float_double d p s Hv Hlow Hfb Hfs) as [Db Ds].
  exists (required_float d p s), (rounded_float (required_float d p s)),
    (rounded_float (required_float (PrimFloat.mul 2 d) p s)).
  split; [exact Hr | ]. split; [exact Hc | ].
  split; [rewrite compute_float, Hd0, Hs0; reflexivity | ].
  split; [apply doubled_eq_mul2, Db | ].
  split; [apply doubled_eq_mul2, Ds | ].
  split; [reflexivity | ].
  split; [apply doubled_round1, Db | ].
  split; [apply doubled_round1, Ds | reflexivity].
Qed.

(** ** The required sizes of a valid call *)

Lemma fle_refl_plus (x x' : float) : fle x x' -> SF_plus (Prim2SF x).
Proof. intros (H & _). exact H. Qed.

Lemma leb_refl_pos (x : float) :
  SF_pos (Prim2SF x) -> PrimFloat.leb x x = true.
Proof. intros H. apply (ple_refl x H). Qed.

Lemma valid_float_pos (d p : float) (s : settings float) :
  valid_float d p s = true ->
  SF_pos (Prim2SF d) /\ SF_pos (Prim2SF p) /\
  SF_pos (Prim2SF (backup_hours s)) /\
  SF_pos (Prim2SF (solar_peak_hours s)) /\
  SF_pos (Prim2SF (battery_dod s)) /\
  SF_pos (Prim2SF (system_losses s)) /\
  SF_pos (Prim2SF (safety_factor s)).
Proof.
  intros Hv.
  destruct (valid_float_inv d p s Hv) as (Hd & Hp & Hb & Hs & Ho & Hl & Hf).
  split; [exact Hd | ]. split; [exact Hp | ].
  split; [exact (pos_of_range 12%float 72%float _ eq_refl eq_refl Hb) | ].
  split; [exact (pos_of_range 3%float 7%float _ eq_refl eq_refl Hs) | ].
  split; [exact (pos_of_range 0.5%float 0.9%float _ eq_refl eq_refl Ho) | ].
  split; [exact (pos_of_range 0.1%float 0.3%float _ eq_refl eq_refl Hl) | ].
  exact (pos_of_range 1.1%float 1.5%float _ eq_refl eq_refl Hf).
Qed.

Lemma grows_float_refl (d p : float) (s : settings float) :
  valid_float d p s = true -> grows_float d p s d p s = true.
Proof.
  intros Hv.
  destruct (valid_float_pos d p s Hv) as (Hd & Hp & Hb & Hs & Ho & Hl & Hf).
  unfold grows_float.
  rewrite (leb_refl_pos d Hd), (leb_refl_pos p Hp), (leb_refl_pos _ Hb),
    (leb_refl_pos _ Hl), (leb_refl_pos _ Hf), (leb_refl_pos _ Hs),
    (leb_refl_pos _ Ho).
  reflexivity.
Qed.

(** The required sizes of a valid call are neither negative nor NaN. *)
Lemma required_float_plus (d p : float) (s : settings float) :
  valid_float d p s = true ->
  SF_plus (Prim2SF (required_battery_capacity (required_float d p s))) /\
  SF_plus (Prim2SF (required_solar_capacity (required_float d p s))) /\
  SF_plus (Prim2SF (required_inverter_size (required_float d p s))).
Proof.
  intros Hv.
  destruct (required_float_mono d p s d p s Hv Hv (grows_float_refl d p s Hv))
    as (Hb & Hs & Hi).
  split; [exact (fle_refl_plus _ _ Hb) | ].
  split; [exact (fle_refl_plus _ _ Hs) | exact (fle_refl_plus _ _ Hi)].
Qed.

Lemma in_range_upper (lo hi x : float) :
  in_range lo hi x = true -> PrimFloat.leb x hi = true.
Proof.
  unfold in_range. intros H. apply andb_prop in H. tauto.
Qed.

Lemma grows_to_heaviest_float (d p : float) (s : settings float) :
  valid_float d p s = true ->
  PrimFloat.leb d 1e300%float = true -> PrimFloat.leb p 1e300%float = true ->
  grows_float d p s 1e300%float 1e300%float heaviest_settings_float = true.
Proof.
  intros Hv Hd Hp.
  destruct (valid_float_inv d p s Hv) as (_ & _ & Hb & Hs & Ho & Hl & Hf).
  unfold grows_float.
  cbn [heaviest_settings_float backup_hours solar_peak_hours battery_dod
       system_losses safety_factor].
  rewrite Hd, Hp.
  rewrite (in_range_upper _ _ _ Hb), (in_range_upper _ _ _ Hl),
    (in_range_upper _ _ _ Hf), (in_range_lower _ _ _ Hs),
    (in_range_lower _ _ _ Ho).
  reflexivity.
Qed.

Lemma finite_of_fle (x c : float) :
  fle x c -> PrimFloat.is_finite c = true -> PrimFloat.is_finite x = true.
Proof.
  intros (Hx & Hc & Hle) Hf. apply is_finite_iff in Hf. apply is_finite_iff.
  rewrite leb_spec in Hle.
  destruct (Prim2SF x) as [[ | ] | [ | ] | | [ | ] m e]; cbn in Hx;
    try contradiction; try exact I.
  destruct (Prim2SF c) as [[ | ] | [ | ] | | [ | ] mc ec]; cbn in Hc, Hf;
    try contradiction; discriminate Hle.
Qed.

(** With usage and demand up to 1e300 nothing overflows. *)
Lemma required_float_finite (d p : float) (s : settings float) :
  valid_float d p s = true ->
  PrimFloat.leb d 1e300%float = true -> PrimFloat.leb p 1e300%float = true ->
  PrimFloat.is_finite (required_battery_capacity (required_float d p s))
    = true /\
  PrimFloat.is_finite (required_solar_capacity (required_float d p s))
    = true /\
  PrimFloat.is_finite (required_inverter_size (required_float d p s))
    = true.
Proof.
  intros Hv Hd Hp.
  assert (Hv' : valid_float 1e300%float 1e300%float
                  heaviest_settings_float = true) by reflexivity.
  destruct (required_float_mono d p s _ _ _ Hv Hv'
              (grows_to_heaviest_float d p s Hv Hd Hp)) as (Hb & Hs & Hi).
  split; [exact (finite_of_fle _ _ Hb eq_refl) | ].
  split; [exact (finite_of_fle _ _ Hs eq_refl) | ].
  exact (finite_of_fle _ _ Hi eq_refl).
Qed.

Lemma rounded_to_tenth_finite (x z : float) :
  rounded_to_tenth x z -> PrimFloat.is_finite x = true ->
  PrimFloat.is_finite z = true.
Proof. intros (_ & _ & H) Hx. exact (proj1 (H Hx)). Qed.

(** What a valid call returns on floats. *)
Theorem compute_float_rounded (d p : float) (s : settings float) :
  valid_float d p s = true ->
  exists r z,
    required_for d p s = Ok r /\ compute d p s = Ok z /\
    rounded_to_tenth (required_battery_capacity r) (battery_capacity_kwh z) /\
    rounded_to_tenth (required_solar_capacity r) (solar_capacity_kw z) /\
    rounded_to_tenth (required_inverter_size r) (inverter_size_kw z) /\
    (PrimFloat.leb d 1e300%float = true ->
     PrimFloat.leb p 1e300%float = true ->
     PrimFloat.is_finite (battery_capacity_kwh z) = true /\
     PrimFloat.is_finite (solar_capacity_kw z) = true /\
     PrimFloat.is_finite (inverter_size_kw z) = true).
Proof.
  intros Hv.
  destruct (valid_float_runs d p s Hv) as [Hr Hc].
  destruct (required_float_plus d p s Hv) as (Pb & Ps & Pi).
  exists (required_float d p s), (rounded_float (required_float d p s)).
  split; [exact Hr | ]. split; [exact Hc | ].
  cbn [rounded_float battery_capacity_kwh solar_capacity_kw inverter_size_kw].
  pose proof (float_round1_tenth _ Pb) as Tb.
  pose proof (float_round1_tenth _ Ps) as Ts.
  pose proof (float_round1_tenth _ Pi) as Ti.
  split; [exact Tb | ]. split; [exact Ts | ]. split; [exact Ti | ].
  intros Hd Hp.
  destruct (required_float_finite d p s Hv Hd Hp) as (Fb & Fs & Fi).
  split; [exact (rounded_to_tenth_finite _ _ Tb Fb) | ].
  split; [exact (rounded_to_tenth_finite _ _ Ts Fs) |
          exact (rounded_to_tenth_finite _ _ Ti Fi)].
Qed.

(** * The claims *)

(** C1: for every input pair and every configuration, over every number
    type, [compute] gives what the five steps of section 4.1 give: the two
    loss-adjusted quantities, then the battery, solar and inverter formulas,
    each rounded to one decimal place (and the same division-by-zero failure
    where a divisor is zero). *)
Theorem C1_compute_follows_algorithm
    (A : Type) (N : Number A) (d p : A) (c : settings A) :
  compute d p c = spec_compute d p c.
Proof.
  unfold compute, calculate_microgrid_size, required_sizes, spec_compute,
    truediv.
  destruct (is_zero (of_int 24)); [reflexivity | ].
  destruct (is_zero (battery_dod c)); [reflexivity | ].
  destruct (is_zero (solar_peak_hours c)); reflexivity.
Qed.

(** C2, as stated, fails: with a daily usage of 0 (the demand of the
    "Custom" preset, default settings) the function raises nothing and
    returns zero battery and solar sizes, over floats and over rationals. *)
Lemma C2_zero_usage_returns_zeroed_result :
  compute (float_of_int 0) (float_of_int 15) default_settings_float =
    Ok {| battery_capacity_kwh := 0%float;
          solar_capacity_kw := 0%float;
          inverter_size_kw := 20.7%float |} /\
  compute 0 15 default_settings =
    Ok {| battery_capacity_kwh := 0;
          solar_capacity_kw := 0;
          inverter_size_kw := Qred 20.7 |}.
Proof.
  split; by_evaluation.
Qed.

(** C2, amended: the function validates nothing and has no invalid-input
    failure.  Its only failure is [ZeroDivisionError], raised exactly when
    the depth of discharge or the solar peak hours are zero (over rationals
    and over floats); with a daily usage of 0 and nonzero divisors it
    returns zero battery and solar sizes and the usual inverter size. *)
Theorem C2_no_validation :
  (forall (d p : Q) (s : settings Q),
     compute d p s = Raise ZeroDivisionError <->
     battery_dod s == 0 \/ solar_peak_hours s == 0) /\
  (forall (d p : float) (s : settings float),
     compute d p s = Raise ZeroDivisionError <->
     PrimFloat.eqb (battery_dod s) 0%float = true \/
     PrimFloat.eqb (solar_peak_hours s) 0%float = true) /\
  (forall (p : Q) (s : settings Q),
     ~ battery_dod s == 0 -> ~ solar_peak_hours s == 0 ->
     compute 0 p s =
     Ok {| battery_capacity_kwh := 0;
           solar_capacity_kw := 0;
           inverter_size_kw :=
             round1 (p * (1 + system_losses s) * safety_factor s) |}).
Proof.
  split; [ | split].
  - intros d p s. rewrite compute_Q.
    destruct (Qeq_bool (battery_dod s) 0) eqn:Ed.
    + apply Qeq_bool_eq in Ed. tauto.
    + apply Qeq_bool_neq in Ed.
      destruct (Qeq_bool (solar_peak_hours s) 0) eqn:Es.
      * apply Qeq_bool_eq in Es. tauto.
      * apply Qeq_bool_neq in Es. split; [discriminate | tauto].
  - intros d p s. rewrite compute_float.
    destruct (PrimFloat.eqb (battery_dod s) 0); [tauto | ].
    destruct (PrimFloat.eqb (solar_peak_hours s) 0); [tauto | ].
    split; [discriminate | intros [H | H]; discriminate].
  - intros p s Hd Hs. rewrite (compute_Q_ok 0 p s Hd Hs).
    unfold rounded, required_Q; cbn. reflexivity.
Qed.

Lemma C2_no_validation_witness :
  compute 0 15 default_settings =
  Ok {| battery_capacity_kwh := 0;
        solar_capacity_kw := 0;
        inverter_size_kw := round1 (15 * (1 + 0.15) * 1.2) |}.
Proof.
  apply (proj2 (proj2 C2_no_validation) 15 default_settings); cbn; lra.
Defined.

(** C3: the default scenario (usage 100, demand 15, default settings) gives
    exactly 172.5, 27.6 and 20.7, over floats and over rationals. *)
Theorem C3_default_scenario :
  compute 100%float 15%float default_settings_float =
    Ok {| battery_capacity_kwh := 172.5%float;
          solar_capacity_kw := 27.6%float;
          inverter_size_kw := 20.7%float |} /\
  compute 100 15 default_settings =
    Ok {| battery_capacity_kwh := Qred 172.5;
          solar_capacity_kw := Qred 27.6;
          inverter_size_kw := Qred 20.7 |}.
Proof.
  split; by_evaluation.
Qed.

(** C4: the preset "Restaurant" is the pair (200, 25), and the function on
    that pair with the default settings gives 345.0, 55.2 and 34.5, over
    floats and over rationals. *)
Theorem C4_restaurant_preset :
  getitem EXAMPLE_PROFILES "Restaurant" =
    Some {| daily_kwh := 200; peak_kw := 25 |} /\
  compute (float_of_int 200) (float_of_int 25) default_settings_float =
    Ok {| battery_capacity_kwh := 345.0%float;
          solar_capacity_kw := 55.2%float;
          inverter_size_kw := 34.5%float |} /\
  compute (inject_Z 200) (inject_Z 25) default_settings =
    Ok {| battery_capacity_kwh := Qred 345.0;
          solar_capacity_kw := Qred 55.2;
          inverter_size_kw := Qred 34.5 |}.
Proof.
  split; [reflexivity | split; by_evaluation].
Qed.

(** C5: for valid inputs and settings, each of the three results is
    non-decreasing in the daily usage, the peak demand, the backup hours,
    the system losses and the safety factor, and non-increasing in the
    solar peak hours and the depth of discharge: whenever one valid
    argument tuple lies below another in that order (in particular when
    they differ in one parameter only), the function returns for both and
    no result of the first is larger than the matching result of the
    second.  This holds for every such pair of calls on binary64 floats
    (where a result can be plus infinity), and in exact arithmetic. *)
Theorem C5_monotone :
  (forall (d p : float) (s : settings float)
          (d' p' : float) (s' : settings float),
     valid_float d p s = true -> valid_float d' p' s' = true ->
     grows_float d p s d' p' s' = true ->
     exists z z',
       compute d p s = Ok z /\ compute d' p' s' = Ok z' /\
       sizes_leb z z' = true) /\
  (forall (d p : Q) (s : settings Q) (d' p' : Q) (s' : settings Q),
     valid d p s -> valid d' p' s' -> grows d p s d' p' s' ->
     exists z z',
       compute d p s = Ok z /\ compute d' p' s' = Ok z' /\
       battery_capacity_kwh z <= battery_capacity_kwh z' /\
       solar_capacity_kw z <= solar_capacity_kw z' /\
       inverter_size_kw z <= inverter_size_kw z').
Proof.
  split.
  - exact compute_float_mono.
  - intros d p s d' p' s' Hv Hv' Hg.
    destruct (valid_divisors d p s Hv) as [Hd Hs].
    destruct (valid_divisors d' p' s' Hv') as [Hd' Hs'].
    exists (rounded (required_Q d p s)), (rounded (required_Q d' p' s')).
    rewrite (compute_Q_ok d p s Hd Hs), (compute_Q_ok d' p' s' Hd' Hs').
    destruct (required_Q_mono d p s d' p' s' Hv Hv' Hg) as (Hb & Hso & Hi).
    repeat split; cbn [rounded battery_capacity_kwh solar_capacity_kw
                       inverter_size_kw]; apply Q_round1_mono; assumption.
Qed.

Lemma C5_monotone_witness :
  exists z z',
    compute 100%float 15%float default_settings_float = Ok z /\
    compute 100%float 15%float
      {| backup_hours := 24%float;
         solar_peak_hours := 3%float;
         battery_dod := 0.5%float;
         system_losses := 0.15%float;
         safety_factor := 1.2%float |} = Ok z' /\
    sizes_leb z z' = true.
Proof.
  apply (proj1 C5_monotone 100%float 15%float default_settings_float
           100%float 15%float
           {| backup_hours := 24%float;
              solar_peak_hours := 3%float;
              battery_dod := 0.5%float;
              system_losses := 0.15%float;
              safety_factor := 1.2%float |}); reflexivity.
Defined.

(** C6, as stated, fails on floats, at both ends of their range.  4e306 is
    a valid daily usage, its required battery capacity is finite, and for
    twice that usage the product with the backup hours overflows, so the
    required and the rounded battery capacity are infinite instead of twice
    as large.  Three times the smallest positive float is a valid daily
    usage too, and there every intermediate result is rounded to a whole
    number of such units: the required battery capacity is 5 of them for
    the usage and 11 for twice the usage, and the required solar capacity
    is 1 for both. *)
Lemma C6_doubling_fails :
  (valid_float 4e306%float 15%float default_settings_float = true /\
   exists r r2 z z2,
     required_for 4e306%float 15%float default_settings_float = Ok r /\
     required_for (PrimFloat.mul 2 4e306)%float 15%float
       default_settings_float = Ok r2 /\
     compute 4e306%float 15%float default_settings_float = Ok z /\
     compute (PrimFloat.mul 2 4e306)%float 15%float
       default_settings_float = Ok z2 /\
     PrimFloat.is_finite (required_battery_capacity r) = true /\
     PrimFloat.is_infinity (required_battery_capacity r2) = true /\
     PrimFloat.eqb (required_battery_capacity r2)
       (PrimFloat.mul 2 (required_battery_capacity r)) = false /\
     PrimFloat.is_finite (battery_capacity_kwh z) = true /\
     PrimFloat.is_infinity (battery_capacity_kwh z2) = true) /\
  (valid_float 0x3p-1074%float 15%float default_settings_float = true /\
   exists r r2,
     required_for 0x3p-1074%float 15%float default_settings_float = Ok r /\
     required_for (PrimFloat.mul 2 0x3p-1074)%float 15%float
       default_settings_float = Ok r2 /\
     Prim2SF (required_battery_capacity r) = S754_finite false 5 (-1074) /\
     Prim2SF (required_battery_capacity r2) = S754_finite false 11 (-1074) /\
     PrimFloat.eqb (required_battery_capacity r2)
       (PrimFloat.mul 2 (required_battery_capacity r)) = false /\
     Prim2SF (required_solar_capacity r) = S754_finite false 1 (-1074) /\
     Prim2SF (required_solar_capacity r2) = S754_finite false 1 (-1074) /\
     PrimFloat.eqb (required_solar_capacity r2)
       (PrimFloat.mul 2 (required_solar_capacity r)) = false).
Proof.
  split.
  - split; [by_evaluation | ].
    exists {| required_battery_capacity := 6.8999999999999989e+306%float;
              required_solar_capacity := 1.1039999999999998e+306%float;
              required_inverter_size := 20.699999999999999%float |},
      {| required_battery_capacity := infinity;
         required_solar_capacity := 2.2079999999999997e+306%float;
         required_inverter_size := 20.699999999999999%float |},
      {| battery_capacity_kwh := 6.8999999999999989e+306%float;
         solar_capacity_kw := 1.1039999999999998e+306%float;
         inverter_size_kw := 20.7%float |},
      {| battery_capacity_kwh := infinity;
         solar_capacity_kw := 2.2079999999999997e+306%float;
         inverter_size_kw := 20.7%float |}.
    repeat split; by_evaluation.
  - split; [by_evaluation | ].
    exists (required_float 0x3p-1074%float 15%float default_settings_float),
      (required_float (PrimFloat.mul 2 0x3p-1074)%float 15%float
         default_settings_float).
    repeat split; by_evaluation.
Qed.

(** C6, amended: on binary64 floats, take a valid input and settings with a
    daily usage of at least [2 ^ -1019] (no intermediate result is then
    subnormal) for which the required battery and solar capacities of the
    doubled usage are finite (nothing has overflowed).  Then doubling the
    daily usage doubles the required battery and solar capacities exactly,
    so that the rounded ones are within one tenth of twice the original
    rounded ones, and leaves the inverter size unchanged.  The inverter
    size never depends on the daily usage, whatever the floats.  In exact
    arithmetic the doubling is exact for every valid input and settings. *)
Theorem C6_doubling_usage :
  (forall (d p : float) (s : settings float) (r2 : required float),
     valid_float d p s = true ->
     PrimFloat.leb 0x1p-1019%float d = true ->
     required_for (PrimFloat.mul 2 d) p s = Ok r2 ->
     PrimFloat.is_finite (required_battery_capacity r2) = true ->
     PrimFloat.is_finite (required_solar_capacity r2) = true ->
     exists r z z2,
       required_for d p s = Ok r /\
       compute d p s = Ok z /\ compute (PrimFloat.mul 2 d) p s = Ok z2 /\
       required_battery_capacity r2 =
         PrimFloat.mul 2 (required_battery_capacity r) /\
       required_solar_capacity r2 =
         PrimFloat.mul 2 (required_solar_capacity r) /\
       required_inverter_size r2 = required_inverter_size r /\
       twice_within_a_tenth
         (battery_capacity_kwh z) (battery_capacity_kwh z2) /\
       twice_within_a_tenth (solar_capacity_kw z) (solar_capacity_kw z2) /\
       inverter_size_kw z2 = inverter_size_kw z) /\
  (forall (d d2 p : float) (s : settings float) (z z2 : sizes float),
     compute d p s = Ok z -> compute d2 p s = Ok z2 ->
     inverter_size_kw z2 = inverter_size_kw z) /\
  (forall (d p : Q) (s : settings Q),
     valid d p s ->
     exists r r2 z z2,
       required_for d p s = Ok r /\ required_for (2 * d) p s = Ok r2 /\
       compute d p s = Ok z /\ compute (2 * d) p s = Ok z2 /\
       required_battery_capacity r2 == 2 * required_battery_capacity r /\
       required_solar_capacity r2 == 2 * required_solar_capacity r /\
       Qabs (battery_capacity_kwh z2 - 2 * battery_capacity_kwh z)
         <= 1 # 10 /\
       Qabs (solar_capacity_kw z2 - 2 * solar_capacity_kw z) <= 1 # 10 /\
       inverter_size_kw z2 = inverter_size_kw z).
Proof.
  split; [ | split].
  - exact compute_float_double.
  - intros d d2 p s z z2. rewrite !compute_float.
    destruct (PrimFloat.eqb (battery_dod s) 0); [discriminate | ].
    destruct (PrimFloat.eqb (solar_peak_hours s) 0); [discriminate | ].
    cbv zeta. intros Hz Hz2.
    injection Hz as <-. injection Hz2 as <-. reflexivity.
  - intros d p s Hv. destruct (valid_divisors d p s Hv) as [Hd Hs].
    exists (required_Q d p s), (required_Q (2 * d) p s),
      (rounded (required_Q d p s)), (rounded (required_Q (2 * d) p s)).
    rewrite !(required_for_Q_ok _ p s Hd Hs), !(compute_Q_ok _ p s Hd Hs).
    assert (Hb : required_battery_capacity (required_Q (2 * d) p s) ==
                 2 * required_battery_capacity (required_Q d p s)).
    { cbn. field. exact Hd. }
    assert (Hso : required_solar_capacity (required_Q (2 * d) p s) ==
                  2 * required_solar_capacity (required_Q d p s)).
    { cbn. field. exact Hs. }
    repeat split; try assumption.
    + apply Q_round1_double. exact Hb.
    + apply Q_round1_double. exact Hso.
Qed.

Lemma C6_doubling_usage_witness :
  exists r z z2,
    required_for 100%float 15%float default_settings_float = Ok r /\
    compute 100%float 15%float default_settings_float = Ok z /\
    compute (PrimFloat.mul 2 100)%float 15%float default_settings_float
      = Ok z2 /\
    344.99999999999994%float =
      PrimFloat.mul 2 (required_battery_capacity r) /\
    55.199999999999989%float =
      PrimFloat.mul 2 (required_solar_capacity r) /\
    20.699999999999999%float = required_inverter_size r /\
    twice_within_a_tenth
      (battery_capacity_kwh z) (battery_capacity_kwh z2) /\
    twice_within_a_tenth (solar_capacity_kw z) (solar_capacity_kw z2) /\
    inverter_size_kw z2 = inverter_size_kw z.
Proof.
  apply (proj1 C6_doubling_usage 100%float 15%float default_settings_float
           {| required_battery_capacity := 344.99999999999994%float;
              required_solar_capacity := 55.199999999999989%float;
              required_inverter_size := 20.699999999999999%float |});
    by_evaluation.
Defined.

(** C7: with the default settings, the required battery capacity for 72
    backup hours is exactly 6 times the one for 12 backup hours, and each
    rounded capacity is within 0.05 of its required one: for every usage
    and demand in exact arithmetic, and on floats for the default usage 100
    and demand 15, where the rounded capacities are 517.5 and 86.2. *)
Theorem C7_backup_ratio :
  (forall d p : Q,
     exists r72 r12 z72 z12,
       required_for d p (with_backup_hours 72 default_settings) = Ok r72 /\
       required_for d p (with_backup_hours 12 default_settings) = Ok r12 /\
       compute d p (with_backup_hours 72 default_settings) = Ok z72 /\
       compute d p (with_backup_hours 12 default_settings) = Ok z12 /\
       required_battery_capacity r72 == 6 * required_battery_capacity r12 /\
       Qabs (battery_capacity_kwh z72 - required_battery_capacity r72)
         <= 1 # 20 /\
       Qabs (battery_capacity_kwh z12 - required_battery_capacity r12)
         <= 1 # 20) /\
  (exists r72 r12 z72 z12,
     required_for 100%float 15%float
       (with_backup_hours 72%float default_settings_float) = Ok r72 /\
     required_for 100%float 15%float
       (with_backup_hours 12%float default_settings_float) = Ok r12 /\
     compute 100%float 15%float
       (with_backup_hours 72%float default_settings_float) = Ok z72 /\
     compute 100%float 15%float
       (with_backup_hours 12%float default_settings_float) = Ok z12 /\
     required_battery_capacity r72 =
       PrimFloat.mul 6%float (required_battery_capacity r12) /\
     battery_capacity_kwh z72 = 517.5%float /\
     battery_capacity_kwh z12 = 86.2%float).
Proof.
  split.
  - intros d p.
    assert (Hd : ~ battery_dod default_settings == 0) by (cbn; lra).
    assert (Hs : ~ solar_peak_hours default_settings == 0) by (cbn; lra).
    exists (required_Q d p (with_backup_hours 72 default_settings)),
      (required_Q d p (with_backup_hours 12 default_settings)),
      (rounded (required_Q d p (with_backup_hours 72 default_settings))),
      (rounded (required_Q d p (with_backup_hours 12 default_settings))).
    rewrite
      (required_for_Q_ok d p (with_backup_hours 72 default_settings) Hd Hs),
      (required_for_Q_ok d p (with_backup_hours 12 default_settings) Hd Hs),
      (compute_Q_ok d p (with_backup_hours 72 default_settings) Hd Hs),
      (compute_Q_ok d p (with_backup_hours 12 default_settings) Hd Hs).
    repeat split.
    + cbn. field.
    + apply Q_round1_near.
    + apply Q_round1_near.
  - exists {| required_battery_capacity := 517.49999999999989%float;
              required_solar_capacity := 27.599999999999994%float;
              required_inverter_size := 20.699999999999999%float |},
      {| required_battery_capacity := 86.249999999999986%float;
         required_solar_capacity := 27.599999999999994%float;
         required_inverter_size := 20.699999999999999%float |},
      {| battery_capacity_kwh := 517.5%float;
         solar_capacity_kw := 27.6%float;
         inverter_size_kw := 20.7%float |},
      {| battery_capacity_kwh := 86.2%float;
         solar_capacity_kw := 27.6%float;
         inverter_size_kw := 20.7%float |}.
    repeat split; by_evaluation.
Qed.

(** C8, as stated, fails on floats: 1e308 is a valid daily usage, and with
    the default settings the product of its loss-adjusted usage with the
    backup hours overflows, so the battery capacity returned is infinite. *)
Lemma C8_overflow_not_finite :
  valid_float 1e308%float 15%float default_settings_float = true /\
  exists z,
    compute 1e308%float 15%float default_settings_float = Ok z /\
    PrimFloat.is_finite (battery_capacity_kwh z) = false /\
    PrimFloat.is_infinity (battery_capacity_kwh z) = true.
Proof.
  split; [by_evaluation | ].
  exists {| battery_capacity_kwh := infinity;
            solar_capacity_kw := 2.7599999999999996e+307%float;
            inverter_size_kw := 20.7%float |}.
  repeat split; by_evaluation.
Qed.

(** C8, amended: on binary64 floats, for all valid inputs the function
    returns, and each of the three values returned is non-negative and is
    the required value rounded to one decimal place, ties to even: it is
    plus infinity when the required value has overflowed to plus infinity,
    and otherwise it is a finite float, the one read from [n / 10] and as
    near to [n / 10] as any float, where [n] is the integer nearest to ten
    times the required value and the even one at a tie.  With a usage and a
    demand of at most 1e300 nothing overflows and the three values are
    finite.  [round1] breaks the ties 0.25 and 0.75 to the even digits 0.2
    and 0.8.  In exact arithmetic the three values are non-negative numbers
    with exactly one decimal place, [round1] gives a nearest tenth, and at
    a tie the even one. *)
Theorem C8_results_rounded :
  (forall (d p : float) (s : settings float),
     valid_float d p s = true ->
     exists r z,
       required_for d p s = Ok r /\ compute d p s = Ok z /\
       rounded_to_tenth
         (required_battery_capacity r) (battery_capacity_kwh z) /\
       rounded_to_tenth (required_solar_capacity r) (solar_capacity_kw z) /\
       rounded_to_tenth (required_inverter_size r) (inverter_size_kw z) /\
       (PrimFloat.leb d 1e300%float = true ->
        PrimFloat.leb p 1e300%float = true ->
        PrimFloat.is_finite (battery_capacity_kwh z) = true /\
        PrimFloat.is_finite (solar_capacity_kw z) = true /\
        PrimFloat.is_finite (inverter_size_kw z) = true)) /\
  (round1 0.25%float = 0.2%float /\ round1 0.75%float = 0.8%float) /\
  (forall (d p : Q) (s : settings Q),
     valid d p s ->
     exists z,
       compute d p s = Ok z /\
       (0 <= battery_capacity_kwh z /\ 0 <= solar_capacity_kw z /\
        0 <= inverter_size_kw z) /\
       (exists nb ns ni : Z,
          battery_capacity_kwh z == nb # 10 /\
          solar_capacity_kw z == ns # 10 /\
          inverter_size_kw z == ni # 10)) /\
  (forall x : Q, Qabs (round1 x - x) <= 1 # 20) /\
  (forall k : Z,
     round1 ((2 * k + 1) # 20) =
     Qred ((if Z.even k then k else k + 1)%Z # 10)).
Proof.
  split; [ | split; [ | split; [ | split]]].
  - exact compute_float_rounded.
  - split; by_evaluation.
  - intros d p s Hv. destruct (valid_divisors d p s Hv) as [Hd Hs].
    exists (rounded (required_Q d p s)).
    split; [exact (compute_Q_ok d p s Hd Hs) | ].
    destruct (required_Q_nonneg d p s Hv) as (Hb & Hso & Hi).
    split.
    + cbn [rounded battery_capacity_kwh solar_capacity_kw inverter_size_kw].
      repeat split; apply Q_round1_nonneg; assumption.
    + destruct (Q_round1_tenths (required_battery_capacity (required_Q d p s)))
        as [nb Hnb].
      destruct (Q_round1_tenths (required_solar_capacity (required_Q d p s)))
        as [ns Hns].
      destruct (Q_round1_tenths (required_inverter_size (required_Q d p s)))
        as [ni Hni].
      exists nb, ns, ni. repeat split; assumption.
  - exact Q_round1_near.
  - exact Q_round1_tie.
Qed.

Lemma C8_results_rounded_witness :
  exists r z,
    required_for 100%float 15%float default_settings_float = Ok r /\
    compute 100%float 15%float default_settings_float = Ok z /\
    rounded_to_tenth
      (required_battery_capacity r) (battery_capacity_kwh z) /\
    rounded_to_tenth (required_solar_capacity r) (solar_capacity_kw z) /\
    rounded_to_tenth (required_inverter_size r) (inverter_size_kw z) /\
    (PrimFloat.leb 100%float 1e300%float = true ->
     PrimFloat.leb 15%float 1e300%float = true ->
     PrimFloat.is_finite (battery_capacity_kwh z) = true /\
     PrimFloat.is_finite (solar_capacity_kw z) = true /\
     PrimFloat.is_finite (inverter_size_kw z) = true).
Proof.
  apply (proj1 C8_results_rounded 100%float 15%float default_settings_float).
  reflexivity.
Defined.

(** C10: the divisions by the depth of discharge and by the solar peak
    hours are unguarded (a zero divisor raises [ZeroDivisionError]), and
    when the depth of discharge is at least 0.5 and the solar peak hours at
    least 3 both divisors are nonzero, so the function returns a result:
    over rationals and over floats. *)
Theorem C10_domain_excludes_zero_division :
  (forall (d p : Q) (s : settings Q),
     (battery_dod s == 0 \/ solar_peak_hours s == 0 ->
      compute d p s = Raise ZeroDivisionError) /\
     (0.5 <= battery_dod s -> 3 <= solar_peak_hours s ->
      exists z, compute d p s = Ok z)) /\
  (forall (d p : float) (s : settings float),
     (PrimFloat.eqb (battery_dod s) 0%float = true \/
      PrimFloat.eqb (solar_peak_hours s) 0%float = true ->
      compute d p s = Raise ZeroDivisionError) /\
     (PrimFloat.leb 0.5%float (battery_dod s) = true ->
      PrimFloat.leb 3%float (solar_peak_hours s) = true ->
      exists z, compute d p s = Ok z)).
Proof.
  split.
  - intros d p s. split.
    + intros Hz. rewrite compute_Q.
      destruct (Qeq_bool (battery_dod s) 0) eqn:Ed; [reflexivity | ].
      destruct (Qeq_bool (solar_peak_hours s) 0) eqn:Es; [reflexivity | ].
      apply Qeq_bool_neq in Ed. apply Qeq_bool_neq in Es. tauto.
    + intros Hd Hs. exists (rounded (required_Q d p s)).
      apply compute_Q_ok; lra.
  - intros d p s. rewrite compute_float. split.
    + intros [Hz | Hz].
      * rewrite Hz. reflexivity.
      * rewrite Hz. destruct (PrimFloat.eqb (battery_dod s) 0); reflexivity.
    + intros Hd Hs.
      rewrite (float_pos_nonzero 0.5%float (battery_dod s) eq_refl Hd).
      rewrite (float_pos_nonzero 3%float (solar_peak_hours s) eq_refl Hs).
      eexists. reflexivity.
Qed.

Lemma C10_domain_excludes_zero_division_witness :
  (exists z, compute 100 15 default_settings = Ok z) /\
  (exists z, compute 100%float 15%float default_settings_float = Ok z).
Proof.
  split.
  - apply (proj2 (proj1 C10_domain_excludes_zero_division
                    100 15 default_settings)); cbn; lra.
  - apply (proj2 (proj2 C10_domain_excludes_zero_division
                    100%float 15%float default_settings_float));
      reflexivity.
Defined.

(** * Further properties of the code *)

(** ** The script *)

Lemma getitem_None (d : list (string * profile)) (key : string) :
  getitem d key = None <-> ~ In key (map fst d).
Proof.
  induction d as [ | [k v] rest IH]; cbn.
  - tauto.
  - destruct (String.eqb_spec k key) as [-> | Hne].
    + split; [discriminate | intros H; exfalso; apply H; left; reflexivity].
    + rewrite IH. tauto.
Qed.

Lemma selected_inputs_Done (bt : string) (cd cp : float) :
  In bt options -> exists d p, selected_inputs bt cd cp = Done (d, p).
Proof.
  intros Hin. unfold selected_inputs.
  destruct (String.eqb bt "Custom"); [eauto | ].
  destruct (getitem EXAMPLE_PROFILES bt) as [pr | ] eqn:E; [eauto | ].
  apply getitem_None in E. contradiction.
Qed.

Lemma selected_inputs_Failed (bt : string) (cd cp : float) (e : app_exn) :
  selected_inputs bt cd cp = Failed e ->
  e = KeyError bt /\ ~ In bt options.
Proof.
  unfold selected_inputs.
  destruct (String.eqb bt "Custom"); [discriminate | ].
  destruct (getitem EXAMPLE_PROFILES bt) as [pr | ] eqn:E; [discriminate | ].
  intros H. injection H as <-. split; [reflexivity | ].
  apply getitem_None. exact E.
Qed.

Lemma options_cases (bt : string) :
  In bt options ->
  bt = "Small Retail Store"%string \/ bt = "Restaurant"%string \/
  bt = "Small Office"%string \/ bt = "Custom"%string.
Proof.
  cbn. intuition congruence.
Qed.

Lemma sidebar_divisors (sb : sidebar) :
  sidebar_in_range sb = true ->
  PrimFloat.eqb (slider_battery_dod sb) 0%float = false /\
  PrimFloat.eqb (slider_solar_peak_hours sb) 0%float = false.
Proof.
  unfold sidebar_in_range. intros H.
  repeat (apply andb_prop in H; destruct H as [H ?]).
  split.
  - apply (float_pos_nonzero 0.5%float); [reflexivity | ].
    eapply in_range_lower; eassumption.
  - apply (float_pos_nonzero 3%float); [reflexivity | ].
    eapply in_range_lower; eassumption.
Qed.

(** Every int the backup-hours slider can hold converts to a float within
    the same bounds. *)
Lemma backup_hours_in_range (z : Z) :
  (12 <= z <= 72)%Z ->
  in_range 12%float 72%float (float_of_int z) = true.
Proof.
  intros Hz.
  assert (Hall :
    forallb (fun n => in_range 12%float 72%float
                        (float_of_int (12 + Z.of_nat n)))
      (seq 0 61) = true) by by_evaluation.
  rewrite forallb_forall in Hall.
  replace z with (12 + Z.of_nat (Z.to_nat (z - 12)))%Z by lia.
  apply Hall. apply in_seq. lia.
Qed.

Lemma sidebar_convertible (sb : sidebar) :
  sidebar_in_range sb = true -> convertible (slider_backup_hours sb) = true.
Proof.
  unfold sidebar_in_range. intros H.
  repeat (apply andb_prop in H; destruct H as [H ?]).
  unfold convertible. apply is_finite_iff.
  assert (Hp : SF_pos (Prim2SF (float_of_int (slider_backup_hours sb)))).
  { apply (pos_of_range 12%float 72%float); [reflexivity | reflexivity | ].
    apply backup_hours_in_range. lia. }
  destruct (Prim2SF (float_of_int (slider_backup_hours sb)))
    as [? | ? | | ? ? ?]; cbn in *; tauto.
Qed.

Lemma selected_inputs_options (bt : string) (cd cp d p : float) :
  selected_inputs bt cd cp = Done (d, p) -> In bt options.
Proof.
  intros Esel.
  destruct (in_dec string_dec bt options) as [Hin | Hout]; [exact Hin | ].
  unfold selected_inputs in Esel.
  destruct (String.eqb_spec bt "Custom") as [-> | Hne]; [cbn; tauto | ].
  apply getitem_None in Hout. rewrite Hout in Esel. discriminate.
Qed.

(** X1: whatever option of the select box is chosen, whatever the number
    inputs hold, and wherever the sliders stand within their bounds, a run
    of the script with the button pressed ends with sizes to display: it
    raises neither [KeyError] nor [OverflowError] nor
    [ZeroDivisionError]. *)
Theorem X1_app_never_fails
    (bt : string) (cd cp : float) (sb : sidebar) :
  In bt options -> sidebar_in_range sb = true ->
  exists results, calculate_clicked bt cd cp sb = Done results.
Proof.
  intros Hin Hsb. unfold calculate_clicked.
  destruct (selected_inputs_Done bt cd cp Hin) as (d & p & ->).
  destruct (sidebar_divisors sb Hsb) as [Hd Hs].
  rewrite (sidebar_convertible sb Hsb).
  rewrite compute_float.
  cbn [settings_of_sidebar battery_dod solar_peak_hours].
  rewrite Hd, Hs. eexists. reflexivity.
Qed.

Lemma X1_app_never_fails_witness :
  exists results,
    calculate_clicked "Restaurant" 100%float 15%float
      {| slider_backup_hours := 24;
         slider_solar_peak_hours := 5%float;
         slider_battery_dod := 0.8%float;
         slider_system_losses := 0.15%float;
         slider_safety_factor := 1.2%float |} = Done results.
Proof.
  apply X1_app_never_fails.
  - cbn. tauto.
  - reflexivity.
Defined.

(** X2: a run ends with [KeyError] exactly when the business type is not a
    key of [EXAMPLE_PROFILES], and the error then names that business type
    and no other key. *)
Theorem X2_unknown_type_KeyError
    (bt key : string) (cd cp : float) (sb : sidebar) :
  calculate_clicked bt cd cp sb = Failed (KeyError key) <->
  key = bt /\ ~ In bt options.
Proof.
  unfold calculate_clicked.
  destruct (selected_inputs bt cd cp) as [[d p] | e] eqn:Esel.
  - pose proof (selected_inputs_options bt cd cp d p Esel) as Hin.
    split; [ | tauto].
    destruct (convertible (slider_backup_hours sb)); [ | discriminate].
    destruct (compute d p (settings_of_sidebar sb)); discriminate.
  - destruct (selected_inputs_Failed bt cd cp e Esel) as [-> Hout].
    split.
    + intros H. injection H as <-. tauto.
    + intros [-> _]. reflexivity.
Qed.

(** X3: a run ends with [ZeroDivisionError] exactly when the business type
    is a key of [EXAMPLE_PROFILES], the backup hours convert to a float,
    and the depth-of-discharge slider or the solar-peak-hours slider holds
    a zero; the usage, the demand and the other sliders never make a
    division fail. *)
Theorem X3_zero_divisor_ZeroDivisionError
    (bt : string) (cd cp : float) (sb : sidebar) :
  calculate_clicked bt cd cp sb = Failed (Calculation ZeroDivisionError) <->
  In bt options /\ convertible (slider_backup_hours sb) = true /\
  (PrimFloat.eqb (slider_battery_dod sb) 0%float = true \/
   PrimFloat.eqb (slider_solar_peak_hours sb) 0%float = true).
Proof.
  unfold calculate_clicked.
  destruct (selected_inputs bt cd cp) as [[d p] | e] eqn:Esel.
  - pose proof (selected_inputs_options bt cd cp d p Esel) as Hin.
    destruct (convertible (slider_backup_hours sb)).
    + rewrite compute_float.
      cbn [settings_of_sidebar battery_dod solar_peak_hours].
      destruct (PrimFloat.eqb (slider_battery_dod sb) 0); [tauto | ].
      destruct (PrimFloat.eqb (slider_solar_peak_hours sb) 0); [tauto | ].
      split; [discriminate | intros (_ & _ & [H | H]); discriminate].
    + split; [discriminate | intros (_ & H & _); discriminate].
  - destruct (selected_inputs_Failed bt cd cp e Esel) as [-> Hout].
    split; [discriminate | tauto].
Qed.

(** X12: a run ends with [OverflowError] exactly when the business type is
    a key of [EXAMPLE_PROFILES] and the backup hours are an int too large
    to convert to a float, whatever the other sliders hold (also with a
    zero divisor: the conversion comes first).  The largest int that
    converts is [2 ^ 1024 - 2 ^ 970 - 1], of either sign. *)
Theorem X12_huge_backup_hours_OverflowError :
  (forall (bt : string) (cd cp : float) (sb : sidebar),
     calculate_clicked bt cd cp sb = Failed OverflowError <->
     In bt options /\ convertible (slider_backup_hours sb) = false) /\
  convertible (2 ^ 1024 - 2 ^ 970 - 1) = true /\
  convertible (2 ^ 1024 - 2 ^ 970) = false /\
  convertible (- (2 ^ 1024 - 2 ^ 970 - 1)) = true /\
  convertible (- (2 ^ 1024 - 2 ^ 970)) = false.
Proof.
  split; [ | repeat split; by_evaluation].
  intros bt cd cp sb. unfold calculate_clicked.
  destruct (selected_inputs bt cd cp) as [[d p] | e] eqn:Esel.
  - pose proof (selected_inputs_options bt cd cp d p Esel) as Hin.
    destruct (convertible (slider_backup_hours sb)).
    + split; [ | intros [_ H]; discriminate].
      destruct (compute d p (settings_of_sidebar sb)); discriminate.
    + tauto.
  - destruct (selected_inputs_Failed bt cd cp e Esel) as [-> Hout].
    split; [discriminate | tauto].
Qed.

(** A float that is at least a strictly positive one is strictly
    positive. *)
Lemma float_at_least_pos (lo x : float) :
  PrimFloat.ltb 0%float lo = true -> PrimFloat.leb lo x = true ->
  PrimFloat.ltb 0%float x = true.
Proof.
  rewrite !ltb_spec, leb_spec.
  change (Prim2SF 0%float) with (S754_zero false).
  destruct (Prim2SF lo) as [sl | sl | | sl ml el];
    destruct (Prim2SF x) as [sx | sx | | sx mx ex];
    try destruct sl; try destruct sx; cbn; try congruence.
Qed.

Lemma sidebar_settings_valid (sb : sidebar) :
  sidebar_in_range sb = true ->
  in_range 12%float 72%float (backup_hours (settings_of_sidebar sb)) = true /\
  in_range 3%float 7%float (solar_peak_hours (settings_of_sidebar sb)) = true /\
  in_range 0.5%float 0.9%float (battery_dod (settings_of_sidebar sb)) = true /\
  in_range 0.1%float 0.3%float (system_losses (settings_of_sidebar sb)) = true /\
  in_range 1.1%float 1.5%float (safety_factor (settings_of_sidebar sb)) = true.
Proof.
  unfold sidebar_in_range. intros H.
  repeat (apply andb_prop in H; destruct H as [H ?]).
  cbn [settings_of_sidebar backup_hours solar_peak_hours battery_dod
       system_losses safety_factor].
  repeat split; try assumption.
  apply backup_hours_in_range. lia.
Qed.

Lemma valid_float_intro (d p : float) (s : settings float) :
  PrimFloat.ltb 0%float d = true -> PrimFloat.is_finite d = true ->
  PrimFloat.ltb 0%float p = true -> PrimFloat.is_finite p = true ->
  in_range 12%float 72%float (backup_hours s) = true /\
  in_range 3%float 7%float (solar_peak_hours s) = true /\
  in_range 0.5%float 0.9%float (battery_dod s) = true /\
  in_range 0.1%float 0.3%float (system_losses s) = true /\
  in_range 1.1%float 1.5%float (safety_factor s) = true ->
  valid_float d p s = true.
Proof.
  intros Hd Hdf Hp Hpf (Hb & Hs & Ho & Hl & Hf). unfold valid_float.
  rewrite Hd, Hdf, Hp, Hpf, Hb, Hs, Ho, Hl, Hf. reflexivity.
Qed.

(** X4: the script only ever calls the function on valid arguments.  For
    every option of the select box, sliders within their bounds and number
    inputs that are finite and at least their minimum values (1.0 and 0.5),
    the usage and demand selected are finite and strictly positive and the
    settings passed are within the ranges of the sliders. *)
Theorem X4_app_passes_valid_arguments
    (bt : string) (cd cp : float) (sb : sidebar) :
  In bt options -> sidebar_in_range sb = true ->
  PrimFloat.leb 1%float cd = true -> PrimFloat.is_finite cd = true ->
  PrimFloat.leb 0.5%float cp = true -> PrimFloat.is_finite cp = true ->
  exists d p,
    selected_inputs bt cd cp = Done (d, p) /\
    valid_float d p (settings_of_sidebar sb) = true.
Proof.
  intros Hin Hsb Hcd Hcdf Hcp Hcpf.
  pose proof (sidebar_settings_valid sb Hsb) as Hset.
  destruct (options_cases bt Hin) as [-> | [-> | [-> | ->]]].
  - exists (float_of_int 50), (float_of_int 8).
    split; [reflexivity | ].
    apply valid_float_intro; try reflexivity; exact Hset.
  - exists (float_of_int 200), (float_of_int 25).
    split; [reflexivity | ].
    apply valid_float_intro; try reflexivity; exact Hset.
  - exists (float_of_int 75), (float_of_int 12).
    split; [reflexivity | ].
    apply valid_float_intro; try reflexivity; exact Hset.
  - exists cd, cp. split; [reflexivity | ].
    apply valid_float_intro; try assumption.
    + apply (float_at_least_pos 1%float); [reflexivity | exact Hcd].
    + apply (float_at_least_pos 0.5%float); [reflexivity | exact Hcp].
Qed.

Lemma X4_app_passes_valid_arguments_witness :
  exists d p,
    selected_inputs "Custom" 100%float 15%float = Done (d, p) /\
    valid_float d p
      (settings_of_sidebar
         {| slider_backup_hours := 24;
            slider_solar_peak_hours := 5%float;
            slider_battery_dod := 0.8%float;
            slider_system_losses := 0.15%float;
            slider_safety_factor := 1.2%float |}) = true.
Proof.
  apply X4_app_passes_valid_arguments; try reflexivity.
  cbn. tauto.
Defined.

(** ** The function on floats *)

(** X5: on binary64 floats, for every valid input (finite, strictly
    positive usage and demand, settings within the sliders' ranges) the
    function returns, and each of the three sizes is at least 0: never
    negative and never NaN (it can be plus infinity). *)
Theorem X5_sizes_nonnegative_float
    (d p : float) (s : settings float) :
  valid_float d p s = true ->
  exists z,
    compute d p s = Ok z /\
    PrimFloat.leb 0%float (battery_capacity_kwh z) = true /\
    PrimFloat.leb 0%float (solar_capacity_kw z) = true /\
    PrimFloat.leb 0%float (inverter_size_kw z) = true.
Proof.
  unfold valid_float. intros H.
  repeat (apply andb_prop in H; destruct H as [H ?]).
  assert (Hd : SF_pos (Prim2SF d)) by (apply pos_of_finite; assumption).
  assert (Hp : SF_pos (Prim2SF p)) by (apply pos_of_finite; assumption).
  assert (Hbh : SF_pos (Prim2SF (backup_hours s))).
  { apply (pos_of_range 12%float 72%float);
      [reflexivity | reflexivity | assumption]. }
  assert (Hsph : SF_pos (Prim2SF (solar_peak_hours s))).
  { apply (pos_of_range 3%float 7%float);
      [reflexivity | reflexivity | assumption]. }
  assert (Hdod : SF_pos (Prim2SF (battery_dod s))).
  { apply (pos_of_range 0.5%float 0.9%float);
      [reflexivity | reflexivity | assumption]. }
  assert (Hl : SF_pos (Prim2SF (system_losses s))).
  { apply (pos_of_range 0.1%float 0.3%float);
      [reflexivity | reflexivity | assumption]. }
  assert (Hsf : SF_pos (Prim2SF (safety_factor s))).
  { apply (pos_of_range 1.1%float 1.5%float);
      [reflexivity | reflexivity | assumption]. }
  assert (Hd0 : PrimFloat.eqb (battery_dod s) 0%float = false).
  { rewrite FloatAxioms.eqb_spec.
    destruct (Prim2SF (battery_dod s)) as [? | ? | | [ | ] ? ?];
      cbn in *; tauto. }
  assert (Hs0 : PrimFloat.eqb (solar_peak_hours s) 0%float = false).
  { rewrite FloatAxioms.eqb_spec.
    destruct (Prim2SF (solar_peak_hours s)) as [? | ? | | [ | ] ? ?];
      cbn in *; tauto. }
  rewrite compute_float, Hd0, Hs0. cbv zeta.
  eexists. split; [reflexivity | ].
  cbn [battery_capacity_kwh solar_capacity_kw inverter_size_kw].
  assert (Hfac : SF_nonneg
            (Prim2SF (PrimFloat.add 1 (system_losses s)))).
  { rewrite add_spec. apply SFadd_pos; [exact I | exact Hl]. }
  assert (Hadj : SF_nonneg
            (Prim2SF (PrimFloat.mul d (PrimFloat.add 1 (system_losses s))))).
  { rewrite mul_spec. apply SFmul_pos_nonneg; assumption. }
  assert (Hadjp : SF_nonneg
            (Prim2SF (PrimFloat.mul p (PrimFloat.add 1 (system_losses s))))).
  { rewrite mul_spec. apply SFmul_pos_nonneg; assumption. }
  repeat split; apply leb_0_of_nonneg, float_round1_nonneg.
  - rewrite mul_spec. apply SFmul_nonneg; [ | exact Hsf].
    rewrite div_spec. apply SFdiv_nonneg; [ | exact Hdod].
    rewrite div_spec. apply SFdiv_nonneg; [ | exact I].
    rewrite mul_spec. apply SFmul_nonneg; assumption.
  - rewrite mul_spec. apply SFmul_nonneg; [ | exact Hsf].
    rewrite div_spec. apply SFdiv_nonneg; assumption.
  - rewrite mul_spec. apply SFmul_nonneg; assumption.
Qed.

Lemma X5_sizes_nonnegative_float_witness :
  exists z,
    compute 100%float 15%float default_settings_float = Ok z /\
    PrimFloat.leb 0%float (battery_capacity_kwh z) = true /\
    PrimFloat.leb 0%float (solar_capacity_kw z) = true /\
    PrimFloat.leb 0%float (inverter_size_kw z) = true.
Proof.
  apply (X5_sizes_nonnegative_float 100%float 15%float
           default_settings_float).
  reflexivity.
Defined.

(** X6: on binary64 floats, a daily usage of 0.0 is accepted silently:
    whenever the loss factor, the backup hours, the safety factor and the
    two divisors are finite and the divisors are not zero, the function
    returns, and the battery and solar sizes it returns equal zero. *)
Theorem X6_zero_usage_float (p : float) (s : settings float) :
  PrimFloat.is_finite (PrimFloat.add 1%float (system_losses s)) = true ->
  PrimFloat.is_finite (backup_hours s) = true ->
  PrimFloat.is_finite (safety_factor s) = true ->
  PrimFloat.is_finite (battery_dod s) = true ->
  PrimFloat.is_finite (solar_peak_hours s) = true ->
  PrimFloat.eqb (battery_dod s) 0%float = false ->
  PrimFloat.eqb (solar_peak_hours s) 0%float = false ->
  exists z,
    compute 0%float p s = Ok z /\
    PrimFloat.eqb (battery_capacity_kwh z) 0%float = true /\
    PrimFloat.eqb (solar_capacity_kw z) 0%float = true.
Proof.
  intros Hl Hb Hf Hd Hs Hd0 Hs0.
  rewrite compute_float, Hd0, Hs0. cbv zeta.
  eexists. split; [reflexivity | ].
  cbn [battery_capacity_kwh solar_capacity_kw].
  pose proof (nonzero_finite_SF _ Hd Hd0) as Hdd.
  pose proof (nonzero_finite_SF _ Hs Hs0) as Hss.
  apply is_finite_SF in Hl, Hb, Hf.
  assert (Hadj : SF_is_zero
            (Prim2SF (PrimFloat.mul 0 (PrimFloat.add 1 (system_losses s))))).
  { rewrite mul_spec. apply SFmul_zero_l; [exact I | exact Hl]. }
  split; apply float_round1_zero.
  - rewrite mul_spec. apply SFmul_zero_l; [ | exact Hf].
    rewrite div_spec. apply SFdiv_zero_l; [ | exact Hdd].
    rewrite div_spec. apply SFdiv_zero_l; [ | exact I].
    rewrite mul_spec. apply SFmul_zero_l; [exact Hadj | exact Hb].
  - rewrite mul_spec. apply SFmul_zero_l; [ | exact Hf].
    rewrite div_spec. apply SFdiv_zero_l; [exact Hadj | exact Hss].
Qed.

Lemma X6_zero_usage_float_witness :
  exists z,
    compute 0%float 15%float default_settings_float = Ok z /\
    PrimFloat.eqb (battery_capacity_kwh z) 0%float = true /\
    PrimFloat.eqb (solar_capacity_kw z) 0%float = true.
Proof.
  apply (X6_zero_usage_float 15%float default_settings_float);
    reflexivity.
Defined.

(** ** What each size depends on *)

Lemma calculate_Ok_inv (A : Type) (N : Number A)
    (d p bh sph dod l sf : A) (z : sizes A) :
  calculate_microgrid_size d p bh sph dod l sf = Ok z ->
  z = returned_sizes d p bh sph dod l sf.
Proof.
  unfold calculate_microgrid_size, required_sizes, truediv, returned_sizes.
  destruct (is_zero (of_int 24)); [discriminate | ].
  destruct (is_zero dod); [discriminate | ].
  destruct (is_zero sph); [discriminate | ].
  cbn. intros H. injection H as <-. reflexivity.
Qed.

(** X7: over any number type, take two calls that both return, with the
    same system losses and safety factor.  The battery size is the same
    when usage, backup hours and depth of discharge agree (it ignores the
    peak demand and the solar peak hours); the solar size is the same when
    usage and solar peak hours agree (it ignores demand, backup hours and
    depth of discharge); the inverter size is the same when the peak demand
    agrees (it ignores everything else). *)
Theorem X7_what_each_size_depends_on
    (A : Type) (N : Number A)
    (d d' p p' bh bh' sph sph' dod dod' l sf : A) (z z' : sizes A) :
  calculate_microgrid_size d p bh sph dod l sf = Ok z ->
  calculate_microgrid_size d' p' bh' sph' dod' l sf = Ok z' ->
  (d = d' -> bh = bh' -> dod = dod' ->
   battery_capacity_kwh z = battery_capacity_kwh z') /\
  (d = d' -> sph = sph' -> solar_capacity_kw z = solar_capacity_kw z') /\
  (p = p' -> inverter_size_kw z = inverter_size_kw z').
Proof.
  intros Hz Hz'. apply calculate_Ok_inv in Hz. apply calculate_Ok_inv in Hz'.
  subst z z'. repeat split.
  - intros -> -> ->. reflexivity.
  - intros -> ->. reflexivity.
  - intros ->. reflexivity.
Qed.

Lemma X7_what_each_size_depends_on_witness :
  (100%float = 100%float -> float_of_int 24 = float_of_int 24 ->
   0.8%float = 0.5%float ->
   172.5%float = 276%float) /\
  (100%float = 100%float -> float_of_int 5 = float_of_int 5 ->
   27.6%float = 27.6%float) /\
  (15%float = 40%float -> 20.7%float = 55.2%float).
Proof.
  apply (X7_what_each_size_depends_on float Number_float
           100%float 100%float 15%float 40%float
           (float_of_int 24) (float_of_int 24)
           (float_of_int 5) (float_of_int 5)
           0.8%float 0.5%float 0.15%float 1.2%float
           {| battery_capacity_kwh := 172.5%float;
              solar_capacity_kw := 27.6%float;
              inverter_size_kw := 20.7%float |}
           {| battery_capacity_kwh := 276%float;
              solar_capacity_kw := 27.6%float;
              inverter_size_kw := 55.2%float |}); by_evaluation.
Defined.

(** ** The formulas in exact arithmetic *)

Lemma in_domain_lightest : in_domain lightest_settings.
Proof.
  unfold in_domain; cbn. repeat split; lra.
Qed.

Lemma in_domain_heaviest : in_domain heaviest_settings.
Proof.
  unfold in_domain; cbn. repeat split; lra.
Qed.

Lemma grows_from_lightest (d p : Q) (s : settings Q) :
  in_domain s -> grows d p lightest_settings d p s.
Proof.
  intros (Hb & Hs & Hd & Hl & Hf). unfold grows; cbn. repeat split; lra.
Qed.

Lemma grows_to_heaviest (d p : Q) (s : settings Q) :
  in_domain s -> grows d p s d p heaviest_settings.
Proof.
  intros (Hb & Hs & Hd & Hl & Hf). unfold grows; cbn. repeat split; lra.
Qed.

(** X8: in exact arithmetic the required sizes are proportional to the
    inputs.  Multiplying the daily usage by [a] and the peak demand by [b]
    multiplies the required battery and solar capacities by [a] and the
    required inverter size by [b], whatever the settings, as long as the
    divisors are not zero. *)
Theorem X8_required_sizes_scale (a b d p : Q) (s : settings Q) :
  ~ battery_dod s == 0 -> ~ solar_peak_hours s == 0 ->
  exists r r',
    required_for d p s = Ok r /\ required_for (a * d) (b * p) s = Ok r' /\
    required_battery_capacity r' == a * required_battery_capacity r /\
    required_solar_capacity r' == a * required_solar_capacity r /\
    required_inverter_size r' == b * required_inverter_size r.
Proof.
  intros Hd Hs.
  exists (required_Q d p s), (required_Q (a * d) (b * p) s).
  rewrite !(required_for_Q_ok _ _ s Hd Hs).
  repeat split; cbn.
  - field. exact Hd.
  - field. exact Hs.
  - ring.
Qed.

Lemma X8_required_sizes_scale_witness :
  exists r r',
    required_for 100 15 default_settings = Ok r /\
    required_for (3 * 100) ((1 # 2) * 15) default_settings = Ok r' /\
    required_battery_capacity r' == 3 * required_battery_capacity r /\
    required_solar_capacity r' == 3 * required_solar_capacity r /\
    required_inverter_size r' == (1 # 2) * required_inverter_size r.
Proof.
  apply (X8_required_sizes_scale 3 (1 # 2) 100 15 default_settings);
    cbn; lra.
Defined.

(** X9: in exact arithmetic, for valid inputs and settings within the
    sliders' ranges, the required battery capacity lies between 121/180
    (about 0.67) and 11.7 times the daily usage, the required solar
    capacity between 121/700 (about 0.17) and 0.65 times the daily usage,
    and the required inverter size between 1.21 and 1.95 times the peak
    demand. *)
Theorem X9_required_sizes_bounds (d p : Q) (s : settings Q) :
  valid d p s ->
  exists r,
    required_for d p s = Ok r /\
    (121 # 180) * d <= required_battery_capacity r <= (117 # 10) * d /\
    (121 # 700) * d <= required_solar_capacity r <= (13 # 20) * d /\
    (121 # 100) * p <= required_inverter_size r <= (39 # 20) * p.
Proof.
  intros Hv. destruct (valid_divisors d p s Hv) as [Hd Hs].
  exists (required_Q d p s). split; [exact (required_for_Q_ok d p s Hd Hs) | ].
  pose proof Hv as (Hd0 & Hp0 & Hdom).
  assert (Hlo : valid d p lightest_settings).
  { split; [exact Hd0 | split; [exact Hp0 | exact in_domain_lightest]]. }
  assert (Hhi : valid d p heaviest_settings).
  { split; [exact Hd0 | split; [exact Hp0 | exact in_domain_heaviest]]. }
  destruct (required_Q_mono d p lightest_settings d p s Hlo Hv
              (grows_from_lightest d p s Hdom)) as (Lb & Ls & Li).
  destruct (required_Q_mono d p s d p heaviest_settings Hv Hhi
              (grows_to_heaviest d p s Hdom)) as (Ub & Us & Ui).
  assert (Eb : required_battery_capacity (required_Q d p lightest_settings)
               == (121 # 180) * d) by (cbn; field).
  assert (Es : required_solar_capacity (required_Q d p lightest_settings)
               == (121 # 700) * d) by (cbn; field).
  assert (Ei : required_inverter_size (required_Q d p lightest_settings)
               == (121 # 100) * p) by (cbn; ring).
  assert (Fb : required_battery_capacity (required_Q d p heaviest_settings)
               == (117 # 10) * d) by (cbn; field).
  assert (Fs : required_solar_capacity (required_Q d p heaviest_settings)
               == (13 # 20) * d) by (cbn; field).
  assert (Fi : required_inverter_size (required_Q d p heaviest_settings)
               == (39 # 20) * p) by (cbn; ring).
  rewrite <- Eb, <- Es, <- Ei, <- Fb, <- Fs, <- Fi.
  repeat split; assumption.
Qed.

Lemma X9_required_sizes_bounds_witness :
  exists r,
    required_for 100 15 default_settings = Ok r /\
    (121 # 180) * 100 <= required_battery_capacity r <= (117 # 10) * 100 /\
    (121 # 700) * 100 <= required_solar_capacity r <= (13 # 20) * 100 /\
    (121 # 100) * 15 <= required_inverter_size r <= (39 # 20) * 15.
Proof.
  apply (X9_required_sizes_bounds 100 15 default_settings).
  exact valid_default_100.
Defined.

(** X10: in exact arithmetic, whenever the function returns, each size it
    returns is within 0.05 of the required size computed before rounding. *)
Theorem X10_rounding_error (d p : Q) (s : settings Q) :
  ~ battery_dod s == 0 -> ~ solar_peak_hours s == 0 ->
  exists r z,
    required_for d p s = Ok r /\ compute d p s = Ok z /\
    Qabs (battery_capacity_kwh z - required_battery_capacity r) <= 1 # 20 /\
    Qabs (solar_capacity_kw z - required_solar_capacity r) <= 1 # 20 /\
    Qabs (inverter_size_kw z - required_inverter_size r) <= 1 # 20.
Proof.
  intros Hd Hs. exists (required_Q d p s), (rounded (required_Q d p s)).
  rewrite (required_for_Q_ok d p s Hd Hs), (compute_Q_ok d p s Hd Hs).
  repeat split; apply Q_round1_near.
Qed.

Lemma X10_rounding_error_witness :
  exists r z,
    required_for 50 8 default_settings = Ok r /\
    compute 50 8 default_settings = Ok z /\
    Qabs (battery_capacity_kwh z - required_battery_capacity r) <= 1 # 20 /\
    Qabs (solar_capacity_kw z - required_solar_capacity r) <= 1 # 20 /\
    Qabs (inverter_size_kw z - required_inverter_size r) <= 1 # 20.
Proof.
  apply (X10_rounding_error 50 8 default_settings); cbn; lra.
Defined.

(** X11: in exact arithmetic, for every input the script admits (a daily
    usage of at least 1, a peak demand of at least 0.5, settings within the
    sliders' ranges) no size rounds down to zero: the battery size returned
    is at least 0.7, the solar size at least 0.2 and the inverter size at
    least 0.6. *)
Theorem X11_sizes_never_zero (d p : Q) (s : settings Q) :
  1 <= d -> (1 # 2) <= p -> in_domain s ->
  exists z,
    compute d p s = Ok z /\
    (7 # 10) <= battery_capacity_kwh z /\
    (2 # 10) <= solar_capacity_kw z /\
    (6 # 10) <= inverter_size_kw z.
Proof.
  intros Hd1 Hp1 Hdom.
  assert (Hv : valid d p s).
  { split; [lra | split; [lra | exact Hdom]]. }
  assert (Hlo : valid 1 (1 # 2) lightest_settings).
  { split; [lra | split; [lra | exact in_domain_lightest]]. }
  destruct (valid_divisors d p s Hv) as [Hd Hs].
  exists (rounded (required_Q d p s)).
  split; [exact (compute_Q_ok d p s Hd Hs) | ].
  assert (Hg : grows 1 (1 # 2) lightest_settings d p s).
  { destruct Hdom as (Hb & Hsp & Hdo & Hl & Hf).
    unfold grows; cbn. repeat split; lra. }
  destruct (required_Q_mono 1 (1 # 2) lightest_settings d p s Hlo Hv Hg)
    as (Lb & Ls & Li).
  apply Q_round1_mono in Lb, Ls, Li.
  cbn [rounded battery_capacity_kwh solar_capacity_kw inverter_size_kw].
  repeat split.
  - eapply Qle_trans; [ | exact Lb]. vm_compute. discriminate.
  - eapply Qle_trans; [ | exact Ls]. vm_compute. discriminate.
  - eapply Qle_trans; [ | exact Li]. vm_compute. discriminate.
Qed.

Lemma X11_sizes_never_zero_witness :
  exists z,
    compute 1 (1 # 2) lightest_settings = Ok z /\
    (7 # 10) <= battery_capacity_kwh z /\
    (2 # 10) <= solar_capacity_kw z /\
    (6 # 10) <= inverter_size_kw z.
Proof.
  apply (X11_sizes_never_zero 1 (1 # 2) lightest_settings).
  - lra.
  - lra.
  - exact in_domain_lightest.
Defined.
